(** * agte/meow: the application host and its document-model base class

    A shallow embedding of [Application] (staged bootstrap and teardown,
    convention-based loaders, data-migration coordinator) and of
    [SimpleMongoModel.update], followed by the properties of the
    specification that were checked against them.  The other methods of
    [SimpleMongoModel], the [Product] model, the [Configuration] loader
    with its [deepMerge] and the [emitToRoom] decorator of the realtime
    plugin follow, with properties read off their code.

    Conventions of the embedding:
    - a JavaScript object used as a dictionary whose enumeration order is
      observable ([models], [services], the module structure) is an
      association list in insertion order, enumerated the way
      [Object.entries] does (array-index keys first, ascending);
    - an object used as a plain record of fields (a model instance) is a
      [gmap string JsVal];
    - collaborators outside the class (configuration loader, file system,
      dynamic import, database driver, HTTP server) answer through an
      environment record [Env]: what each call settles to is an input;
    - a method is a function of the state that returns its completion
      (normal or thrown), the new state and the events it produced, in
      order. State changes made before a throw are kept, as in JavaScript. *)

From stdpp Require Import base gmap list strings pretty sorting.
From Stdlib Require Import ZArith NArith Ascii String Lia.

Open Scope string_scope.
Open Scope list_scope.

(** ** JavaScript and Node primitives used by the sources *)

Module Js.

(** Primitive values met in the sources. *)
Inductive JsVal :=
| JUndefined
| JNull
| JBool (b : bool)
| JNum (z : Z)
| JStr (s : string)
| JRef (handle : nat).

(** Errors that reach a [catch] or the caller. *)
Inductive Err :=
| TypeError (what : string)      (* property read or call on undefined/null *)
| DuplicateKey (id : Z)          (* unique-key violation reported by the driver *)
| Thrown (what : string).        (* anything a collaborator throws *)

(** What an awaited promise settles to. *)
Inductive Settled (A : Type) :=
| Fulfilled (a : A)
| Rejected (e : Err).
Arguments Fulfilled {A} a.
Arguments Rejected {A} e.

(** [String(v)] as a template literal applies it. *)
Definition to_string (v : JsVal) : string :=
  match v with
  | JUndefined => "undefined"
  | JNull => "null"
  | JBool true => "true"
  | JBool false => "false"
  | JNum z => pretty z
  | JStr s => s
  | JRef _ => "[object Object]"
  end.

(** [s.endsWith(suffix)] *)
Definition endsWith (s suffix : string) : bool :=
  let n := String.length s in
  let m := String.length suffix in
  (m <=? n)%nat && String.eqb (String.substring (n - m) m s) suffix.

(** Position of the last ["."] of a file name, if any. *)
Fixpoint last_dot (pos : nat) (s : string) : option nat :=
  match s with
  | EmptyString => None
  | String c rest =>
      match last_dot (S pos) rest with
      | Some i => Some i
      | None => if Ascii.eqb c "."%char then Some pos else None
      end
  end.

(** [path.parse(p).name] on a bare file name: the base name without its
    extension. Node keeps the whole base when it has no dot, when its only
    dot is the first character, and for [".."]. *)
Definition path_parse_name (base : string) : string :=
  match last_dot 0 base with
  | None => base
  | Some O => base
  | Some i => if String.eqb base ".." then base else String.substring 0 i base
  end.

(** [path.resolve(dir, file)] / [path.join(dir, file)] for an absolute,
    normalised [dir] and a directory entry name. *)
Definition path_resolve (dir file : string) : string := dir +:+ "/" +:+ file.

Definition is_digit (c : ascii) : bool :=
  let n := nat_of_ascii c in (48 <=? n)%nat && (n <=? 57)%nat.

Definition digit_value (c : ascii) : Z := Z.of_nat (nat_of_ascii c - 48).

(** White space that [parseInt] skips, within ASCII. *)
Definition is_space (c : ascii) : bool :=
  let n := nat_of_ascii c in
  (n =? 32)%nat || ((9 <=? n)%nat && (n <=? 13)%nat).

Fixpoint skip_spaces (s : string) : string :=
  match s with
  | String c rest => if is_space c then skip_spaces rest else s
  | EmptyString => s
  end.

(** Longest run of decimal digits at the head of [s]: its value, and
    whether it is non-empty. *)
Fixpoint leading_digits (acc : Z) (seen : bool) (s : string) : option Z :=
  match s with
  | String c rest =>
      if is_digit c then leading_digits (10 * acc + digit_value c) true rest
      else if seen then Some acc else None
  | EmptyString => if seen then Some acc else None
  end.

(** [Number.parseInt(s, 10)]; [None] is [NaN]. Exact on integers below
    2^53, which is where the double it returns is exact. *)
Definition parseInt (s : string) : option Z :=
  match skip_spaces s with
  | String "-" rest => Z.opp <$> leading_digits 0 false rest
  | String "+" rest => leading_digits 0 false rest
  | t => leading_digits 0 false t
  end.

(** [a > b] where [a] may be [NaN]. *)
Definition num_gt (a : option Z) (b : Z) : bool :=
  match a with
  | Some z => (b <? z)%Z
  | None => false
  end.

(** [a < b] on the values the sort comparator can meet. *)
Definition js_lt (a b : JsVal) : bool :=
  match a, b with
  | JNum x, JNum y => (x <? y)%Z
  | _, _ => false
  end.

(** *** Objects as ordered dictionaries *)

Definition Obj (V : Type) := list (string * V).

Fixpoint obj_get {V} (k : string) (o : Obj V) : option V :=
  match o with
  | [] => None
  | (k', v) :: rest => if String.eqb k k' then Some v else obj_get k rest
  end.

(** Define-or-overwrite of an own property: an existing key keeps its
    place, a new key goes last. *)
Fixpoint obj_put {V} (k : string) (v : V) (o : Obj V) : Obj V :=
  match o with
  | [] => [(k, v)]
  | (k', v') :: rest =>
      if String.eqb k k' then (k, v) :: rest else (k', v') :: obj_put k v rest
  end.

(** [o[k] = v] on a plain object. Assigning to ["__proto__"] goes to the
    accessor of [Object.prototype] and creates no own property. *)
Definition obj_set {V} (k : string) (v : V) (o : Obj V) : Obj V :=
  if String.eqb k "__proto__" then o else obj_put k v o.

Fixpoint all_digits (s : string) : bool :=
  match s with
  | EmptyString => true
  | String c rest => is_digit c && all_digits rest
  end.

(** A key is an array index when it is the canonical decimal form of an
    integer in [0, 2^32 - 2]. *)
Definition array_index (k : string) : option Z :=
  match k with
  | EmptyString => None
  | String c rest =>
      if Ascii.eqb c "0"%char && negb (String.eqb rest "") then None
      else if all_digits k then
        match leading_digits 0 false k with
        | Some n => if (n <? 2 ^ 32 - 1)%Z then Some n else None
        | None => None
        end
      else None
  end.

Definition is_index {V} (e : string * V) : bool :=
  match array_index e.1 with Some _ => true | None => false end.

Definition index_of {V} (e : string * V) : Z :=
  match array_index e.1 with Some n => n | None => 0 end.

Fixpoint insert_sorted {V} (e : string * V) (l : list (string * V)) :=
  match l with
  | [] => [e]
  | x :: rest =>
      if (index_of e <=? index_of x)%Z then e :: l
      else x :: insert_sorted e rest
  end.

Definition sort_indices {V} (l : list (string * V)) : list (string * V) :=
  foldr insert_sorted [] l.

(** Own enumerable string keys in the order of [Object.entries],
    [Object.keys] and [Object.values]: array indices ascending, then the
    other keys in insertion order. *)
Definition obj_entries {V} (o : Obj V) : list (string * V) :=
  sort_indices (List.filter is_index o)
    ++ List.filter (fun e => negb (is_index e)) o.

Definition obj_values {V} (o : Obj V) : list V := (obj_entries o).*2.

(** Insertion step of [Array.prototype.sort]: the pivot goes before the
    first element the comparator places after it.  Node locates that slot
    by bisection inside a run; both searches return the end of the run
    when the comparator never answers a negative number. *)
Fixpoint sort_insert {A} (cmp : A -> A -> Z) (pivot : A) (run : list A) : list A :=
  match run with
  | [] => [pivot]
  | x :: rest =>
      if (cmp pivot x <? 0)%Z then pivot :: run
      else x :: sort_insert cmp pivot rest
  end.

(** [arr.sort(cmp)]: elements are inserted left to right. *)
Definition Array_sort {A} (cmp : A -> A -> Z) (arr : list A) : list A :=
  foldl (fun run pivot => sort_insert cmp pivot run) [] arr.

End Js.

Import Js.

(** ** SimpleMongoModel *)

Module SimpleMongoModel.

(** The own properties of an instance. *)
Abbreviation Instance := (gmap string JsVal).

(** The class side: [static collection = null] until [init] binds it. *)
Record Class := { className : string; collection : option string }.

(** [static async init({ mongo })] *)
Definition init (cls : Class) : Class :=
  {| className := className cls; collection := Some (className cls) |}.

(** [this[k] = v]: the class declares [set _id(value) { this.id = value; }],
    so a write to [_id] lands in [id]. *)
Definition set_property (k : string) (v : JsVal) (this : Instance) : Instance :=
  if String.eqb k "_id" then <["id" := v]> this else <[k := v]> this.

(** [Object.assign(this, source)], [source] given by its own enumerable
    properties in enumeration order. *)
Definition Object_assign (this : Instance) (source : list (string * JsVal)) : Instance :=
  foldl (fun o kv => set_property kv.1 kv.2 o) this source.

(** [async update(changes)]. [reply] is what
    [collection.updateOne({ _id: this.id }, { $set: changes })] settles to,
    reduced to its [modifiedCount]. *)
Definition update (cls : Class) (this : Instance) (changes : list (string * JsVal))
    (reply : Settled Z) : Instance * Settled bool :=
  match collection cls with
  | None => (this, Rejected (TypeError "collection.updateOne"))
  | Some _ =>
      match reply with
      | Rejected e => (this, Rejected e)
      | Fulfilled modifiedCount =>
          (Object_assign this changes, Fulfilled (modifiedCount =? 1)%Z)
      end
  end.

(** [async updateConcurrently(filter, changes)], the sibling that merges
    only after the database confirmed the write. *)
Definition updateConcurrently (cls : Class) (this : Instance)
    (changes : list (string * JsVal)) (reply : Settled Z) : Instance * Settled bool :=
  match collection cls with
  | None => (this, Rejected (TypeError "collection.updateOne"))
  | Some _ =>
      match reply with
      | Rejected e => (this, Rejected e)
      | Fulfilled modifiedCount =>
          if (modifiedCount =? 1)%Z
          then (Object_assign this changes, Fulfilled true)
          else (this, Fulfilled false)
      end
  end.

(** The property a write to [k] ends up in. *)
Definition slot (k : string) : string := if String.eqb k "_id" then "id" else k.

(** The value [changes] leaves in property [p]: that of the last entry
    written to [p]. *)
Fixpoint last_write (p : string) (changes : list (string * JsVal)) : option JsVal :=
  match changes with
  | [] => None
  | (k, v) :: rest =>
      match last_write p rest with
      | Some w => Some w
      | None => if String.eqb (slot k) p then Some v else None
      end
  end.

End SimpleMongoModel.

(** ** Application *)

Module Application.

(** *** Data *)

(** The values [status] takes or is compared with. *)
Inductive Status := created | launching | active | stopped.

#[global] Instance Status_eq_dec : EqDecision Status.
Proof. solve_decision. Defined.

Definition status_eqb (a b : Status) : bool :=
  match a, b with
  | created, created | launching, launching
  | active, active | stopped, stopped => true
  | _, _ => false
  end.

(** The logger methods the class calls. *)
Inductive Level := error | always | debug.

(** What the class does to its collaborators, in the order it does it.
    [Log] is the call of a logger method; whether the line is written
    depends on the level the logger was configured with. *)
Inductive Event :=
| Log (lvl : Level) (line : string)   (* appLogger.<lvl>(line) *)
| ConfigInit                          (* this.config.init() *)
| Connect (url : string)              (* new MongoClient(url).connect() *)
| Readdir (dir : string)              (* fs.readdirSync(dir) *)
| Import (path : string)              (* import(`file://${path}`) *)
| ModelInit (path : string)           (* model.init(this) *)
| ServiceInit (path : string)         (* service.init(this) is called *)
| ServiceReady (path : string)        (* ... and its promise is fulfilled *)
| RouterCall (path : string)          (* router(this) *)
| Register (what : string)            (* server.register(...) *)
| SchedulerCall (path : string)       (* scheduler(this) *)
| ProcessOn (signal : string)         (* process.on(signal, ...) *)
| PatchFind                           (* Patch.find({}).sort({_id:-1}).limit(1) *)
| PatchInsert (id : Z)                (* Patch.insertOne({_id: id, ...}) *)
| PatchRun (id : Z)                   (* patch(this, logger) is called *)
| PatchUpdate (id : Z)                (* Patch.updateOne({_id: id}, ...) *)
| CronStop                            (* every task: task.stop() *)
| CronStart                           (* every unscheduled task: task.start() *)
| SocketsDisconnect                   (* server.io.disconnectSockets(true) *)
| ServerClose                         (* server.close() *)
| IoClose                             (* server.io.close() *)
| MongoClose                          (* mongoClient.close() *)
| Ready                               (* server.ready(), server.swagger() *)
| Listen (host port : string).        (* server.listen({port, host}) *)

Record MongoConfig := {
  host : JsVal; port : JsVal; user : JsVal; password : JsVal; database : JsVal
}.

(** The settings the class reads from [this.config]. A section that is
    absent from the configuration is [None]. *)
Record Configuration := {
  mongo_section : option MongoConfig;   (* config.mongo *)
  mode : JsVal;                         (* config.mode *)
  log : option string;                  (* config.log, by its level *)
  server_host : JsVal;                  (* config.host *)
  server_port : JsVal;                  (* config.port *)
  environment : string
}.

Record Metadata := { package_name : string; version : string }.

(** What calling a default export (or its [init] hook) does. *)
Inductive Hook :=
| Returns                 (* returns, or its promise is fulfilled *)
| ThrowsNow (e : string)  (* throws before returning *)
| Rejects (e : string).   (* returns a promise that is rejected *)

(** The [default] of an imported module. *)
Inductive Export := NoDefault | Default (run : Hook).

(** A default export together with the file it was imported from. *)
Record Loaded := { origin : string; export : Export }.

Inductive Kind := File | Directory | Other.
Record Dirent := { entry_name : string; kind : Kind }.

Definition isFile (d : Dirent) : bool :=
  match kind d with File => true | _ => false end.
Definition isDirectory (d : Dirent) : bool :=
  match kind d with Directory => true | _ => false end.

Inductive Db := DbHandle (database : JsVal).
Inductive MongoClient := Client (url : string).
Inductive Logger := Pino (level : string).
(** The server, and whether the realtime plugin has decorated it with [io]. *)
Inductive Fastify := Server (io : bool).
Inductive Cron := NodeCron.

(** A patch script as [#patchData] builds it. *)
Record Script := { id : option Z; path : string }.

Inductive PatchStatus := pending | completed.

(** A document of the [Patch] collection; its [_id] is the key it is
    stored under. *)
Record PatchRecord := {
  startedAt : nat;
  patch_status : PatchStatus;
  completedAt : option nat
}.

(** The instance. [db] is not a field of the class: nothing in it declares
    or assigns one, so [this.db] reads [undefined] ([None]) on every
    instance the class builds; the slot holds what that property read
    gives, for an instance on which a subclass or a caller defined it. *)
Record App := {
  name : string;
  metadata : Metadata;
  config : Configuration;
  logger : option Logger;
  mongo : option Db;
  server : option Fastify;
  cron : option Cron;
  models : Obj Loaded;
  services : Obj Loaded;
  appLogger : option Logger;
  status : Status;
  mongoClient : option MongoClient;
  moduleStructure : Obj (Obj string);
  dirPath : string;
  db : option Db
}.

(** The operations on the [Patch] collection. *)
Inductive StoreOp := OpFind | OpInsert (id : Z) | OpUpdate (id : Z).

(** The answers of the collaborators during one call of [init()] or
    [destroy()].  The code of the imported files (model and service hooks,
    patch bodies, routers, schedulers) is known by its outcome only: it is
    taken not to change the fields of the instance nor the [Patch]
    collection.  A configuration load that fails is taken to leave the
    configuration object as it was. *)
Record Env := {
  config_init : Settled Configuration;    (* the settings config.init() loads *)
  readdirSync : string -> Settled (list Dirent);  (* the listing, in the order returned *)
  import_default : string -> Settled Export;      (* (await import(file)).default *)
  connect : string -> Settled unit;       (* the client for a URL, connecting *)
  store_fault : StoreOp -> option Err;    (* a driver failure other than a duplicate key *)
  register : string -> Settled unit;      (* server.register of a plugin or router *)
  ready : Settled unit;                   (* server.ready() *)
  listen : Settled unit;                  (* server.listen(...) *)
  server_close : Settled unit;            (* server.close() *)
  mongo_close : Settled unit              (* mongoClient.close() *)
}.

(** The instance, the shared [Patch] collection and the clock that
    [new Date()] reads. *)
Record State := {
  this : App;
  Patch : gmap Z PatchRecord;
  clock : nat
}.

(** *** Field updates *)

Definition with_status (v : Status) (a : App) : App :=
  {| name := name a; metadata := metadata a; config := config a;
     logger := logger a; mongo := mongo a; server := server a; cron := cron a;
     models := models a; services := services a; appLogger := appLogger a;
     status := v; mongoClient := mongoClient a;
     moduleStructure := moduleStructure a; dirPath := dirPath a; db := db a |}.

Definition with_config (v : Configuration) (a : App) : App :=
  {| name := name a; metadata := metadata a; config := v;
     logger := logger a; mongo := mongo a; server := server a; cron := cron a;
     models := models a; services := services a; appLogger := appLogger a;
     status := status a; mongoClient := mongoClient a;
     moduleStructure := moduleStructure a; dirPath := dirPath a; db := db a |}.

Definition with_loggers (l al : option Logger) (a : App) : App :=
  {| name := name a; metadata := metadata a; config := config a;
     logger := l; mongo := mongo a; server := server a; cron := cron a;
     models := models a; services := services a; appLogger := al;
     status := status a; mongoClient := mongoClient a;
     moduleStructure := moduleStructure a; dirPath := dirPath a; db := db a |}.

Definition with_mongo (v : option Db) (a : App) : App :=
  {| name := name a; metadata := metadata a; config := config a;
     logger := logger a; mongo := v; server := server a; cron := cron a;
     models := models a; services := services a; appLogger := appLogger a;
     status := status a; mongoClient := mongoClient a;
     moduleStructure := moduleStructure a; dirPath := dirPath a; db := db a |}.

Definition with_mongoClient (v : option MongoClient) (a : App) : App :=
  {| name := name a; metadata := metadata a; config := config a;
     logger := logger a; mongo := mongo a; server := server a; cron := cron a;
     models := models a; services := services a; appLogger := appLogger a;
     status := status a; mongoClient := v;
     moduleStructure := moduleStructure a; dirPath := dirPath a; db := db a |}.

Definition with_server (v : option Fastify) (a : App) : App :=
  {| name := name a; metadata := metadata a; config := config a;
     logger := logger a; mongo := mongo a; server := v; cron := cron a;
     models := models a; services := services a; appLogger := appLogger a;
     status := status a; mongoClient := mongoClient a;
     moduleStructure := moduleStructure a; dirPath := dirPath a; db := db a |}.

Definition with_cron (v : option Cron) (a : App) : App :=
  {| name := name a; metadata := metadata a; config := config a;
     logger := logger a; mongo := mongo a; server := server a; cron := v;
     models := models a; services := services a; appLogger := appLogger a;
     status := status a; mongoClient := mongoClient a;
     moduleStructure := moduleStructure a; dirPath := dirPath a; db := db a |}.

Definition with_models (v : Obj Loaded) (a : App) : App :=
  {| name := name a; metadata := metadata a; config := config a;
     logger := logger a; mongo := mongo a; server := server a; cron := cron a;
     models := v; services := services a; appLogger := appLogger a;
     status := status a; mongoClient := mongoClient a;
     moduleStructure := moduleStructure a; dirPath := dirPath a; db := db a |}.

Definition with_services (v : Obj Loaded) (a : App) : App :=
  {| name := name a; metadata := metadata a; config := config a;
     logger := logger a; mongo := mongo a; server := server a; cron := cron a;
     models := models a; services := v; appLogger := appLogger a;
     status := status a; mongoClient := mongoClient a;
     moduleStructure := moduleStructure a; dirPath := dirPath a; db := db a |}.

Definition with_moduleStructure (v : Obj (Obj string)) (a : App) : App :=
  {| name := name a; metadata := metadata a; config := config a;
     logger := logger a; mongo := mongo a; server := server a; cron := cron a;
     models := models a; services := services a; appLogger := appLogger a;
     status := status a; mongoClient := mongoClient a;
     moduleStructure := v; dirPath := dirPath a; db := db a |}.

(** *** Completions, state and events *)

Definition M (A : Type) : Type := State -> Settled A * State * list Event.

Definition ret {A} (a : A) : M A := fun s => (Fulfilled a, s, []).

Definition throw {A} (e : Err) : M A := fun s => (Rejected e, s, []).

Definition bind {A B} (m : M A) (f : A -> M B) : M B := fun s =>
  match m s with
  | (Fulfilled a, s1, t1) =>
      match f a s1 with (r, s2, t2) => (r, s2, t1 ++ t2) end
  | (Rejected e, s1, t1) => (Rejected e, s1, t1)
  end.

(** [try { m } catch (e) { handler e }] *)
Definition try_catch {A} (m : M A) (handler : Err -> M A) : M A := fun s =>
  match m s with
  | (Rejected e, s1, t1) =>
      match handler e s1 with (r, s2, t2) => (r, s2, t1 ++ t2) end
  | done => done
  end.

(** [await p] for a promise that settles to [r]; also a synchronous call
    that returns or throws. *)
Definition await {A} (r : Settled A) : M A := fun s => (r, s, []).

Definition emit (e : Event) : M unit := fun s => (Fulfilled tt, s, [e]).

Definition self : M App := fun s => (Fulfilled (this s), s, []).

Definition assign (f : App -> App) : M unit := fun s =>
  (Fulfilled tt, {| this := f (this s); Patch := Patch s; clock := clock s |}, []).

(** [new Date()] *)
Definition new_Date : M nat := fun s =>
  (Fulfilled (clock s),
   {| this := this s; Patch := Patch s; clock := S (clock s) |}, []).

Definition collection_Patch : M (gmap Z PatchRecord) := fun s =>
  (Fulfilled (Patch s), s, []).

Definition write_Patch (f : gmap Z PatchRecord -> gmap Z PatchRecord) : M unit :=
  fun s =>
    (Fulfilled tt, {| this := this s; Patch := f (Patch s); clock := clock s |}, []).

#[global] Instance M_ret : MRet M := @ret.
#[global] Instance M_bind : MBind M := fun A B f m => bind m f.

(** [for (const x of xs) { body x }]; the body says whether the loop goes
    on or the enclosing function returns. *)
Inductive Flow := Next | Return.

Fixpoint for_of {A} (xs : list A) (body : A -> M Flow) : M unit :=
  match xs with
  | [] => mret tt
  | x :: rest =>
      flow ← body x;
      match flow with
      | Next => for_of rest body
      | Return => mret tt
      end
  end.

(** [appLogger.<lvl>(line)]; [appLogger] is [null] until [#initLogger]. *)
Definition appLogger_call (lvl : Level) (line : string) : M unit :=
  a ← self;
  match appLogger a with
  | None => throw (TypeError "this.appLogger")
  | Some _ => emit (Log lvl line)
  end.

Definition describe (e : Err) : string :=
  match e with
  | TypeError what => "TypeError: " +:+ what
  | DuplicateKey n => "E11000 duplicate key: " +:+ pretty n
  | Thrown what => what
  end.

(** A call whose result is not awaited: a rejected promise is dropped. *)
Definition call (ev : Event) (x : Loaded) : M unit :=
  match export x with
  | NoDefault => throw (TypeError (origin x))
  | Default Returns => emit ev
  | Default (ThrowsNow e) => emit ev;; throw (Thrown e)
  | Default (Rejects e) => emit ev
  end.

(** [await x.init(this)], [await patch(this, logger)] *)
Definition call_await (ev : Event) (x : Loaded) : M unit :=
  match export x with
  | NoDefault => throw (TypeError (origin x))
  | Default Returns => emit ev
  | Default (ThrowsNow e) => emit ev;; throw (Thrown e)
  | Default (Rejects e) => emit ev;; throw (Thrown e)
  end.

(** [(await import(`file://${path}`)).default] *)
Definition import (E : Env) (path : string) : M Loaded :=
  emit (Import path);;
  x ← await (import_default E path);
  mret {| origin := path; export := x |}.

Definition readdir (E : Env) (dir : string) : M (list Dirent) :=
  emit (Readdir dir);; await (readdirSync E dir).

Definition js_files (items : list Dirent) : list Dirent :=
  List.filter (fun item => isFile item && endsWith (entry_name item) ".js") items.

(** *** The class *)

(** [new Application(dirPath)]: [pkg] is the parsed [package.json],
    [node_env] is [process.env.NODE_ENV || 'development']. Before
    [config.init()] the configuration object holds [environment] only. *)
Definition new (dirPath : string) (pkg : Metadata) (node_env : string) : App :=
  {| name := package_name pkg; metadata := pkg;
     config := {| mongo_section := None; mode := JUndefined; log := None;
                  server_host := JUndefined; server_port := JUndefined;
                  environment := node_env |};
     logger := None; mongo := None; server := None; cron := None;
     models := []; services := []; appLogger := None;
     status := created; mongoClient := None;
     moduleStructure := []; dirPath := dirPath; db := None |}.

Definition initDependencies : M unit := mret tt.

Definition destroyDependencies : M unit := mret tt.

Definition initLogger : M unit :=
  a ← self;
  match log (config a) with
  | None => throw (TypeError "this.config.log.level")
  | Some level =>
      assign (with_loggers (Some (Pino level)) (Some (Pino level)))
  end.

(** `mongodb://${user}:${password}@${host}:${port}/${database}` *)
Definition mongo_url (c : MongoConfig) : string :=
  "mongodb://" +:+ to_string (user c) +:+ ":" +:+ to_string (password c)
    +:+ "@" +:+ to_string (host c) +:+ ":" +:+ to_string (port c)
    +:+ "/" +:+ to_string (database c).

(** The address as the log line shows it. *)
Definition mongo_url_logged (c : MongoConfig) : string :=
  "mongodb://" +:+ to_string (user c) +:+ ":***@" +:+ to_string (host c)
    +:+ ":" +:+ to_string (port c) +:+ "/" +:+ to_string (database c).

Definition initMongo (E : Env) : M unit :=
  a ← self;
  match mongo_section (config a) with
  | None => throw (TypeError "this.config.mongo")
  | Some c =>
      let url := mongo_url c in
      assign (with_mongoClient (Some (Client url)));;
      emit (Connect url);;
      await (connect E url);;
      assign (with_mongo (Some (DbHandle (database c))));;
      appLogger_call always
        ("База данных подключена по адресу " +:+ mongo_url_logged c)
  end.

Definition destroy (E : Env) : M unit :=
  a ← self;
  if status_eqb (status a) created || status_eqb (status a) stopped then mret tt
  else
    match cron a with
    | Some _ => emit CronStop
    | None => mret tt
    end;;
    match server a with
    | Some (Server true) =>
        emit SocketsDisconnect;;
        emit ServerClose;;
        await (server_close E);;
        emit IoClose
    | Some (Server false) => throw (TypeError "this.server.io")
    | None => mret tt
    end;;
    match mongoClient a with
    | Some _ => emit MongoClose;; await (mongo_close E)
    | None => mret tt
    end;;
    destroyDependencies;;
    appLogger_call always "Приложение остановлено".

(** First loop of [#loadModels]: [this.models[name] = model]. *)
Definition import_model (E : Env) (dir fileName : string) : M Flow :=
  let filePath := path_resolve dir fileName in
  let name := path_parse_name fileName in
  model ← import E filePath;
  assign (fun a => with_models (obj_set name model (models a)) a);;
  mret Next.

(** Second loop of [#loadModels]: [model.init(this)], not awaited. *)
Definition init_model (model : Loaded) : M Flow :=
  call (ModelInit (origin model)) model;;
  mret Next.

Definition loadModels (E : Env) : M unit :=
  a ← self;
  let dir := path_resolve (dirPath a) "api/models" in
  items ← readdir E dir;
  let fileNames := entry_name <$> js_files items in
  for_of fileNames (import_model E dir);;
  a ← self;
  for_of (obj_values (models a)) init_model.

(** The body of the [fileNames.forEach] of [#loadServices]. *)
Definition module_files (modulePath : string) (fileNames : list string) : Obj string :=
  foldl (fun files fileName =>
           obj_set (path_parse_name fileName) (path_resolve modulePath fileName) files)
        [] fileNames.

Fixpoint scan_modules (E : Env) (dir : string) (dirNames : list string)
    (modules : Obj (Obj string)) : M (Obj (Obj string)) :=
  match dirNames with
  | [] => mret modules
  | dirName :: rest =>
      let modules := obj_set dirName [] modules in
      let modulePath := path_resolve dir dirName in
      files ← readdir E modulePath;
      let fileNames := entry_name <$> js_files files in
      scan_modules E dir rest
        (obj_set dirName (module_files modulePath fileNames) modules)
  end.

(** Second loop of [#loadServices]: [this.services[moduleName] = service]
    for a module that has a [service] file. *)
Definition import_service (E : Env) (entry : string * Obj string) : M Flow :=
  match obj_get "service" entry.2 with
  | Some file =>
      service ← import E file;
      assign (fun a => with_services (obj_set entry.1 service (services a)) a);;
      mret Next
  | None => mret Next
  end.

(** Third loop of [#loadServices]: [await service.init(this)], then the
    debug line. *)
Definition init_service (entry : string * Loaded) : M Flow :=
  call_await (ServiceInit (origin entry.2)) entry.2;;
  emit (ServiceReady (origin entry.2));;
  appLogger_call debug ("Сервис " +:+ entry.1 +:+ " готов");;
  mret Next.

Definition loadServices (E : Env) : M unit :=
  a ← self;
  let dir := path_resolve (dirPath a) "api/modules" in
  dirs ← readdir E dir;
  let dirNames := entry_name <$> List.filter isDirectory dirs in
  modules ← scan_modules E dir dirNames [];
  assign (with_moduleStructure modules);;
  a ← self;
  for_of (obj_entries (moduleStructure a)) (import_service E);;
  a ← self;
  for_of (obj_entries (services a)) init_service.

Definition loadRouters (E : Env) : M unit :=
  a ← self;
  for_of (obj_entries (moduleStructure a))
    (fun entry =>
       match obj_get "router" entry.2 with
       | Some file =>
           router ← import E file;
           call (RouterCall file) router;;
           emit (Register file);;
           await (register E file);;
           appLogger_call debug ("Роутер " +:+ entry.1 +:+ " готов");;
           mret Next
       | None => mret Next
       end).

(** **** The migration coordinator *)

(** [this.db.collection('Patch')] *)
Definition db_collection : M unit :=
  a ← self;
  match db a with
  | None => throw (TypeError "this.db.collection")
  | Some _ => mret tt
  end.

Definition driver (E : Env) (op : StoreOp) : M unit :=
  match store_fault E op with
  | Some e => throw e
  | None => mret tt
  end.

(** The greatest [_id] of the collection, as
    [find({}).sort({ _id: -1 }).limit(1)] selects it. *)
Definition latest_id (c : gmap Z PatchRecord) : option Z :=
  foldr (fun k acc => Some (match acc with Some m => Z.max k m | None => k end))
        None (map_to_list c).*1.

Definition find_latest (E : Env) : M (option Z) :=
  db_collection;;
  emit PatchFind;;
  driver E OpFind;;
  c ← collection_Patch;
  mret (latest_id c).

(** [insertOne({ _id, startedAt: new Date(), status: 'pending' })]; the
    [_id] index is unique. *)
Definition insertOne (E : Env) (n : Z) : M unit :=
  db_collection;;
  now ← new_Date;
  emit (PatchInsert n);;
  driver E (OpInsert n);;
  c ← collection_Patch;
  match c !! n with
  | Some _ => throw (DuplicateKey n)
  | None =>
      write_Patch
        <[n := {| startedAt := now; patch_status := pending; completedAt := None |}]>
  end.

(** [updateOne({ _id }, { $set: { completedAt: new Date(), status: 'completed' } })] *)
Definition updateOne (E : Env) (n : Z) : M unit :=
  db_collection;;
  now ← new_Date;
  emit (PatchUpdate n);;
  driver E (OpUpdate n);;
  write_Patch
    (alter (fun r => {| startedAt := startedAt r; patch_status := completed;
                        completedAt := Some now |}) n).

(** A patch script object has the fields [id] and [path] only. *)
Definition script_version (s : Script) : JsVal := JUndefined.

(** [(a, b) => (a.version < b.version ? -1 : 1)] *)
Definition by_version (a b : Script) : Z :=
  if js_lt (script_version a) (script_version b) then (-1)%Z else 1%Z.

Definition patch_script (dir : string) (item : Dirent) : Script :=
  {| id := parseInt (path_parse_name (entry_name item));
     path := path_resolve dir (entry_name item) |}.

(** [this.logger.child({ scope: 'patch', script: script.id })] *)
Definition patch_logger : M unit :=
  a ← self;
  match logger a with
  | None => throw (TypeError "this.logger.child")
  | Some _ => mret tt
  end.

(** The body of [for (const script of patchScripts)]. *)
Definition apply_patch (E : Env) (script : Script) : M Flow :=
  match id script with
  | None => mret Next      (* not met: the filter drops a NaN id *)
  | Some n =>
      patch ← import E (path script);
      claimed ← try_catch (insertOne E n;; mret true) (fun _ => mret false);
      if claimed : bool then
        try_catch
          (patch_logger;;
           call_await (PatchRun n) patch;;
           updateOne E n)
          (fun e => appLogger_call error (describe e);; destroy E);;
        mret Next
      else mret Return
  end.

Definition patchData (E : Env) : M unit :=
  a ← self;
  let dir := path_resolve (dirPath a) "api/patches" in
  files ← readdir E dir;
  let files := js_files files in
  let patchScripts := patch_script dir <$> files in
  let patchScripts := Array_sort by_version patchScripts in
  if (List.length patchScripts =? 0)%nat then mret tt
  else
    latestPatch ← find_latest E;
    let maxId := match latestPatch with Some n => n | None => 0%Z end in
    let patchScripts := List.filter (fun script => num_gt (id script) maxId) patchScripts in
    for_of patchScripts (apply_patch E).

(** **** Modes *)

Definition server_register (E : Env) (plugin : string) : M unit :=
  emit (Register plugin);; await (register E plugin).

Definition runWebServer (E : Env) : M unit :=
  assign (with_server (Some (Server false)));;
  server_register E "cors";;
  server_register E "static";;
  server_register E "swagger";;
  server_register E "socketIoApi";;
  assign (with_server (Some (Server true)));;
  loadRouters E;;
  emit Ready;;
  await (ready E);;
  a ← self;
  emit (Listen (to_string (server_host (config a))) (to_string (server_port (config a))));;
  await (listen E);;
  appLogger_call always
    ("Веб-сервер запущен на " +:+ to_string (server_host (config a)) +:+ ":"
       +:+ to_string (server_port (config a))).

Definition runScheduledTasks (E : Env) : M unit :=
  assign (with_cron (Some NodeCron));;
  a ← self;
  for_of (obj_entries (moduleStructure a))
    (fun entry =>
       match obj_get "scheduler" entry.2 with
       | Some file =>
           scheduler ← import E file;
           call (SchedulerCall file) scheduler;;
           appLogger_call debug
             ("Периодические задачи модуля " +:+ entry.1 +:+ " запущены");;
           mret Next
       | None => mret Next
       end);;
  emit CronStart;;
  appLogger_call always "Периодические задачи запланированы".

(** **** init *)

(** The first stages of [init()]: configuration, loggers, database
    connection, dependency hook. *)
Definition configure (E : Env) : M unit :=
  emit ConfigInit;;
  c ← await (config_init E);
  assign (with_config c);;
  initLogger;;
  a ← self;
  match mongo_section (config a) with
  | Some _ => initMongo E
  | None => mret tt
  end;;
  initDependencies.

(** The stages of [init()] that precede the migration step. *)
Definition bootstrap (E : Env) : M unit :=
  configure E;;
  loadModels E;;
  loadServices E;;
  emit (ProcessOn "SIGINT").

(** [switch (this.config.mode)]: [case] compares with [===]. *)
Definition dispatch (E : Env) : M unit :=
  a ← self;
  match mode (config a) with
  | JStr m =>
      if String.eqb m "internal" then mret tt
      else if String.eqb m "cron" then runScheduledTasks E
      else runWebServer E
  | _ => runWebServer E
  end.

(** The mode switch and what follows it, up to [this.status = 'active']. *)
Definition activate (E : Env) : M unit :=
  dispatch E;;
  a ← self;
  appLogger_call always
    ("Приложение " +:+ name a +:+ " запущено в режиме " +:+ to_string (mode (config a))
       +:+ " в окружении " +:+ environment (config a));;
  assign (with_status active).

Definition already_running : string := "Попытка запустить уже запущенное приложение".

Definition init (E : Env) : M unit :=
  a ← self;
  if negb (status_eqb (status a) created) && negb (status_eqb (status a) stopped)
  then appLogger_call error already_running
  else
    assign (with_status launching);;
    bootstrap E;;
    patchData E;;
    activate E.

(** *** Callers and observations *)

(** A caller holding the instance calls its two public methods in any
    order; a call that throws leaves the instance with the caller. *)
Inductive Call := call_init (E : Env) | call_destroy (E : Env).

Definition run_call (c : Call) : M unit :=
  match c with
  | call_init E => init E
  | call_destroy E => destroy E
  end.

Fixpoint run_calls (cs : list Call) (s : State) : State * list Event :=
  match cs with
  | [] => (s, [])
  | c :: rest =>
      match run_call c s with
      | (_, s1, t1) =>
          match run_calls rest s1 with
          | (s2, t2) => (s2, t1 ++ t2)
          end
      end
  end.

Definition is_patch_event (e : Event) : bool :=
  match e with
  | PatchFind | PatchInsert _ | PatchRun _ | PatchUpdate _ => true
  | _ => false
  end.

Definition is_model_event (e : Event) : bool :=
  match e with ModelInit _ => true | _ => false end.

Definition is_service_event (e : Event) : bool :=
  match e with ServiceInit _ | ServiceReady _ => true | _ => false end.

(** The model files whose [init] hook was called, in call order. *)
Definition model_calls (t : list Event) : list string :=
  omap (fun e => match e with ModelInit p => Some p | _ => None end) t.

(** The hook calls and completions of the service loader, in order. *)
Definition service_events (t : list Event) : list Event :=
  List.filter is_service_event t.

(** The patch bodies that were run, in order. *)
Definition patch_runs (t : list Event) : list Z :=
  omap (fun e => match e with PatchRun n => Some n | _ => None end) t.

(** The lines handed to the application logger, in order. *)
Definition log_lines (t : list Event) : list string :=
  omap (fun e => match e with Log _ line => Some line | _ => None end) t.

(** [haystack.includes(needle)] *)
Fixpoint includes (haystack needle : string) : bool :=
  String.prefix needle haystack
  || match haystack with
     | EmptyString => false
     | String _ rest => includes rest needle
     end.

(** The [service] files of a module structure, in its enumeration order. *)
Definition service_files (modules : Obj (Obj string)) : list string :=
  omap (fun entry => obj_get "service" entry.2) (obj_entries modules).

(** The model files the loader discovers in a directory listing. *)
Definition model_files (items : list Dirent) : list string :=
  entry_name <$> js_files items.

(** A models directory is well laid out when no two files give the same
    model name and none is named after the prototype accessor. *)
Definition valid_models (items : list Dirent) : Prop :=
  NoDup (path_parse_name <$> model_files items)
  ∧ "__proto__" ∉ (path_parse_name <$> model_files items).

(** *** The specification's reading of a duplicate claim

    What the specification says of a batch whose first script meets a
    duplicate key: the loop completes without error, the body of that
    script is not run, and every later script of the batch with a larger
    id is still attempted. *)
Definition skips_and_moves_on (E : Env) (batch : list Script) (s : State) : Prop :=
  match batch with
  | [] => True
  | script :: rest =>
      ∀ n, id script = Some n → is_Some (Patch s !! n) →
        ∃ s' t,
          for_of batch (apply_patch E) s = (Fulfilled tt, s', t)
          ∧ (n ∉ patch_runs t)
          ∧ (∀ later m, later ∈ rest → id later = Some m → (n < m)%Z →
               PatchInsert m ∈ t)
  end.

(** *** Credentials and the log

    What the specification says of a run that connected with the
    credentials of [c]: neither the user name nor the password occurs in a
    logged line. *)
Definition credentials_never_logged (c : MongoConfig) (t : list Event) : Prop :=
  ∀ line, line ∈ log_lines t →
    includes line (to_string (user c)) = false
    ∧ includes line (to_string (password c)) = false.

Definition settled_map {A B} (f : A -> B) (r : Settled A) : Settled B :=
  match r with
  | Fulfilled a => Fulfilled (f a)
  | Rejected e => Rejected e
  end.

Definition mongo_with_password (p : JsVal) (m : MongoConfig) : MongoConfig :=
  {| host := host m; port := port m; user := user m; password := p;
     database := database m |}.

Definition with_password (p : JsVal) (c : Configuration) : Configuration :=
  {| mongo_section := mongo_with_password p <$> mongo_section c;
     mode := mode c; log := log c; server_host := server_host c;
     server_port := server_port c; environment := environment c |}.

(** The same collaborators, with [p] as the configured password. *)
Definition rekeyed (p : JsVal) (E : Env) : Env :=
  {| config_init := settled_map (with_password p) (config_init E);
     readdirSync := readdirSync E;
     import_default := import_default E;
     connect := connect E;
     store_fault := store_fault E;
     register := register E;
     ready := ready E;
     listen := listen E;
     server_close := server_close E;
     mongo_close := mongo_close E |}.

(** An instance with the password and the connection URL blanked: what
    is left is what may be shown. *)
Definition blind_config (c : Configuration) : Configuration :=
  with_password JUndefined c.

Definition blind_app (a : App) : App :=
  {| name := name a; metadata := metadata a; config := blind_config (config a);
     logger := logger a; mongo := mongo a; server := server a; cron := cron a;
     models := models a; services := services a; appLogger := appLogger a;
     status := status a;
     mongoClient := (λ _, Client "") <$> mongoClient a;
     moduleStructure := moduleStructure a; dirPath := dirPath a; db := db a |}.

Definition blind (s : State) : State :=
  {| this := blind_app (this s); Patch := Patch s; clock := clock s |}.

(** Two completions that agree, up to [RA] on their values. *)
Definition agree {A} (RA : A -> A -> Prop) (r1 r2 : Settled A) : Prop :=
  match r1, r2 with
  | Fulfilled a1, Fulfilled a2 => RA a1 a2
  | Rejected e1, Rejected e2 => e1 = e2
  | _, _ => False
  end.

(** [m1] and [m2], run from states that differ in the password at most,
    complete alike, log the same lines and leave states that differ in
    the password at most. *)
Definition twins {A} (RA : A -> A -> Prop) (m1 m2 : M A) : Prop :=
  ∀ s1 s2, blind s1 = blind s2 →
    agree RA (m1 s1).1.1 (m2 s2).1.1
    ∧ blind (m1 s1).1.2 = blind (m2 s2).1.2
    ∧ log_lines (m1 s1).2 = log_lines (m2 s2).2.

(** *** Frames

    [respects R Q m]: whatever state [m] starts in and however it
    completes, the state it leaves is related to the initial one by [R] and
    every event it produced satisfies [Q]. *)
Definition respects {A} (R : State -> State -> Prop) (Q : Event -> Prop)
    (m : M A) : Prop :=
  ∀ s, R s (m s).1.2 ∧ Forall Q (m s).2.

(** [R] relates the initial state to the one [m] leaves when it throws. *)
Definition on_throw {A} (R : State -> State -> Prop) (m : M A) : Prop :=
  ∀ s e s' t, m s = (Rejected e, s', t) → R s s'.

(** The states agree on an observation. *)
Definition same {X} (obs : State -> X) (s s' : State) : Prop := obs s' = obs s.

Definition the_status (s : State) : Status := status (this s).

(** What the migration coordinator depends on and acts upon: the [db]
    property, the application directory and the [Patch] collection. *)
Definition the_store (s : State) : option Db * string * gmap Z PatchRecord :=
  (db (this s), dirPath (this s), Patch s).

(** What holds of an instance built by the class, whatever calls of
    [init()] and [destroy()] it has received: it has no [db], it is never
    [stopped], and while it is [created] it holds no model and no
    service. *)
Definition class_instance (s : State) : Prop :=
  db (this s) = None
  ∧ status (this s) ≠ stopped
  ∧ (status (this s) = created → models (this s) = [] ∧ services (this s) = []).

(** The state after [this.status = 'launching']. *)
Definition launch (s : State) : State :=
  {| this := with_status launching (this s); Patch := Patch s; clock := clock s |}.

Definition patches_dir (s : State) : string :=
  path_resolve (dirPath (this s)) "api/patches".

Definition models_dir (s : State) : string :=
  path_resolve (dirPath (this s)) "api/models".

(** The dictionaries the loaders fill, and the directory they scan. *)
Definition the_loaded (s : State) : Obj Loaded * Obj Loaded * string :=
  (models (this s), services (this s), dirPath (this s)).

Definition the_modules (s : State) : Obj (Obj string) := moduleStructure (this s).

(** An event of neither loader's hooks. *)
Definition no_hook (e : Event) : Prop :=
  is_model_event e = false ∧ is_service_event e = false.

(** What the import of [file] stores: its default export, or nothing when
    the import fails. *)
Definition imported (E : Env) (file : string) : Loaded :=
  {| origin := file;
     export := match import_default E file with
               | Fulfilled x => x
               | Rejected _ => NoDefault
               end |}.

(** The binding the first loop of [#loadModels] makes for a file. *)
Definition model_binding (E : Env) (dir fileName : string) : string * Loaded :=
  (path_parse_name fileName, imported E (path_resolve dir fileName)).

(** The binding the second loop of [#loadServices] makes for a module, if
    the module has a service. *)
Definition service_binding (E : Env) (entry : string * Obj string)
    : option (string * Loaded) :=
  (λ file, (entry.1, imported E file)) <$> obj_get "service" entry.2.

(** The hook call of a service and its completion. *)
Definition awaited_init (file : string) : list Event :=
  [ServiceInit file; ServiceReady file].

(** The keys of a dictionary as the class can build it: distinct own
    keys, none of them the prototype accessor. *)
Definition well_keyed {V} (o : Obj V) : Prop :=
  NoDup o.*1 ∧ "__proto__" ∉ o.*1.

(** The layout [Object.entries] returns: array indices in ascending
    order, then the other keys. *)
Definition canonical {V} (l : list (string * V)) : Prop :=
  ∃ indices named,
    l = indices ++ named
    ∧ Forall (λ e, is_index e = true) indices
    ∧ StronglySorted (λ x y, (index_of x ≤ index_of y)%Z) indices
    ∧ Forall (λ e, is_index e = false) named.

End Application.

(** ** The repository's test deployment

    The settings of [docker-compose.test.yml] and of the [test_app]
    fixture that [test.js] starts: one model ([Product]), the database
    section present, log level [error].  Modules, patch scripts and the
    behaviour of the imported files are parameters, so that the same
    deployment serves every scenario. *)

Module Sample.
Import Application.

Definition mongo_as (login : string) : MongoConfig :=
  {| host := JStr "mongo"; port := JNum 27017; user := JStr login;
     password := JStr "qwerty"; database := JStr "test" |}.

Definition settings (run_mode login : string) : Configuration :=
  {| mongo_section := Some (mongo_as login); mode := JStr run_mode;
     log := Some "error"; server_host := JStr "localhost";
     server_port := JNum 3000; environment := "test" |}.

Definition file (n : string) : Dirent := {| entry_name := n; kind := File |}.
Definition folder (n : string) : Dirent := {| entry_name := n; kind := Directory |}.

(** Three modules: [catalog] has a service and a router, [7] a service,
    [billing] a scheduler and a service. *)
Definition listing (patches : list string) (dir : string) : Settled (list Dirent) :=
  if String.eqb dir "/app/api/models" then
    Fulfilled [file "Product.js"; file "README.md"]
  else if String.eqb dir "/app/api/modules" then
    Fulfilled [folder "catalog"; folder "7"; folder "billing"; file "notes.txt"]
  else if String.eqb dir "/app/api/modules/catalog" then
    Fulfilled [file "service.js"; file "router.js"]
  else if String.eqb dir "/app/api/modules/7" then
    Fulfilled [file "service.js"]
  else if String.eqb dir "/app/api/modules/billing" then
    Fulfilled [file "scheduler.js"; file "service.js"]
  else if String.eqb dir "/app/api/patches" then
    Fulfilled (file <$> patches)
  else Rejected (Thrown "ENOENT").

(** Every collaborator other than the configuration loader and the
    imported files answers normally. *)
Definition deployment (loaded : Settled Configuration) (patches : list string)
    (exports : string -> Export) : Env :=
  {| config_init := loaded;
     readdirSync := listing patches;
     import_default := fun file => Fulfilled (exports file);
     connect := fun _ => Fulfilled tt;
     store_fault := fun _ => None;
     register := fun _ => Fulfilled tt;
     ready := Fulfilled tt;
     listen := Fulfilled tt;
     server_close := Fulfilled tt;
     mongo_close := Fulfilled tt |}.

Definition well_behaved (file : string) : Export := Default Returns.

(** Patch script [2.js] fails. *)
Definition second_patch_fails (file : string) : Export :=
  if String.eqb file "/app/api/patches/2.js"
  then Default (Rejects "patch 2 failed")
  else Default Returns.

(** The deployment with patch scripts 2 and 3, the first of which fails. *)
Definition failing_batch : Env :=
  deployment (Fulfilled (settings "internal" "test")) ["2.js"; "3.js"]
    second_patch_fails.

(** The deployment in a run mode, no patch scripts unless given. *)
Definition running (run_mode : string) (patches : list string) : Env :=
  deployment (Fulfilled (settings run_mode "test")) patches well_behaved.

(** The same with a configuration loader that fails. *)
Definition broken_configuration : Env :=
  deployment (Rejected (Thrown "config")) [] well_behaved.

Definition applied (at_ : nat) : PatchRecord :=
  {| startedAt := at_; patch_status := completed; completedAt := Some at_ |}.

Definition claimed (at_ : nat) : PatchRecord :=
  {| startedAt := at_; patch_status := pending; completedAt := None |}.

(** [new Application('/app')] facing a [Patch] collection. *)
Definition fresh (records : gmap Z PatchRecord) : State :=
  {| this := new "/app" {| package_name := "test"; version := "1.0.0" |} "test";
     Patch := records; clock := 10 |}.

(** An instance on which [db] has been defined (by a subclass or by its
    creator) as a handle of the database: the only instances on which
    the migration loop can be reached. *)
Definition bind_db (a : App) : App :=
  {| name := name a; metadata := metadata a; config := config a;
     logger := logger a; mongo := mongo a; server := server a; cron := cron a;
     models := models a; services := services a; appLogger := appLogger a;
     status := status a; mongoClient := mongoClient a;
     moduleStructure := moduleStructure a; dirPath := dirPath a;
     db := Some (DbHandle (JStr "test")) |}.

Definition fresh_with_db (records : gmap Z PatchRecord) : State :=
  {| this := bind_db (this (fresh records)); Patch := records; clock := 10 |}.

(** Such an instance after the stages that precede the migration step,
    at the moment another instance has just claimed patch 2. *)
Definition racing : State :=
  match (assign (with_status launching);;
         bootstrap (running "internal" ["2.js"; "3.js"])) (fresh_with_db ∅) with
  | (_, s, _) =>
      {| this := this s; Patch := {[ 2%Z := claimed 9 ]}; clock := clock s |}
  end.

Definition scripts (names : list string) : list Script :=
  patch_script "/app/api/patches" <$> (file <$> names).

(** The deployment with one patch script, and the instance when the
    stages before the migration step have completed. *)
Definition one_patch : Env := running "internal" ["1.js"].

Definition booted : State := (bootstrap one_patch (launch (fresh ∅))).1.2.

Definition boot_trace : list Event := (bootstrap one_patch (launch (fresh ∅))).2.

(** The web deployment once started, and what starting it did. *)
Definition started : State := (init (running "web" []) (fresh ∅)).1.2.

Definition start_trace : list Event := (init (running "web" []) (fresh ∅)).2.

(** The deployment connecting as the root user of the test database. *)
Definition as_root : Env :=
  deployment (Fulfilled (settings "internal" "root")) [] well_behaved.

Definition root_trace : list Event := (init as_root (fresh ∅)).2.

(** The instance left behind by an [init()] whose configuration load
    failed. *)
Definition stuck : State := (init broken_configuration (fresh ∅)).1.2.

(** What one [destroy()] of a running web instance does. *)
Definition teardown : list Event :=
  [SocketsDisconnect; ServerClose; IoClose; MongoClose;
   Log always "Приложение остановлено"].

End Sample.

(** ** Further observations on a run *)

Module Observations.
Import Application.

Definition is_connect (e : Event) : bool :=
  match e with Connect _ => true | _ => false end.

(** What only the web mode does. *)
Definition is_web_event (e : Event) : bool :=
  match e with
  | Register _ | RouterCall _ | Ready | Listen _ _ => true
  | _ => false
  end.

(** What only the cron mode does. *)
Definition is_cron_event (e : Event) : bool :=
  match e with SchedulerCall _ | CronStart => true | _ => false end.

(** What [#initMongo] sets. *)
Definition the_database (s : State) : option MongoClient * option Db :=
  (mongoClient (this s), mongo (this s)).

Definition the_server (s : State) : option Fastify := server (this s).

Definition the_cron (s : State) : option Cron := cron (this s).

(** The plugins [#runWebServer] registers before the routers; the last of
    them decorates the server with [io]. *)
Definition plugins : list string := ["cors"; "static"; "swagger"; "socketIoApi"].

(** The ids [insertOne] was attempted with, in order. *)
Definition patch_claims (t : list Event) : list Z :=
  omap (fun e => match e with PatchInsert n => Some n | _ => None end) t.

(** No record of the collection is ever removed. *)
Definition keeps_records (s s' : State) : Prop :=
  ∀ n, is_Some (Patch s !! n) → is_Some (Patch s' !! n).

(** The state after [this.config = c] on the launching instance. *)
Definition configured (c : Configuration) (s : State) : State :=
  {| this := with_config c (this (launch s)); Patch := Patch s; clock := clock s |}.

(** [destroy()] stops the scheduler first when there is one. *)
Definition cron_stop (s : State) : list Event :=
  match cron (this s) with Some _ => [CronStop] | None => [] end.

(** The state [#runWebServer] leaves when a plugin fails to register. *)
Definition half_started (s : State) : State :=
  {| this := with_server (Some (Server false)) (this s);
     Patch := Patch s; clock := clock s |}.

(** A hook that returns to its caller: with a value, or with a promise
    that is rejected later. *)
Definition hook_returns (x : Loaded) : bool :=
  match export x with
  | Default Returns | Default (Rejects _) => true
  | _ => false
  end.

(** A hook that fails with [e], at once or through its promise. *)
Definition hook_fails (e : string) (x : Loaded) : Prop :=
  export x = Default (ThrowsNow e) ∨ export x = Default (Rejects e).

(** The ids of the scripts of a listing that [#patchData] keeps after its
    filter, in the order it goes through them. *)
Definition due_ids (records : gmap Z PatchRecord) (dir : string)
    (items : list Dirent) : list Z :=
  omap id
    (List.filter
       (fun script => num_gt (id script)
                        (match latest_id records with Some n => n | None => 0%Z end))
       (patch_script dir <$> js_files items)).

(** What the web server does before it listens. *)
Definition is_setup (e : Event) : bool :=
  match e with
  | Register _ | RouterCall _ | Import _ | Ready => true
  | _ => false
  end.

Definition is_listen (e : Event) : bool :=
  match e with Listen _ _ => true | _ => false end.

(** What the loading stages, the migration step and the mode switch each
    never do. *)
Definition loads_only (e : Event) : Prop :=
  is_patch_event e = false ∧ is_web_event e = false ∧ is_cron_event e = false.

Definition migrates_only (e : Event) : Prop :=
  is_model_event e = false ∧ is_service_event e = false
  ∧ is_web_event e = false ∧ is_cron_event e = false.

Definition starts_only (e : Event) : Prop :=
  is_model_event e = false ∧ is_service_event e = false ∧ is_patch_event e = false.

(** A trace in two phases: events of the first kind, then events of the
    second. *)
Definition in_two_phases (Q1 Q2 : Event -> Prop) (t : list Event) : Prop :=
  ∃ t1 t2, t = t1 ++ t2 ∧ Forall Q1 t1 ∧ Forall Q2 t2.

(** The state [#initMongo] leaves when the connection fails: the client
    is on the instance, the database handle is not. *)
Definition unconnected (c : Configuration) (level url : string) (s : State) : State :=
  {| this := with_mongoClient (Some (Client url))
               (with_loggers (Some (Pino level)) (Some (Pino level))
                  (this (configured c s)));
     Patch := Patch s; clock := clock s |}.

End Observations.

(** ** Further scenarios of the test deployment *)

Module Scenario.
Import Application.

(** The web deployment whose [server.close()] fails. *)
Definition closing_fails : Env :=
  {| config_init := config_init (Sample.running "web" []);
     readdirSync := readdirSync (Sample.running "web" []);
     import_default := import_default (Sample.running "web" []);
     connect := connect (Sample.running "web" []);
     store_fault := store_fault (Sample.running "web" []);
     register := register (Sample.running "web" []);
     ready := ready (Sample.running "web" []);
     listen := listen (Sample.running "web" []);
     server_close := Rejected (Thrown "close");
     mongo_close := mongo_close (Sample.running "web" []) |}.

(** The web deployment whose [swagger] plugin fails to register. *)
Definition swagger_fails : Env :=
  {| config_init := config_init (Sample.running "web" []);
     readdirSync := readdirSync (Sample.running "web" []);
     import_default := import_default (Sample.running "web" []);
     connect := connect (Sample.running "web" []);
     store_fault := store_fault (Sample.running "web" []);
     register := fun what => if String.eqb what "swagger"
                             then Rejected (Thrown "swagger") else Fulfilled tt;
     ready := ready (Sample.running "web" []);
     listen := listen (Sample.running "web" []);
     server_close := server_close (Sample.running "web" []);
     mongo_close := mongo_close (Sample.running "web" []) |}.

(** The instance of a deployment in [run_mode] when the stages before the
    migration step have completed. *)
Definition before_switch (run_mode : string) : State :=
  (bootstrap (Sample.running run_mode []) (launch (Sample.fresh ∅))).1.2.

(** The settings of the test deployment without its database section. *)
Definition without_database : Configuration :=
  {| mongo_section := None; mode := JStr "internal"; log := Some "error";
     server_host := JStr "localhost"; server_port := JNum 3000;
     environment := "test" |}.

(** The same without the [log] section. *)
Definition without_log : Configuration :=
  {| mongo_section := Some (Sample.mongo_as "test"); mode := JStr "internal";
     log := None; server_host := JStr "localhost"; server_port := JNum 3000;
     environment := "test" |}.

(** An instance with a [db], scripts [10.js] and [9.js] to apply and patch
    1 on record, when the stages before the migration step have
    completed. *)
Definition migrating : State :=
  (bootstrap (Sample.running "internal" ["10.js"; "9.js"])
     (launch (Sample.fresh_with_db {[ 1%Z := Sample.applied 0 ]}))).1.2.

(** Three services, the second of which fails to initialise. *)
Definition three_services : list (string * Loaded) :=
  [("catalog", {| origin := "/app/api/modules/catalog/service.js";
                  export := Default Returns |});
   ("7", {| origin := "/app/api/modules/7/service.js";
            export := Default (Rejects "no connection") |});
   ("billing", {| origin := "/app/api/modules/billing/service.js";
                  export := Default Returns |})].

(** Two models, the first with an [init] whose promise is rejected. *)
Definition two_models : list Loaded :=
  [{| origin := "/app/api/models/Product.js"; export := Default (Rejects "no index") |};
   {| origin := "/app/api/models/User.js"; export := Default Returns |}].

(** The test deployment with a database that refuses the connection. *)
Definition database_down : Env :=
  {| config_init := config_init (Sample.running "web" []);
     readdirSync := readdirSync (Sample.running "web" []);
     import_default := import_default (Sample.running "web" []);
     connect := fun _ => Rejected (Thrown "ECONNREFUSED");
     store_fault := store_fault (Sample.running "web" []);
     register := register (Sample.running "web" []);
     ready := ready (Sample.running "web" []);
     listen := listen (Sample.running "web" []);
     server_close := server_close (Sample.running "web" []);
     mongo_close := mongo_close (Sample.running "web" []) |}.

End Scenario.

(** ** The other methods of SimpleMongoModel, and the Product model *)

Module Documents.
Import SimpleMongoModel.

(** A document as the driver returns it: its own properties in
    enumeration order. *)
Definition Doc := list (string * JsVal).

(** [async reload()]. [reply] is what [collection.findOne({ _id: this.id })]
    settles to; a document that is gone is [null].
    [Object.assign(this, null)] copies nothing. *)
Definition reload (cls : Class) (this : Instance) (reply : Settled (option Doc))
    : Instance * Settled unit :=
  match collection cls with
  | None => (this, Rejected (TypeError "collection.findOne"))
  | Some _ =>
      match reply with
      | Rejected e => (this, Rejected e)
      | Fulfilled doc => (Object_assign this (default [] doc), Fulfilled tt)
      end
  end.

(** [async delete()], [reply] being the [deletedCount] of
    [collection.deleteOne({ _id: this.id })]. *)
Definition delete (cls : Class) (this : Instance) (reply : Settled Z)
    : Instance * Settled bool :=
  match collection cls with
  | None => (this, Rejected (TypeError "collection.deleteOne"))
  | Some _ =>
      match reply with
      | Rejected e => (this, Rejected e)
      | Fulfilled deletedCount => (this, Fulfilled (deletedCount =? 1)%Z)
      end
  end.

(** [new Product(data)]: the field [id] of the base class and the fields
    [title] and [price] are defined as [undefined], then
    [Object.assign(this, data)]. *)
Definition Product (data : option Doc) : Instance :=
  Object_assign
    (<["price" := JUndefined]> (<["title" := JUndefined]> {["id" := JUndefined]}))
    (default [] data).

(** [static async findById(id)] on [Product], [reply] being what
    [collection.findOne({ _id: ObjectId(id) })] settles to. *)
Definition findById (cls : Class) (reply : Settled (option Doc))
    : Settled (option Instance) :=
  match collection cls with
  | None => Rejected (TypeError "collection.findOne")
  | Some _ =>
      match reply with
      | Rejected e => Rejected e
      | Fulfilled None => Fulfilled None
      | Fulfilled (Some doc) => Fulfilled (Some (Product (Some doc)))
      end
  end.

(** [static from(docs)] on [Product] *)
Definition from (docs : list Doc) : list Instance :=
  (fun doc => Product (Some doc)) <$> docs.

(** [entity.id] *)
Definition get_id (entity : Instance) : JsVal :=
  match entity !! "id" with Some v => v | None => JUndefined end.

(** [static toIds(entities)] *)
Definition toIds (entities : list Instance) : list JsVal := get_id <$> entities.

(** The value a document gives to [id]: that of the last of its [_id] and
    [id] properties. *)
Definition id_of (doc : Doc) : JsVal :=
  match last_write "id" doc with Some v => v | None => JUndefined end.

(** Two stored products. *)
Definition box : Doc :=
  [("_id", JStr "aaaabbbbccccddddeeeeffff"); ("title", JStr "Box 10x15");
   ("price", JNum 0)].

Definition crate : Doc :=
  [("_id", JStr "aaaabbbbccccddddeeee0000"); ("title", JStr "Crate")].

End Documents.

(** ** Configuration

    The configuration object that [Application] builds in its constructor
    and loads in [init()].  Configuration values are trees: no object is
    taken to be reachable by two paths.  Numbers are carried as the
    integers of [JsVal]; [deepMerge] never looks into them. *)

Module Config.
Import Application.

#[warnings="-register-all"]
Inductive Value :=
| Leaf (v : JsVal)                (* undefined, null, a boolean, number or string;
                                     [JRef]: a function or any other object *)
| Array (items : list Value)
| Object (props : Obj Value).     (* a plain object: its own enumerable properties *)

(** How a call ends.  [Beyond] marks the inputs this model does not follow
    (listed with each definition); [OutOfFuel] a recursion bound that was
    set too low. *)
Inductive Outcome (A : Type) :=
| Done (a : A)
| Throws (e : Err)
| Beyond
| OutOfFuel.
Arguments Done {A} a.
Arguments Throws {A} e.
Arguments Beyond {A}.
Arguments OutOfFuel {A}.

#[global] Instance Outcome_ret : MRet Outcome := @Done.
#[global] Instance Outcome_bind : MBind Outcome := fun A B f m =>
  match m with
  | Done a => f a
  | Throws e => Throws e
  | Beyond => Beyond
  | OutOfFuel => OutOfFuel
  end.

(** Whether a call returned. *)
Definition completes {A} (o : Outcome A) : bool :=
  match o with Done _ => true | _ => false end.

(** [await p] *)
Definition settle {A} (r : Settled A) : Outcome A :=
  match r with
  | Fulfilled a => Done a
  | Rejected e => Throws e
  end.

(** [v == null] *)
Definition nullish (v : Value) : bool :=
  match v with
  | Leaf JUndefined | Leaf JNull => true
  | _ => false
  end.

(** [Array.isArray(v)] *)
Definition isArray (v : Value) : bool :=
  match v with Array _ => true | _ => false end.

(** The names every plain object inherits from [Object.prototype]. For
    such a name [key in o] holds without an own property, and
    [o.__proto__] is an accessor: a key of that name is [Beyond]. *)
Definition inherited (key : string) : bool :=
  bool_decide
    (key ∈ ["constructor"; "__proto__"; "hasOwnProperty"; "isPrototypeOf";
            "propertyIsEnumerable"; "toLocaleString"; "toString"; "valueOf";
            "__defineGetter__"; "__defineSetter__"; "__lookupGetter__";
            "__lookupSetter__"]).

(** [Object.keys(o)] *)
Definition Object_keys (o : Obj Value) : list string := (obj_entries o).*1.

(** The iteration order of [new Set(keys)]: each key once, at its first
    occurrence. *)
Fixpoint Set_of (seen keys : list string) : list string :=
  match keys with
  | [] => []
  | key :: rest =>
      if bool_decide (key ∈ seen) then Set_of seen rest
      else key :: Set_of (key :: seen) rest
  end.

(** The body of [keys.forEach] in [deepMerge]: what the own properties of
    [a] are after the visit of [key]. [deepMerge] is the function called on
    two objects.  A function or an object that is neither plain nor an
    array is [Beyond]. *)
Definition merge_key (deepMerge : Value -> Value -> Outcome Value)
    (b : Obj Value) (a : Obj Value) (key : string) : Outcome (Obj Value) :=
  if inherited key then Beyond
  else
    match obj_get key a with
    | None =>
        Done (obj_set key (match obj_get key b with
                           | Some bProp => bProp
                           | None => Leaf JUndefined
                           end) a)
    | Some aProp =>
        match obj_get key b with
        | None => Done a
        | Some bProp =>
            if nullish aProp || nullish bProp then Done (obj_set key bProp a)
            else if isArray aProp && isArray bProp then Done a
            else
              match aProp, bProp with
              | Leaf (JRef _), _ | _, Leaf (JRef _) => Beyond
              | (Array _ | Object _), (Array _ | Object _) =>
                  merged ← deepMerge aProp bProp;
                  Done (obj_set key merged a)
              | _, _ => Done (obj_set key bProp a)
              end
        end
    end.

(** [deepMerge(a, b)]: what [a] holds afterwards. The recursion is bounded
    by [fuel]; [height a] is enough.  An array met by a plain object, and a
    [b] that is not an object, are [Beyond]. *)
Fixpoint deepMerge (fuel : nat) (a b : Value) : Outcome Value :=
  match fuel with
  | O => OutOfFuel
  | S fuel =>
      if nullish a then Throws (TypeError "Первый аргумент должен быть объектом")
      else if nullish b then Done a
      else
        match a, b with
        | Object pa, Object pb =>
            props ← foldl (fun acc key => cur ← acc; merge_key (deepMerge fuel) pb cur key)
                          (Done pa) (Set_of [] (Object_keys pa ++ Object_keys pb));
            Done (Object props)
        | _, _ => Beyond
        end
  end.

(** The nesting depth of a value. *)
Fixpoint height (v : Value) : nat :=
  match v with
  | Leaf _ => 1
  | Array _ => 1
  | Object props =>
      S ((fix heights (l : Obj Value) : nat :=
            match l with
            | [] => 0
            | (_, x) :: rest => Nat.max (height x) (heights rest)
            end) props)
  end.

(** [deepMerge(this, b)] on the configuration object, given by its own
    properties. *)
Definition merge_into (this : Obj Value) (b : Value) : Outcome (Obj Value) :=
  merged ← deepMerge (height (Object this)) (Object this) b;
  match merged with
  | Object props => Done props
  | _ => Beyond
  end.

(** What the loader reads from outside. *)
Record Files := {
  config_dir : Settled (list Dirent);   (* fs.readdir(dirPath, { withFileTypes: true }) *)
  env_dir : Settled (list string);      (* fs.readdir(path.join(dirPath, 'env')) *)
  content : string -> Settled Value;    (* the parsed JSON of a file, or the default
                                           export of a module *)
  rc : Value;                           (* rc(appName) *)
  HOST : option JsVal;                  (* Number(process.env.HOST) when HOST is set
                                           and not empty *)
  PORT : option JsVal                   (* the same for PORT *)
}.

(** [importFile(filePath)] *)
Definition importFile (F : Files) (filePath : string) : Outcome Value :=
  if endsWith filePath ".json" then settle (content F filePath)
  else if endsWith filePath ".js" then settle (content F filePath)
  else Throws (TypeError "Неподдерживаемый тип файла").

(** [new Configuration(dirPath, options)]: the own properties of the new
    object; [node_env] is [process.env.NODE_ENV || 'development']. *)
Definition new (node_env : string) : Obj Value :=
  [("environment", Leaf (JStr node_env))].

(** The body of the loop of [#addModuleConfig()]:
    [this[name] = await importFile(filePath)].  A file named after the
    prototype accessor is [Beyond]. *)
Definition assign_file (F : Files) (dirPath : string) (this : Obj Value)
    (fileName : string) : Outcome (Obj Value) :=
  let filePath := path_resolve dirPath fileName in
  let name := path_parse_name fileName in
  value ← importFile F filePath;
  if String.eqb name "__proto__" then Beyond
  else Done (obj_set name value this).

Definition addModuleConfig (F : Files) (dirPath : string) (this : Obj Value)
    : Outcome (Obj Value) :=
  items ← settle (config_dir F);
  let fileNames := entry_name <$> List.filter isFile items in
  foldl (fun acc fileName => this ← acc; assign_file F dirPath this fileName)
        (Done this) fileNames.

(** [fileList.find((fileName) => fileName.startsWith(prefix))] *)
Definition find_prefixed (prefix : string) (fileList : list string) : option string :=
  List.find (String.prefix prefix) fileList.

Definition merge_file (F : Files) (dir : string) (found : option string)
    (this : Obj Value) : Outcome (Obj Value) :=
  match found with
  | Some fileName =>
      value ← importFile F (path_resolve dir fileName);
      merge_into this value
  | None => Done this
  end.

(** [#addEnvConfig()]. An [environment] that is not a primitive when the
    prefix is built is [Beyond]. *)
Definition addEnvConfig (F : Files) (dirPath : string) (this : Obj Value)
    : Outcome (Obj Value) :=
  let dir := path_resolve dirPath "env" in
  fileList ← settle (env_dir F);
  this ← merge_file F dir (find_prefixed "default.js" fileList) this;
  match obj_get "environment" this with
  | Some (Leaf v) =>
      merge_file F dir (find_prefixed (to_string v +:+ ".js") fileList) this
  | None =>
      merge_file F dir (find_prefixed "undefined.js" fileList) this
  | Some _ => Beyond
  end.

Definition addRcConfig (F : Files) (this : Obj Value) : Outcome (Obj Value) :=
  merge_into this (rc F).

Definition addRuntimeConfig (obj : Value) (this : Obj Value) : Outcome (Obj Value) :=
  merge_into this obj.

Definition addSpecialEnvVars (F : Files) (this : Obj Value) : Obj Value :=
  let this := match HOST F with
              | Some n => obj_set "host" (Leaf n) this
              | None => this
              end in
  match PORT F with
  | Some n => obj_set "port" (Leaf n) this
  | None => this
  end.

(** [async init()]: the sources in rising priority. *)
Definition init (F : Files) (dirPath : string) (runtimeConfig : Value)
    (this : Obj Value) : Outcome (Obj Value) :=
  this ← addModuleConfig F dirPath this;
  this ← addEnvConfig F dirPath this;
  this ← addRcConfig F this;
  this ← addRuntimeConfig runtimeConfig this;
  Done (addSpecialEnvVars F this).

(** The options [new Application(dirPath, runtimeConfig)] passes on:
    [{ appName: this.name, mode: 'web', ...runtimeConfig }]. *)
Definition options (appName : string) (runtimeConfig : Obj Value) : Obj Value :=
  foldl (fun o e => obj_put e.1 e.2 o)
        [("appName", Leaf (JStr appName)); ("mode", Leaf (JStr "web"))]
        (obj_entries runtimeConfig).

(** What the constructor of [Configuration] keeps of them:
    [{ appName = 'app', ...runtimeConfig }]. *)
Definition rest_of (options : Obj Value) : Obj Value :=
  List.filter (fun e => negb (String.eqb e.1 "appName")) (obj_entries options).

(** What is written at [key] when both sides hold a value there. *)
Definition both_sides (merge : Value -> Value -> Outcome Value)
    (aProp bProp : Value) : option Value :=
  if nullish aProp || nullish bProp then Some bProp
  else
    match aProp, bProp with
    | Array _, Array _ => Some aProp
    | Array _, Object _ | Object _, Array _ | Object _, Object _ =>
        match merge aProp bProp with
        | Done merged => Some merged
        | _ => None
        end
    | _, _ => Some bProp
    end.

(** Settings as the configuration files give them, an environment file
    that overrides some of them, and their merge. *)
Definition base_settings : Obj Value :=
  [("environment", Leaf (JStr "development"));
   ("port", Leaf (JNum 3000));
   ("cors", Object [("origins", Array [Leaf (JStr "http://localhost")])]);
   ("log", Object [("level", Leaf (JStr "info")); ("file", Leaf (JStr "app.log"))])].

Definition env_settings : Obj Value :=
  [("port", Leaf (JNum 8080));
   ("cors", Object [("origins", Array [Leaf (JStr "https://example.org")])]);
   ("log", Object [("level", Leaf (JStr "error"))]);
   ("email", Object [("testMode", Leaf (JBool true))])].

Definition merged_settings : Obj Value :=
  [("environment", Leaf (JStr "development"));
   ("port", Leaf (JNum 8080));
   ("cors", Object [("origins", Array [Leaf (JStr "http://localhost")])]);
   ("log", Object [("level", Leaf (JStr "error")); ("file", Leaf (JStr "app.log"))]);
   ("email", Object [("testMode", Leaf (JBool true))])].

(** A configuration laid out like the one the repository's tests load:
    [email.json] and [log.json] in the configuration directory and
    [default.json] in [env], with any [extra] entries of the directory.
    Here the environment file asks for mode [cron] and [rc] for mode
    [internal]; no special environment variable is set. *)
Definition test_config (extra : list Dirent) : Files :=
  {| config_dir :=
       Fulfilled (extra ++ [Sample.folder "env"; Sample.file "email.json";
                            Sample.file "log.json"]);
     env_dir := Fulfilled ["default.json"];
     content := fun filePath =>
       if String.eqb filePath "/app/config/email.json"
       then Fulfilled (Object [("testMode", Leaf (JBool true))])
       else if String.eqb filePath "/app/config/log.json"
       then Fulfilled (Object [("level", Leaf (JStr "info"))])
       else if String.eqb filePath "/app/config/env/default.json"
       then Fulfilled (Object [("port", Leaf (JNum 3000));
                               ("host", Leaf (JStr "localhost"));
                               ("mode", Leaf (JStr "cron"))])
       else Rejected (Thrown "ENOENT");
     rc := Object [("mode", Leaf (JStr "internal"))];
     HOST := None;
     PORT := None |}.

(** What [new Application(dirPath)] hands to [Configuration] for an
    application named [test], and that configuration after [init()]. *)
Definition test_runtime : Obj Value := rest_of (options "test" []).

Definition test_loaded : Obj Value :=
  [("environment", Leaf (JStr "development"));
   ("email", Object [("testMode", Leaf (JBool true))]);
   ("log", Object [("level", Leaf (JStr "info"))]);
   ("port", Leaf (JNum 3000));
   ("host", Leaf (JStr "localhost"));
   ("mode", Leaf (JStr "web"))].

End Config.

(** ** The realtime plugin: emitToRoom

    [emitToRoom(roomId, event, data, schema = null)] as the plugin that
    [#runWebServer] registers decorates the server with it.  A schema is an
    object, looked up in [serializerMap] by identity: it is given by its
    handle. *)

Module SocketIoApi.

Inductive Event :=
| Compile (schema : nat)            (* this.serializerCompiler({ schema }) *)
| Serialize (schema : option nat)   (* serializer(data), JSON.stringify without schema *)
| Emit (roomId event : string).     (* this.io.to(roomId).emit(event, ...) *)

(** One call, with what its collaborators do when they are called. *)
Record Call := {
  roomId : string;
  event : string;
  schema : option nat;
  compiled : Settled unit;     (* this.serializerCompiler({ schema }) returns a serializer *)
  serialized : Settled unit    (* serializer(data), then JSON.parse of its result *)
}.

(** The call, from the keys of [serializerMap]: how it ends, the keys
    afterwards and what it did. [hasCompiler] is the truth value of
    [this.serializerCompiler]. *)
Definition emitToRoom (hasCompiler : bool) (serializerMap : list nat) (c : Call)
    : Settled unit * list nat * list Event :=
  let send (cache : list nat) (used : option nat) (done : list Event) :=
    match serialized c with
    | Rejected e => (Rejected e, cache, done ++ [Serialize used])
    | Fulfilled _ =>
        (Fulfilled tt, cache, done ++ [Serialize used; Emit (roomId c) (event c)])
    end in
  match schema c with
  | Some key =>
      if hasCompiler then
        if bool_decide (key ∈ serializerMap) then send serializerMap (Some key) []
        else
          match compiled c with
          | Rejected e => (Rejected e, serializerMap, [Compile key])
          | Fulfilled _ => send (key :: serializerMap) (Some key) [Compile key]
          end
      else send serializerMap None []
  | None => send serializerMap None []
  end.

(** A sequence of calls on one server; a call that throws leaves the
    server to the next caller. *)
Fixpoint calls (hasCompiler : bool) (serializerMap : list nat) (cs : list Call)
    : list nat * list Event :=
  match cs with
  | [] => (serializerMap, [])
  | c :: rest =>
      match emitToRoom hasCompiler serializerMap c with
      | (_, cache, t1) =>
          match calls hasCompiler cache rest with
          | (final, t2) => (final, t1 ++ t2)
          end
      end
  end.

(** The schemas handed to the compiler, in order. *)
Definition compilations (t : list Event) : list nat :=
  omap (fun e => match e with Compile key => Some key | _ => None end) t.

(** Three messages to a room, two of them with the same schema. *)
Definition message (key : option nat) : Call :=
  {| roomId := "lobby"; event := "update"; schema := key;
     compiled := Fulfilled tt; serialized := Fulfilled tt |}.

Definition three_messages : list Call :=
  [message (Some 1); message None; message (Some 1)].

End SocketIoApi.

(** * Properties *)

Import Application.

(** ** SimpleMongoModel.update *)

Section Update.
Import SimpleMongoModel.

Lemma set_property_slot k v (this : Instance) :
  set_property k v this = <[slot k := v]> this.
Proof. unfold set_property, slot. by destruct (String.eqb k "_id"). Qed.

(** What a property holds after [Object.assign(this, changes)]. *)
Lemma Object_assign_lookup changes : ∀ (this : Instance) p,
  Object_assign this changes !! p =
    match last_write p changes with
    | Some v => Some v
    | None => this !! p
    end.
Proof.
  induction changes as [|[k v] rest IH]; intros this p; [done|].
  change (Object_assign this ((k, v) :: rest))
    with (Object_assign (set_property k v this) rest).
  rewrite IH. simpl. destruct (last_write p rest) as [w|]; [done|].
  rewrite set_property_slot.
  destruct (String.eqb_spec (slot k) p) as [->|Hne].
  - by rewrite lookup_insert_eq.
  - by rewrite lookup_insert_ne.
Qed.

(** C10. On an initialised model class, whatever [modifiedCount] the
    database reports, [update(changes)] leaves every property written by
    [changes] at its new value in the in-memory instance (and the others
    as they were), and it returns [true] exactly when [modifiedCount]
    is 1: a [false] return still leaves the unpersisted changes in
    memory. *)
Theorem update_merges_whatever_the_database_reports
    (cls : Class) (this : Instance) (changes : list (string * JsVal))
    (modifiedCount : Z) :
  is_Some (collection cls) →
  ∃ returned,
    update cls this changes (Fulfilled modifiedCount)
      = (Object_assign this changes, Fulfilled returned)
    ∧ (returned = true ↔ modifiedCount = 1%Z)
    ∧ ∀ p, Object_assign this changes !! p =
             match last_write p changes with
             | Some v => Some v
             | None => this !! p
             end.
Proof.
  intros [coll Hcoll]. exists (modifiedCount =? 1)%Z.
  unfold update. rewrite Hcoll. split; [done|]. split.
  - apply Z.eqb_eq.
  - apply Object_assign_lookup.
Qed.

(** A product whose title is changed while the database modifies no
    document (its [_id] matches nothing): the call answers [false] and
    the instance shows the new title. *)
Lemma update_merges_whatever_the_database_reports_witness :
  let cls := init {| className := "Product"; collection := None |} in
  let product : Instance :=
    {[ "id" := JStr "aaaabbbbccccddddeeeeffff"; "title" := JStr "Box 10x15";
       "price" := JNum 0 ]} in
  is_Some (collection cls)
  ∧ ∃ product',
      update cls product [("title", JStr "Box 20x30")] (Fulfilled 0%Z)
        = (product', Fulfilled false)
      ∧ product' !! "title" = Some (JStr "Box 20x30").
Proof.
  intros cls product. split; [by eexists|].
  destruct (update_merges_whatever_the_database_reports cls product
              [("title", JStr "Box 20x30")] 0%Z) as (b & Hrun & Hb & Hmem).
  { by eexists. }
  exists (Object_assign product [("title", JStr "Box 20x30")]). split.
  - rewrite Hrun. destruct b; [|done].
    destruct Hb as [Hb _]. by specialize (Hb eq_refl).
  - by rewrite Hmem.
Defined.

(** The sibling method merges only what the database confirmed. *)
Lemma updateConcurrently_keeps_instance_on_zero
    (cls : Class) (this : Instance) changes (modifiedCount : Z) :
  is_Some (collection cls) → modifiedCount ≠ 1%Z →
  updateConcurrently cls this changes (Fulfilled modifiedCount)
    = (this, Fulfilled false).
Proof.
  intros [coll Hcoll] Hne. unfold updateConcurrently. rewrite Hcoll.
  by destruct (Z.eqb_spec modifiedCount 1).
Qed.

End Update.

(** ** Reasoning about methods *)

Lemma bind_run {A B} (m : M A) (f : A → M B) s :
  (m ≫= f) s =
    match m s with
    | (Fulfilled a, s1, t1) =>
        match f a s1 with (r, s2, t2) => (r, s2, t1 ++ t2) end
    | (Rejected e, s1, t1) => (Rejected e, s1, t1)
    end.
Proof. reflexivity. Qed.

(** A sequence that completes normally: both halves did. *)
Lemma bind_fulfilled {A B} (m : M A) (f : A → M B) s b s' t :
  (m ≫= f) s = (Fulfilled b, s', t) →
  ∃ a s1 t1 t2,
    m s = (Fulfilled a, s1, t1) ∧ f a s1 = (Fulfilled b, s', t2) ∧ t = t1 ++ t2.
Proof.
  rewrite bind_run. destruct (m s) as [[[a|e] s1] t1]; [|done].
  destruct (f a s1) as [[r s2] t2] eqn:Hf. intros [= -> -> <-].
  by exists a, s1, t1, t2.
Qed.

(** A sequence that throws: the first half threw, or it completed and the
    second half threw. *)
Lemma bind_rejected {A B} (m : M A) (f : A → M B) s e s' t :
  (m ≫= f) s = (Rejected e, s', t) →
  m s = (Rejected e, s', t)
  ∨ ∃ a s1 t1 t2,
      m s = (Fulfilled a, s1, t1) ∧ f a s1 = (Rejected e, s', t2) ∧ t = t1 ++ t2.
Proof.
  rewrite bind_run. destruct (m s) as [[[a|e'] s1] t1]; [|intros [= -> -> ->]; by left].
  destruct (f a s1) as [[r s2] t2] eqn:Hf. intros [= -> -> <-].
  right. by exists a, s1, t1, t2.
Qed.

(** Runs a method as far as its sequencing determines. *)
Ltac run :=
  repeat first
    [ rewrite bind_run
    | progress unfold mret, M_ret, ret, throw, await, emit, self, assign,
        new_Date, collection_Patch, write_Patch, try_catch
    | progress simpl ].

Section Frames.
Context (R : State → State → Prop) (Q : Event → Prop).
Context `{!Reflexive R, !Transitive R}.

Lemma respects_ret {A} (a : A) : respects R Q (mret a).
Proof. intros s. by split. Qed.

Lemma respects_throw {A} e : respects R Q (@throw A e).
Proof. intros s. by split. Qed.

Lemma respects_await {A} (r : Settled A) : respects R Q (await r).
Proof. intros s. by split. Qed.

Lemma respects_self : respects R Q self.
Proof. intros s. by split. Qed.

Lemma respects_collection_Patch : respects R Q collection_Patch.
Proof. intros s. by split. Qed.

Lemma respects_emit e : Q e → respects R Q (emit e).
Proof. intros He s. split; [done|]. by repeat constructor. Qed.

Lemma respects_assign f :
  (∀ s, R s {| this := f (this s); Patch := Patch s; clock := clock s |}) →
  respects R Q (assign f).
Proof. intros Hf s. by split; [apply Hf|]. Qed.

Lemma respects_new_Date :
  (∀ s, R s {| this := this s; Patch := Patch s; clock := S (clock s) |}) →
  respects R Q new_Date.
Proof. intros Hf s. by split; [apply Hf|]. Qed.

Lemma respects_write_Patch f :
  (∀ s, R s {| this := this s; Patch := f (Patch s); clock := clock s |}) →
  respects R Q (write_Patch f).
Proof. intros Hf s. by split; [apply Hf|]. Qed.

Lemma respects_bind {A B} (m : M A) (f : A → M B) :
  respects R Q m → (∀ a, respects R Q (f a)) → respects R Q (m ≫= f).
Proof.
  intros Hm Hf s. rewrite bind_run. specialize (Hm s).
  destruct (m s) as [[[a|e] s1] t1]; simpl in *; [|done].
  specialize (Hf a s1). destruct (f a s1) as [[r s2] t2]; simpl in *.
  destruct Hm, Hf. split; [by etrans|]. by apply Forall_app.
Qed.

Lemma respects_try_catch {A} (m : M A) handler :
  respects R Q m → (∀ e, respects R Q (handler e)) →
  respects R Q (try_catch m handler).
Proof.
  intros Hm Hh s. unfold try_catch. specialize (Hm s).
  destruct (m s) as [[[a|e] s1] t1]; simpl in *; [done|].
  specialize (Hh e s1). destruct (handler e s1) as [[r s2] t2]; simpl in *.
  destruct Hm, Hh. split; [by etrans|]. by apply Forall_app.
Qed.

Lemma respects_for_of {A} (xs : list A) body :
  (∀ x, respects R Q (body x)) → respects R Q (for_of xs body).
Proof.
  intros Hbody. induction xs as [|x rest IH]; simpl.
  - apply respects_ret.
  - apply respects_bind; [done|]. intros []; [done|apply respects_ret].
Qed.

Lemma respects_scan_modules E dir dirNames : ∀ modules,
  (∀ d, Q (Readdir d)) → respects R Q (scan_modules E dir dirNames modules).
Proof.
  induction dirNames as [|d rest IH]; intros modules HQ; simpl.
  - apply respects_ret.
  - apply respects_bind; [|intros; by apply IH].
    apply respects_bind; [by apply respects_emit|intros; apply respects_await].
Qed.

Lemma on_throw_bind {A B} (m : M A) (f : A → M B) :
  respects R Q m → (∀ a, on_throw R (f a)) → on_throw R (m ≫= f).
Proof.
  intros Hm Hf s e s' t [Hrun|(a & s1 & t1 & t2 & Hrun & Hk & _)]%bind_rejected;
    specialize (Hm s); rewrite Hrun in Hm; simpl in Hm; [apply Hm|].
  etrans; [apply Hm|]. by eapply Hf.
Qed.

Lemma on_throw_assign f : on_throw R (assign f).
Proof. by intros s e s' t. Qed.

End Frames.

#[local] Instance same_reflexive {X} (obs : State → X) : Reflexive (same obs).
Proof. by intros s. Qed.

#[local] Instance same_transitive {X} (obs : State → X) : Transitive (same obs).
Proof. intros s1 s2 s3 H12 H23. unfold same in *. congruence. Qed.

(** One step of a frame proof: the rule for the construct at the head of
    the method, the unfolding of a method of the class, or a side
    condition of a rule. *)
Ltac frame_step :=
  lazymatch goal with
  | |- respects _ _ (mret _) => apply respects_ret
  | |- respects _ _ (throw _) => apply respects_throw
  | |- respects _ _ (await _) => apply respects_await
  | |- respects _ _ self => apply respects_self
  | |- respects _ _ collection_Patch => apply respects_collection_Patch
  | |- respects _ _ (emit _) => apply respects_emit
  | |- respects _ _ (assign _) => apply respects_assign
  | |- respects _ _ new_Date => apply respects_new_Date
  | |- respects _ _ (write_Patch _) => apply respects_write_Patch
  | |- respects _ _ (_ ≫= _) => apply respects_bind
  | |- respects _ _ (try_catch _ _) => apply respects_try_catch
  | |- respects _ _ (for_of _ _) => apply respects_for_of
  | |- respects _ _ (scan_modules _ _ _ _) => apply respects_scan_modules
  | |- respects _ _ (match ?x with _ => _ end) => destruct x
  | |- respects _ _ (?method _ _ _) => unfold method
  | |- respects _ _ (?method _ _) => unfold method
  | |- respects _ _ (?method _) => unfold method
  | |- respects _ _ ?method => unfold method
  | |- Reflexive _ => apply _
  | |- Transitive _ => apply _
  | |- ∀ _, _ => intros ?
  | |- _ => first [done | reflexivity]
  end.

Ltac frame := repeat frame_step.

(** ** The status field *)

Lemma destroy_keeps_status E : respects (same the_status) (λ _, True) (destroy E).
Proof. frame. Qed.

Lemma bootstrap_keeps_status E : respects (same the_status) (λ _, True) (bootstrap E).
Proof. frame. Qed.

Lemma patchData_keeps_status E : respects (same the_status) (λ _, True) (patchData E).
Proof. frame. Qed.

Lemma dispatch_keeps_status E : respects (same the_status) (λ _, True) (dispatch E).
Proof. frame. Qed.

Lemma activate_on_throw E : on_throw (same the_status) (activate E).
Proof.
  unfold activate.
  apply (on_throw_bind (same the_status) (λ _, True)); [apply dispatch_keeps_status|intros _].
  apply (on_throw_bind (same the_status) (λ _, True)); [by apply respects_self|intros a].
  apply (on_throw_bind (same the_status) (λ _, True)); [frame|intros; apply on_throw_assign].
Qed.

(** Once past the guard, [init()] touches [status] again only in its last
    statement: whenever it throws, [status] is the [launching] it set. *)
Lemma init_rejected_launching E s e s1 t :
  status (this s) = created ∨ status (this s) = stopped →
  init E s = (Rejected e, s1, t) →
  status (this s1) = launching.
Proof.
  intros Hidle. unfold init. rewrite bind_run. simpl.
  assert (negb (status_eqb (status (this s)) created)
          && negb (status_eqb (status (this s)) stopped) = false) as ->
    by (destruct Hidle as [-> | ->]; done).
  rewrite bind_run. simpl.
  set (s0 := {| this := with_status launching (this s) |}).
  destruct ((bootstrap E ≫= λ _, patchData E ≫= λ _, activate E) s0)
    as [[r s2] t2] eqn:Hrun.
  intros [= -> -> <-].
  assert (on_throw (same the_status)
            (bootstrap E ≫= λ _, patchData E ≫= λ _, activate E)) as Hframe.
  { apply (on_throw_bind (same the_status) (λ _, True)); [apply bootstrap_keeps_status|intros _].
    apply (on_throw_bind (same the_status) (λ _, True)); [apply patchData_keeps_status|intros _].
    apply activate_on_throw. }
  apply (Hframe _ _ _ _ Hrun).
Qed.

(** The double-start guard: on an instance that is neither [created] nor
    [stopped], [init()] only tries to log, and leaves the instance as it
    is. It throws when there is no logger yet. *)
Lemma init_guarded E s :
  status (this s) ≠ created → status (this s) ≠ stopped →
  init E s =
    match appLogger (this s) with
    | Some _ => (Fulfilled tt, s, [Log error already_running])
    | None => (Rejected (TypeError "this.appLogger"), s, [])
    end.
Proof.
  intros Hc Hs. unfold init. rewrite bind_run. simpl.
  assert (negb (status_eqb (status (this s)) created)
          && negb (status_eqb (status (this s)) stopped) = true) as ->
    by (destruct (status (this s)); done).
  unfold appLogger_call. rewrite bind_run. simpl.
  by destruct (appLogger (this s)).
Qed.

(** [destroy()] on an instance that is [created] or [stopped] does
    nothing. *)
Lemma destroy_idle E s :
  status (this s) = created ∨ status (this s) = stopped →
  destroy E s = (Fulfilled tt, s, []).
Proof.
  intros Hidle. unfold destroy. rewrite bind_run. simpl.
  by destruct Hidle as [-> | ->].
Qed.

Lemma run_call_keeps_launching c s :
  status (this s) = launching → status (this (run_call c s).1.2) = launching.
Proof.
  intros Hs. destruct c as [E|E]; simpl.
  - rewrite init_guarded by (rewrite Hs; done). by destruct (appLogger (this s)).
  - destruct (destroy_keeps_status E s) as [Hsame _]. unfold same, the_status in Hsame.
    by rewrite Hsame.
Qed.

Lemma run_calls_keeps_launching cs : ∀ s,
  status (this s) = launching → status (this (run_calls cs s).1) = launching.
Proof.
  induction cs as [|c rest IH]; intros s Hs; [done|]. simpl.
  pose proof (run_call_keeps_launching c s Hs) as Hc.
  destruct (run_call c s) as [[r s1] t1]. simpl in Hc.
  specialize (IH s1 Hc). by destruct (run_calls rest s1).
Qed.

(** C9. When [init()] throws after it set [status] to [launching], the
    status is not rolled back; whatever calls of [init()] and [destroy()]
    follow, the status stays [launching] ([destroy()] never assigns
    [stopped]) and every further [init()] ends in the double-start guard,
    without touching the instance. *)
Theorem failed_init_is_never_restarted E s e s1 t :
  status (this s) = created ∨ status (this s) = stopped →
  init E s = (Rejected e, s1, t) →
  status (this s1) = launching
  ∧ ∀ (later : list Call) (E' : Env),
      let s2 := (run_calls later s1).1 in
      status (this s2) = launching
      ∧ (init E' s2 = (Fulfilled tt, s2, [Log error already_running])
         ∨ init E' s2 = (Rejected (TypeError "this.appLogger"), s2, [])).
Proof.
  intros Hidle Hrun.
  pose proof (init_rejected_launching _ _ _ _ _ Hidle Hrun) as Hs1.
  split; [done|]. intros later E' s2.
  pose proof (run_calls_keeps_launching later s1 Hs1) as Hs2. fold s2 in Hs2.
  split; [done|].
  rewrite init_guarded by (rewrite Hs2; done).
  destruct (appLogger (this s2)); [by left|by right].
Qed.

(** The configuration loader fails on the first [init()]; the caller then
    destroys the instance and starts it again, twice. *)
Lemma failed_init_is_never_restarted_witness :
  (status (this (Sample.fresh ∅)) = created
   ∨ status (this (Sample.fresh ∅)) = stopped)
  ∧ init Sample.broken_configuration (Sample.fresh ∅)
      = (Rejected (Thrown "config"), Sample.stuck, [ConfigInit])
  ∧ status (this Sample.stuck) = launching
  ∧ ∀ (later : list Call) (E' : Env),
      let s2 := (run_calls later Sample.stuck).1 in
      status (this s2) = launching
      ∧ (init E' s2 = (Fulfilled tt, s2, [Log error already_running])
         ∨ init E' s2 = (Rejected (TypeError "this.appLogger"), s2, [])).
Proof.
  split; [by left|]. split; [reflexivity|].
  apply (failed_init_is_never_restarted Sample.broken_configuration
           (Sample.fresh ∅) (Thrown "config") Sample.stuck [ConfigInit]).
  - by left.
  - reflexivity.
Defined.

(** ** destroy() *)

(** C5. A web instance is started and destroyed: [destroy()] completes and
    [status] is still [active], not [stopped]; the second [destroy()] then
    passes the guard and goes through the whole teardown again. *)
Theorem destroy_twice_tears_down_twice :
  ∃ s1 t1,
    init (Sample.running "web" []) (Sample.fresh ∅) = (Fulfilled tt, s1, t1)
    ∧ status (this s1) = active
    ∧ destroy (Sample.running "web" []) s1 = (Fulfilled tt, s1, Sample.teardown)
    ∧ (destroy (Sample.running "web" []);; destroy (Sample.running "web" [])) s1
        = (Fulfilled tt, s1, Sample.teardown ++ Sample.teardown).
Proof.
  eexists _, _. split; [vm_compute; reflexivity|].
  repeat split; vm_compute; reflexivity.
Qed.

(** ** The double-start guard *)

(** C6. The configuration load fails during the first [init()]: the
    instance is left [launching] with no logger. The next [init()] enters
    the guard, reads [this.appLogger.error] on [null] and throws a
    [TypeError] instead of reporting the double start. *)
Theorem init_guard_throws_without_logger :
  init Sample.broken_configuration (Sample.fresh ∅)
    = (Rejected (Thrown "config"), Sample.stuck, [ConfigInit])
  ∧ status (this Sample.stuck) = launching
  ∧ appLogger (this Sample.stuck) = None
  ∧ init (Sample.running "web" []) Sample.stuck
      = (Rejected (TypeError "this.appLogger"), Sample.stuck, []).
Proof. repeat split; vm_compute; reflexivity. Qed.

(** Where the logger exists (any instance that got past [#initLogger],
    a running one in particular) the guard reports and returns; the
    instance, its models and its services are left as they were. *)
Lemma init_guard_reports E s :
  status (this s) ≠ created → status (this s) ≠ stopped →
  is_Some (appLogger (this s)) →
  init E s = (Fulfilled tt, s, [Log error already_running]).
Proof.
  intros Hc Hs [l Hl]. rewrite init_guarded by done. by rewrite Hl.
Qed.

(** ** The migration coordinator on an instance of the class *)

(** C1. Patch scripts 1, 2 and 3 with patch 1 recorded as applied: the
    coordinator reads [this.db], which is [undefined], and [init()] throws
    before any script is run; the collection is left as it was. *)
Theorem migration_throws_before_any_patch :
  ∃ s1 t1,
    init (Sample.running "internal" ["1.js"; "2.js"; "3.js"])
         (Sample.fresh {[ 1%Z := Sample.applied 0 ]})
      = (Rejected (TypeError "this.db.collection"), s1, t1)
    ∧ patch_runs t1 = []
    ∧ Patch s1 = {[ 1%Z := Sample.applied 0 ]}
    ∧ status (this s1) = launching.
Proof.
  eexists _, _. split; [vm_compute; reflexivity|].
  repeat split; vm_compute; reflexivity.
Qed.

(** On an instance that does have a [db], the scripts run in the order of
    the directory listing: the comparator reads [version], which no script
    has, and never answers [-1]. *)
Lemma patches_run_in_listing_order :
  ∃ s1 t1,
    init (Sample.running "internal" ["10.js"; "9.js"])
         (Sample.fresh_with_db {[ 1%Z := Sample.applied 0 ]})
      = (Fulfilled tt, s1, t1)
    ∧ patch_runs t1 = [10%Z; 9%Z].
Proof. eexists _, _. split; vm_compute; reflexivity. Qed.


(** What the loop body does when the body of a claimed patch fails: the
    error is logged, [destroy()] is run, and the error goes no further;
    the loop then goes on, since the body answers [Next]. *)
Lemma failed_patch_is_logged_then_destroyed E script n s e :
  id script = Some n →
  import_default E (path script) = Fulfilled (Default (Rejects e)) →
  is_Some (db (this s)) →
  store_fault E (OpInsert n) = None →
  Patch s !! n = None →
  is_Some (logger (this s)) →
  is_Some (appLogger (this s)) →
  apply_patch E script s =
    match destroy E
            {| this := this s;
               Patch := <[n := {| startedAt := clock s; patch_status := pending;
                                  completedAt := None |}]> (Patch s);
               clock := S (clock s) |} with
    | (Fulfilled _, s2, t2) =>
        (Fulfilled Next, s2,
         [Import (path script); PatchInsert n; PatchRun n; Log error e] ++ t2)
    | (Rejected e2, s2, t2) =>
        (Rejected e2, s2,
         [Import (path script); PatchInsert n; PatchRun n; Log error e] ++ t2)
    end.
Proof.
  intros Hid Himport [d Hdb] Hfault Hfree [l Hl] [al Hal].
  unfold apply_patch. rewrite Hid.
  unfold import, insertOne, db_collection, driver, patch_logger, call_await,
    appLogger_call.
  run. rewrite Himport. run. rewrite Hdb. run. rewrite Hfault. run.
  rewrite Hfree. run. rewrite Hl. run. rewrite Hal. run.
  destruct (destroy E _) as [[[[]|e2] s2] t2]; simpl; by rewrite ?app_nil_r.
Qed.

(** The comparator of [#patchData] answers 1 for every pair, so the sort
    leaves the scripts in the order of the directory listing. *)
Lemma Array_sort_by_version scripts : Array_sort by_version scripts = scripts.
Proof.
  unfold Array_sort.
  assert (∀ run, foldl (λ run pivot, sort_insert by_version pivot run) run scripts
                 = run ++ scripts) as Hfold; [|apply Hfold].
  induction scripts as [|x rest IH]; intros run; simpl.
  - by rewrite app_nil_r.
  - rewrite IH.
    assert (sort_insert by_version x run = run ++ [x]) as ->
      by (induction run as [|y run IHrun]; simpl; [done|by rewrite IHrun]).
    by rewrite <- app_assoc.
Qed.

(** Past the guard, [init()] is its three phases run from the launching
    state. *)
Lemma init_launch E s :
  status (this s) = created ∨ status (this s) = stopped →
  init E s = (bootstrap E ≫= λ _, patchData E ≫= λ _, activate E) (launch s).
Proof.
  intros Hidle. unfold init. rewrite bind_run. simpl.
  assert (negb (status_eqb (status (this s)) created)
          && negb (status_eqb (status (this s)) stopped) = false) as ->
    by (destruct Hidle as [-> | ->]; done).
  rewrite bind_run. simpl. fold (launch s).
  by destruct ((bootstrap E ≫= λ _, patchData E ≫= λ _, activate E) (launch s))
    as [[r s2] t2].
Qed.

(** The stages before the migration step neither define [db] nor touch
    the [Patch] collection. *)
Lemma bootstrap_keeps_store E :
  respects (same the_store) (λ e, is_patch_event e = false) (bootstrap E).
Proof. frame. Qed.

(** [#patchData] on an instance without [db]. *)
Lemma patchData_without_db E s items :
  db (this s) = None →
  readdirSync E (patches_dir s) = Fulfilled items →
  patchData E s =
    match js_files items with
    | [] => (Fulfilled tt, s, [Readdir (patches_dir s)])
    | _ :: _ => (Rejected (TypeError "this.db.collection"), s, [Readdir (patches_dir s)])
    end.
Proof.
  intros Hdb Hdir. unfold patchData. rewrite bind_run. simpl.
  unfold readdir. rewrite !bind_run. simpl. fold (patches_dir s). rewrite Hdir.
  rewrite Array_sort_by_version, length_fmap.
  destruct (js_files items) as [|item rest]; [done|]. simpl.
  unfold find_latest, db_collection. rewrite !bind_run. simpl. by rewrite Hdb.
Qed.

(** C4. On an instance of the class, which has no [db] property, when
    [init()] passes the guard and the stages before the migration step
    have completed:
    if the patch directory lists at least one script file, [init()] throws
    a [TypeError] on [this.db], having read and written no [Patch] record
    and run no patch body; if it lists none, the step returns without
    touching the database and [init()] goes on with the mode switch. *)
Theorem migration_needs_a_db_that_is_never_defined E s s0 t0 items :
  class_instance s →
  status (this s) = created →
  bootstrap E (launch s) = (Fulfilled tt, s0, t0) →
  readdirSync E (patches_dir s) = Fulfilled items →
  (js_files items ≠ [] →
     init E s = (Rejected (TypeError "this.db.collection"), s0,
                 t0 ++ [Readdir (patches_dir s)])
     ∧ Patch s0 = Patch s
     ∧ Forall (λ e, is_patch_event e = false) (t0 ++ [Readdir (patches_dir s)]))
  ∧ (js_files items = [] →
     patchData E s0 = (Fulfilled tt, s0, [Readdir (patches_dir s)])
     ∧ init E s =
         match activate E s0 with
         | (r, s2, t2) => (r, s2, t0 ++ Readdir (patches_dir s) :: t2)
         end).
Proof.
  intros (Hdb & _ & _) Hcreated Hboot Hdir.
  assert (status (this s) = created ∨ status (this s) = stopped) as Hidle
    by (by left).
  destruct (bootstrap_keeps_store E (launch s)) as [Hsame Hevents].
  rewrite Hboot in Hsame, Hevents. simpl in Hsame, Hevents.
  unfold same, the_store in Hsame. simpl in Hsame.
  injection Hsame as Hdb0 Hdir0 Hpatch0.
  assert (patches_dir s0 = patches_dir s) as Hpd by (unfold patches_dir; by rewrite Hdir0).
  assert (patchData E s0 =
            match js_files items with
            | [] => (Fulfilled tt, s0, [Readdir (patches_dir s)])
            | _ :: _ => (Rejected (TypeError "this.db.collection"), s0,
                         [Readdir (patches_dir s)])
            end) as Hpatch.
  { rewrite <- Hpd. apply patchData_without_db; [congruence|by rewrite Hpd]. }
  rewrite (init_launch _ _ Hidle), bind_run, Hboot, bind_run, Hpatch.
  split; intros Hfiles.
  - destruct (js_files items); [done|]. split; [done|]. split; [done|].
    apply Forall_app. split; [done|]. by repeat constructor.
  - rewrite Hfiles. split; [done|].
    destruct (activate E s0) as [[r s2] t2]. done.
Qed.

(** A freshly built instance has no [db]. *)
Lemma new_has_no_db dir pkg node_env : db (new dir pkg node_env) = None.
Proof. reflexivity. Qed.

(** The test deployment with the single patch script [1.js]: [init()]
    throws on [this.db] right after listing the patch directory. *)
Lemma migration_needs_a_db_that_is_never_defined_witness :
  class_instance (Sample.fresh ∅)
  ∧ status (this (Sample.fresh ∅)) = created
  ∧ bootstrap Sample.one_patch (launch (Sample.fresh ∅))
      = (Fulfilled tt, Sample.booted, Sample.boot_trace)
  ∧ readdirSync Sample.one_patch (patches_dir (Sample.fresh ∅))
      = Fulfilled [Sample.file "1.js"]
  ∧ js_files [Sample.file "1.js"] ≠ []
  ∧ init Sample.one_patch (Sample.fresh ∅)
      = (Rejected (TypeError "this.db.collection"), Sample.booted,
         Sample.boot_trace ++ [Readdir "/app/api/patches"]).
Proof.
  assert (class_instance (Sample.fresh ∅)) as Hclass by (by repeat split).
  split; [exact Hclass|]. split; [reflexivity|].
  split; [vm_compute; reflexivity|]. split; [reflexivity|]. split; [done|].
  destruct (migration_needs_a_db_that_is_never_defined
              Sample.one_patch (Sample.fresh ∅) Sample.booted Sample.boot_trace
              [Sample.file "1.js"]) as [Hscripts _].
  - exact Hclass.
  - reflexivity.
  - vm_compute; reflexivity.
  - reflexivity.
  - apply Hscripts. done.
Defined.

(** ** The per-script loop *)

(** The claim attempt of a script whose record exists already. *)
Lemma insertOne_duplicate E n s :
  is_Some (db (this s)) →
  store_fault E (OpInsert n) = None →
  is_Some (Patch s !! n) →
  insertOne E n s
    = (Rejected (DuplicateKey n),
       {| this := this s; Patch := Patch s; clock := S (clock s) |},
       [PatchInsert n]).
Proof.
  intros [d Hdb] Hfault [r Hr]. unfold insertOne, db_collection, driver.
  run. rewrite Hdb. run. rewrite Hfault. run. by rewrite Hr.
Qed.

(** C2, as the code has it. When the insert of a script's Patch Record
    fails on a duplicate key, the coordinator ends its batch there: the
    loop completes without error after that single insert attempt, the
    body of the script is not run, no remaining script is imported or
    attempted, and the collection is as it was. *)
Theorem duplicate_claim_ends_the_batch E script rest n s x :
  id script = Some n →
  import_default E (path script) = Fulfilled x →
  is_Some (db (this s)) →
  store_fault E (OpInsert n) = None →
  is_Some (Patch s !! n) →
  for_of (script :: rest) (apply_patch E) s
    = (Fulfilled tt,
       {| this := this s; Patch := Patch s; clock := S (clock s) |},
       [Import (path script); PatchInsert n]).
Proof.
  intros Hid Himport Hdb Hfault Hdup.
  assert (apply_patch E script s
          = (Fulfilled Return,
             {| this := this s; Patch := Patch s; clock := S (clock s) |},
             [Import (path script); PatchInsert n])) as Hbody.
  { unfold apply_patch. rewrite Hid. unfold import. run. rewrite Himport. run.
    by rewrite (insertOne_duplicate E n s Hdb Hfault Hdup). }
  change (for_of (script :: rest) (apply_patch E))
    with (apply_patch E script ≫= λ flow,
            match flow with
            | Next => for_of rest (apply_patch E)
            | Return => mret tt
            end).
  by rewrite bind_run, Hbody.
Qed.

(** Two instances race for patch 2 and the other one has just claimed it:
    this instance stops at script 2 and leaves script 3 alone. *)
Lemma duplicate_claim_ends_the_batch_witness :
  id (patch_script "/app/api/patches" (Sample.file "2.js")) = Some 2%Z
  ∧ import_default (Sample.running "internal" ["2.js"; "3.js"])
      "/app/api/patches/2.js" = Fulfilled (Default Returns)
  ∧ is_Some (db (this Sample.racing))
  ∧ store_fault (Sample.running "internal" ["2.js"; "3.js"]) (OpInsert 2) = None
  ∧ is_Some (Patch Sample.racing !! 2%Z)
  ∧ for_of (Sample.scripts ["2.js"; "3.js"])
      (apply_patch (Sample.running "internal" ["2.js"; "3.js"])) Sample.racing
    = (Fulfilled tt,
       {| this := this Sample.racing; Patch := Patch Sample.racing;
          clock := S (clock Sample.racing) |},
       [Import "/app/api/patches/2.js"; PatchInsert 2]).
Proof.
  split; [reflexivity|]. split; [reflexivity|].
  split; [vm_compute; by eexists|]. split; [reflexivity|].
  split; [vm_compute; by eexists|].
  apply (duplicate_claim_ends_the_batch
           (Sample.running "internal" ["2.js"; "3.js"])
           (patch_script "/app/api/patches" (Sample.file "2.js"))
           [patch_script "/app/api/patches" (Sample.file "3.js")]
           2%Z Sample.racing (Default Returns)).
  - reflexivity.
  - reflexivity.
  - vm_compute; by eexists.
  - reflexivity.
  - vm_compute; by eexists.
Defined.

(** In that race the specification's reading fails: script 3 is never
    attempted. *)
Lemma duplicate_claim_does_not_move_on :
  ¬ skips_and_moves_on (Sample.running "internal" ["2.js"; "3.js"])
      (Sample.scripts ["2.js"; "3.js"]) Sample.racing.
Proof.
  intros Hclaim.
  destruct (Hclaim 2%Z) as (s' & t & Hrun & _ & Hlater).
  { reflexivity. }
  { vm_compute; by eexists. }
  specialize (Hlater (patch_script "/app/api/patches" (Sample.file "3.js")) 3%Z).
  vm_compute in Hrun. injection Hrun as _ <-.
  assert (PatchInsert 3 ∈ [Import "/app/api/patches/2.js"; PatchInsert 2]) as Hin.
  { apply Hlater; [|reflexivity|done]. apply list_elem_of_In. by left. }
  apply list_elem_of_In in Hin. simpl in Hin.
  destruct Hin as [Hin|[Hin|[]]]; discriminate.
Qed.

(** ** Dictionaries *)

Section Dictionaries.
Context {V : Type}.
Implicit Types (o l : list (string * V)) (e : string * V).

Lemma obj_put_fresh k v o : k ∉ o.*1 → obj_put k v o = o ++ [(k, v)].
Proof.
  induction o as [|[k' v'] rest IH]; intros Hk; simpl; [done|].
  destruct (String.eqb_spec k k') as [->|Hne].
  - exfalso. apply Hk. simpl. left.
  - rewrite IH; [done|]. intros Hin. apply Hk. simpl. by right.
Qed.

Lemma obj_set_fresh k v o :
  k ≠ "__proto__" → k ∉ o.*1 → obj_set k v o = o ++ [(k, v)].
Proof.
  intros Hproto Hk. unfold obj_set.
  destruct (String.eqb_spec k "__proto__"); [done|]. by apply obj_put_fresh.
Qed.

Lemma obj_put_keys k v o :
  (obj_put k v o).*1 = if decide (k ∈ o.*1) then o.*1 else o.*1 ++ [k].
Proof.
  induction o as [|[k' v'] rest IH]; [done|].
  rewrite fmap_cons. cbn [obj_put fst].
  destruct (String.eqb_spec k k') as [->|Hne]; rewrite fmap_cons; cbn [fst].
  - rewrite decide_True by left. done.
  - rewrite IH. destruct (decide (k ∈ rest.*1)) as [Hin|Hout].
    + rewrite decide_True by (by right). done.
    + rewrite decide_False; [done|]. by intros [?|?]%elem_of_cons.
Qed.

(** Assignments keep a dictionary well keyed. *)
Lemma well_keyed_set k v o : well_keyed o → well_keyed (obj_set k v o).
Proof.
  intros [Hnd Hproto]. unfold obj_set.
  destruct (String.eqb_spec k "__proto__") as [->|Hk]; [done|].
  unfold well_keyed. rewrite obj_put_keys.
  destruct (decide (k ∈ o.*1)) as [Hin|Hout]; [done|]. split.
  - apply NoDup_app. split; [done|]. split.
    + intros x Hx [->|[]%elem_of_nil]%elem_of_cons. done.
    + apply NoDup_singleton.
  - intros [?|[?|[]%elem_of_nil]%elem_of_cons]%elem_of_app; [done|]. by subst.
Qed.

(** A run of assignments to fresh, ordinary keys appends its bindings. *)
Lemma assign_fresh (bindings : list (string * V)) : ∀ o,
  NoDup (o.*1 ++ bindings.*1) → "__proto__" ∉ bindings.*1 →
  foldl (λ o b, obj_set b.1 b.2 o) o bindings = o ++ bindings.
Proof.
  induction bindings as [|[k v] rest IH]; intros o Hnd Hproto; simpl.
  - by rewrite app_nil_r.
  - simpl in *. apply NoDup_app in Hnd as (Ho & Hdisj & Hrest).
    apply NoDup_cons in Hrest as [Hk Hrest].
    rewrite obj_set_fresh.
    + rewrite IH.
      * by rewrite <- app_assoc.
      * rewrite fmap_app. simpl. rewrite <- app_assoc. simpl.
        apply NoDup_app. split; [done|]. split; [|by apply NoDup_cons].
        intros x Hx. by apply Hdisj.
      * intros Hin. apply Hproto. by right.
    + intros ->. apply Hproto. left.
    + intros Hin. by apply (Hdisj k Hin); left.
Qed.

Lemma insert_sorted_perm e l : insert_sorted e l ≡ₚ e :: l.
Proof.
  induction l as [|x rest IH]; simpl; [done|].
  destruct (index_of e <=? index_of x)%Z; [done|].
  rewrite IH. apply Permutation_swap.
Qed.

Lemma sort_indices_perm l : sort_indices l ≡ₚ l.
Proof.
  induction l as [|x rest IH]; simpl; [done|].
  unfold sort_indices in *. simpl. by rewrite insert_sorted_perm, IH.
Qed.

Lemma insert_sorted_sorted e l :
  StronglySorted (λ x y, (index_of x ≤ index_of y)%Z) l →
  StronglySorted (λ x y, (index_of x ≤ index_of y)%Z) (insert_sorted e l).
Proof.
  induction 1 as [|x rest Hrest IH Hx]; simpl.
  - repeat constructor.
  - destruct (Z.leb_spec (index_of e) (index_of x)) as [Hle|Hgt].
    + constructor; [by constructor|]. constructor; [done|].
      eapply Forall_impl; [exact Hx|]. simpl. intros; lia.
    + constructor; [done|]. rewrite insert_sorted_perm.
      constructor; [lia|done].
Qed.

Lemma sort_indices_sorted l :
  StronglySorted (λ x y, (index_of x ≤ index_of y)%Z) (sort_indices l).
Proof.
  induction l as [|x rest IH]; [constructor|].
  unfold sort_indices in *. simpl. by apply insert_sorted_sorted.
Qed.

(** Sorting leaves an ascending list as it is. *)
Lemma sort_indices_sorted_id l :
  StronglySorted (λ x y, (index_of x ≤ index_of y)%Z) l → sort_indices l = l.
Proof.
  induction 1 as [|x rest Hrest IH Hx]; [done|].
  unfold sort_indices in *. simpl. rewrite IH.
  destruct rest as [|y rest']; [done|]. simpl.
  apply Forall_cons in Hx as [Hxy _].
  by destruct (Z.leb_spec (index_of x) (index_of y)); [|lia].
Qed.

Lemma filter_split (P : string * V → bool) l :
  List.filter P l ++ List.filter (λ e, negb (P e)) l ≡ₚ l.
Proof.
  induction l as [|x rest IH]; simpl; [done|].
  destruct (P x); simpl.
  - by rewrite IH.
  - rewrite <- Permutation_middle. by rewrite IH.
Qed.

(** [Object.entries] returns every own property once. *)
Lemma obj_entries_perm o : obj_entries o ≡ₚ o.
Proof. unfold obj_entries. rewrite sort_indices_perm. apply filter_split. Qed.

Lemma filter_all (P : string * V → bool) l :
  Forall (λ e, P e = true) l → List.filter P l = l.
Proof. induction 1 as [|x rest Hx _ IH]; simpl; [done|]. by rewrite Hx, IH. Qed.

Lemma filter_none (P : string * V → bool) l :
  Forall (λ e, P e = false) l → List.filter P l = [].
Proof. induction 1 as [|x rest Hx _ IH]; simpl; [done|]. by rewrite Hx. Qed.

Lemma obj_entries_canonical o : canonical (obj_entries o).
Proof.
  exists (sort_indices (List.filter is_index o)),
         (List.filter (λ e, negb (is_index e)) o).
  split; [done|]. split; [|split].
  - rewrite sort_indices_perm. apply Forall_forall. intros e He.
    apply list_elem_of_In, filter_In in He. apply He.
  - apply sort_indices_sorted.
  - apply Forall_forall. intros e He.
    apply list_elem_of_In, filter_In in He. destruct He as [_ He].
    by destruct (is_index e).
Qed.

(** Enumerating a list already laid out that way changes nothing. *)
Lemma canonical_entries l : canonical l → obj_entries l = l.
Proof.
  intros (indices & named & -> & Hidx & Hsorted & Hnamed). unfold obj_entries.
  rewrite !List.filter_app.
  rewrite (filter_all _ indices Hidx), (filter_none _ named Hnamed), app_nil_r.
  rewrite (filter_none _ indices), (filter_all _ named).
  - by rewrite sort_indices_sorted_id.
  - eapply Forall_impl; [exact Hnamed|]. simpl. by intros e ->.
  - eapply Forall_impl; [exact Hidx|]. simpl. by intros e ->.
Qed.

End Dictionaries.

Lemma is_index_key {V W} (e : string * V) (e' : string * W) :
  e'.1 = e.1 → is_index e' = is_index e ∧ index_of e' = index_of e.
Proof. unfold is_index, index_of. by intros ->. Qed.

(** Dropping or re-valuing entries keeps the layout of [Object.entries]. *)
Lemma canonical_omap {V W} (g : string * V → option (string * W)) l :
  (∀ e e', g e = Some e' → e'.1 = e.1) → canonical l → canonical (omap g l).
Proof.
  intros Hkey (indices & named & -> & Hidx & Hsorted & Hnamed).
  exists (omap g indices), (omap g named). rewrite omap_app.
  split; [done|]. split; [|split].
  - apply Forall_forall. intros e' (e & He & Hg)%list_elem_of_omap.
    destruct (is_index_key e e' (Hkey _ _ Hg)) as [-> _].
    by eapply Forall_forall in Hidx.
  - induction Hsorted as [|x rest Hrest IH Hx]; simpl; [constructor|].
    apply Forall_cons in Hidx as [_ Hidx]. specialize (IH Hidx).
    destruct (g x) as [x'|] eqn:Hgx; [|done].
    constructor; [done|].
    apply Forall_forall. intros e' (e & He & Hg)%list_elem_of_omap.
    destruct (is_index_key x x' (Hkey _ _ Hgx)) as [_ ->].
    destruct (is_index_key e e' (Hkey _ _ Hg)) as [_ ->].
    by eapply Forall_forall in Hx.
  - apply Forall_forall. intros e' (e & He & Hg)%list_elem_of_omap.
    destruct (is_index_key e e' (Hkey _ _ Hg)) as [-> _].
    by eapply Forall_forall in Hnamed.
Qed.

(** ** The loaders *)

Lemma for_of_cons_fulfilled {A} (x : A) rest body s s' t :
  for_of (x :: rest) body s = (Fulfilled tt, s', t) →
  ∃ flow s1 t1 t2,
    body x s = (Fulfilled flow, s1, t1) ∧ t = t1 ++ t2
    ∧ match flow with
      | Next => for_of rest body s1 = (Fulfilled tt, s', t2)
      | Return => s' = s1 ∧ t2 = []
      end.
Proof.
  intros (flow & s1 & t1 & t2 & Hbody & Hrest & ->)%bind_fulfilled.
  exists flow, s1, t1, t2. split; [done|]. split; [done|].
  destruct flow; [done|]. by injection Hrest as <- <-.
Qed.

Lemma model_calls_app t1 t2 : model_calls (t1 ++ t2) = model_calls t1 ++ model_calls t2.
Proof. apply omap_app. Qed.

Lemma service_events_app t1 t2 :
  service_events (t1 ++ t2) = service_events t1 ++ service_events t2.
Proof. apply List.filter_app. Qed.

Lemma no_model_calls t : Forall (λ e, is_model_event e = false) t → model_calls t = [].
Proof.
  induction 1 as [|e rest He _ IH]; [done|]. unfold model_calls in *.
  destruct e; simpl in *; done.
Qed.

Lemma no_service_events t :
  Forall (λ e, is_service_event e = false) t → service_events t = [].
Proof.
  induction 1 as [|e rest He _ IH]; [done|]. unfold service_events in *. simpl.
  by rewrite He.
Qed.

(** The first loop of [#loadModels] assigns one binding per file. *)
Lemma import_models_fulfilled E dir files : ∀ s s' t,
  for_of files (import_model E dir) s = (Fulfilled tt, s', t) →
  models (this s')
    = foldl (λ o b, obj_set b.1 b.2 o) (models (this s)) (model_binding E dir <$> files).
Proof.
  induction files as [|f rest IH]; intros s s' t Hrun.
  - by injection Hrun as <- _.
  - apply for_of_cons_fulfilled in Hrun as (flow & s1 & t1 & t2 & Hbody & _ & Hrest).
    unfold import_model, import in Hbody. revert Hbody. run.
    destruct (import_default E (path_resolve dir f)) as [x|e] eqn:Hx; [|done].
    run. intros [= <- <- _]. rewrite (IH _ _ _ Hrest). simpl.
    unfold imported. by rewrite Hx.
Qed.

(** The second loop calls the hook of each model it is given, once, in
    order, and changes nothing. *)
Lemma init_models_fulfilled loaded : ∀ s s' t,
  for_of loaded init_model s = (Fulfilled tt, s', t) →
  s' = s ∧ model_calls t = origin <$> loaded.
Proof.
  induction loaded as [|x rest IH]; intros s s' t Hrun.
  - by injection Hrun as <- <-.
  - apply for_of_cons_fulfilled in Hrun as (flow & s1 & t1 & t2 & Hbody & -> & Hrest).
    unfold init_model, call in Hbody. revert Hbody.
    destruct (export x) as [|[]]; run; try done; intros [= <- <- <-];
      destruct (IH _ _ _ Hrest) as [-> Hcalls];
      (split; [done|]); by rewrite model_calls_app, Hcalls.
Qed.

(** The second loop of [#loadServices] assigns one binding per module
    that has a service. *)
Lemma import_services_fulfilled E entries : ∀ s s' t,
  for_of entries (import_service E) s = (Fulfilled tt, s', t) →
  services (this s')
    = foldl (λ o b, obj_set b.1 b.2 o) (services (this s))
        (omap (service_binding E) entries).
Proof.
  induction entries as [|entry rest IH]; intros s s' t Hrun.
  - by injection Hrun as <- _.
  - apply for_of_cons_fulfilled in Hrun as (flow & s1 & t1 & t2 & Hbody & _ & Hrest).
    unfold import_service, import in Hbody. revert Hbody. simpl.
    unfold service_binding at 1.
    destruct (obj_get "service" entry.2) as [file|]; run.
    + destruct (import_default E file) as [x|e] eqn:Hx; [|done].
      run. intros [= <- <- _]. rewrite (IH _ _ _ Hrest). simpl.
      unfold imported. by rewrite Hx.
    + intros [= <- <- _]. by rewrite (IH _ _ _ Hrest).
Qed.

(** The third loop calls the hook of each service it is given and lets it
    complete before it goes to the next. *)
Lemma init_services_fulfilled entries : ∀ s s' t,
  for_of entries init_service s = (Fulfilled tt, s', t) →
  service_events t = flat_map (λ entry, awaited_init (origin entry.2)) entries.
Proof.
  induction entries as [|entry rest IH]; intros s s' t Hrun.
  - by injection Hrun as _ <-.
  - apply for_of_cons_fulfilled in Hrun as (flow & s1 & t1 & t2 & Hbody & -> & Hrest).
    unfold init_service, call_await, appLogger_call in Hbody. revert Hbody.
    destruct (export entry.2) as [|[]]; run; try done.
    destruct (appLogger (this s)); run; [|done].
    intros [= <- <- <-]. rewrite service_events_app, (IH _ _ _ Hrest). done.
Qed.

(** Hooks are called by the loaders only. *)
Lemma configure_calls_no_hook E : respects (same the_loaded) no_hook (configure E).
Proof. frame. Qed.

Lemma patchData_calls_no_hook E : respects (same the_modules) no_hook (patchData E).
Proof. frame. Qed.

Lemma activate_calls_no_hook E : respects (same the_modules) no_hook (activate E).
Proof. frame. Qed.

Lemma loadModels_calls_no_service E :
  respects (same (λ s, (services (this s), dirPath (this s))))
    (λ e, is_service_event e = false) (loadModels E).
Proof. frame. Qed.

Lemma loadServices_calls_no_model E :
  respects (same (λ _, ())) (λ e, is_model_event e = false) (loadServices E).
Proof. frame. Qed.

Lemma import_models_silent E dir files :
  respects (same (λ _, ())) (λ e, is_model_event e = false)
    (for_of files (import_model E dir)).
Proof. frame. Qed.

Lemma import_services_silent E entries :
  respects (same the_modules) (λ e, is_service_event e = false)
    (for_of entries (import_service E)).
Proof. frame. Qed.

Lemma init_services_keep_modules entries :
  respects (same the_modules) (λ _, True) (for_of entries init_service).
Proof. frame. Qed.

Lemma scan_modules_silent E dir dirNames modules :
  respects (same (λ s, s)) (λ e, is_service_event e = false)
    (scan_modules E dir dirNames modules).
Proof. frame. Qed.

(** The module structure the scan returns is well keyed. *)
Lemma scan_modules_fulfilled E dir dirNames : ∀ modules s found s' t,
  scan_modules E dir dirNames modules s = (Fulfilled found, s', t) →
  well_keyed modules → well_keyed found.
Proof.
  induction dirNames as [|d rest IH]; intros modules s found s' t Hrun Hwf.
  - by injection Hrun as <- _ _.
  - simpl in Hrun.
    apply bind_fulfilled in Hrun as (files & s1 & t1 & t2 & _ & Hrest & _).
    apply IH in Hrest; [done|]. by do 2 apply well_keyed_set.
Qed.

(** [#loadModels], when it completes on an instance without models and a
    well laid out directory, has called the hook of every file of the
    listing once, and no other. *)
Lemma loadModels_fulfilled E s s' t items :
  models (this s) = [] →
  readdirSync E (models_dir s) = Fulfilled items →
  valid_models items →
  loadModels E s = (Fulfilled tt, s', t) →
  model_calls t ≡ₚ path_resolve (models_dir s) <$> model_files items.
Proof.
  intros Hempty Hdir [Hnodup Hproto] Hrun. unfold loadModels in Hrun.
  apply bind_fulfilled in Hrun as (a & sa & ta & ta' & [= <- <- <-] & Hrun & ->).
  fold (models_dir s) in Hrun.
  apply bind_fulfilled in Hrun as (items' & sb & tb & tb' & Hread & Hrun & ->).
  unfold readdir in Hread. revert Hread. run. rewrite Hdir. intros [= <- <- <-].
  apply bind_fulfilled in Hrun as ([] & s2 & t2 & tc' & Hloop & Hrun & ->).
  apply bind_fulfilled in Hrun as (a & sd & td & t3 & [= <- <- <-] & Hinit & ->).
  apply init_models_fulfilled in Hinit as [-> Hcalls].
  destruct (import_models_silent E (models_dir s) (entry_name <$> js_files items) s)
    as [_ Hsilent].
  rewrite Hloop in Hsilent. simpl in Hsilent.
  simpl. rewrite model_calls_app, (no_model_calls _ Hsilent), Hcalls. simpl.
  apply import_models_fulfilled in Hloop. rewrite Hempty in Hloop.
  fold (model_files items) in Hloop.
  assert (models (this s2)
          = [] ++ (model_binding E (models_dir s) <$> model_files items)) as ->.
  { rewrite Hloop. apply assign_fresh.
    - simpl. by rewrite <- list_fmap_compose.
    - by rewrite <- list_fmap_compose. }
  simpl. unfold obj_values. rewrite obj_entries_perm.
  by rewrite <- !list_fmap_compose.
Qed.

Lemma omap_keys_notin {V W} (g : string * V → option (string * W)) l k :
  (∀ e e', g e = Some e' → e'.1 = e.1) → k ∉ l.*1 → k ∉ (omap g l).*1.
Proof.
  intros Hkey Hk ([k' w] & -> & (e & He & Hg)%list_elem_of_omap)%list_elem_of_fmap.
  apply Hk. apply list_elem_of_fmap. exists e. split; [|done].
  by rewrite <- (Hkey _ _ Hg).
Qed.

Lemma omap_keys_NoDup {V W} (g : string * V → option (string * W)) l :
  (∀ e e', g e = Some e' → e'.1 = e.1) → NoDup l.*1 → NoDup (omap g l).*1.
Proof.
  intros Hkey. induction l as [|e rest IH]; simpl; [done|].
  intros [Hfresh Hrest]%NoDup_cons. specialize (IH Hrest).
  destruct (g e) as [e'|] eqn:Hg; [|done]. simpl. apply NoDup_cons. split; [|done].
  rewrite (Hkey _ _ Hg). by apply omap_keys_notin.
Qed.

Lemma service_binding_key E entry b :
  service_binding E entry = Some b → b.1 = entry.1.
Proof.
  unfold service_binding. destruct (obj_get "service" entry.2); [|done].
  by intros [= <-].
Qed.

Lemma service_bindings_files E (entries : list (string * Obj string)) :
  flat_map (λ entry : string * Loaded, awaited_init (origin entry.2))
    (omap (service_binding E) entries)
  = flat_map awaited_init (omap (λ entry, obj_get "service" entry.2) entries).
Proof.
  induction entries as [|entry rest IH]; [done|]. cbn -[awaited_init].
  unfold service_binding at 1.
  destruct (obj_get "service" entry.2); cbn -[awaited_init]; by rewrite IH.
Qed.

(** [#loadServices], when it completes on an instance without services,
    has called the hook of the service of each module in the enumeration
    order of the module structure, each call completed before the next. *)
Lemma loadServices_fulfilled E s s' t :
  services (this s) = [] →
  loadServices E s = (Fulfilled tt, s', t) →
  service_events t
    = flat_map awaited_init (service_files (moduleStructure (this s'))).
Proof.
  intros Hempty Hrun. unfold loadServices in Hrun.
  apply bind_fulfilled in Hrun as (a & sa & ta & ta' & [= <- <- <-] & Hrun & ->).
  apply bind_fulfilled in Hrun as (dirs & sb & tb & tb' & Hread & Hrun & ->).
  unfold readdir in Hread. revert Hread. run.
  destruct (readdirSync E _) as [listing|]; [|done]. intros [= <- <- <-].
  apply bind_fulfilled in Hrun as (modules & s1 & t1 & tc' & Hscan & Hrun & ->).
  pose proof (scan_modules_fulfilled _ _ _ _ _ _ _ _ Hscan) as Hkeyed.
  destruct (scan_modules_silent E (path_resolve (dirPath (this s)) "api/modules")
              (entry_name <$> List.filter isDirectory listing) [] s)
    as [Hsame Hquiet1].
  rewrite Hscan in Hsame, Hquiet1. simpl in Hsame, Hquiet1.
  unfold same in Hsame. subst s1.
  apply bind_fulfilled in Hrun as ([] & sd & td & td' & [= <- <-] & Hrun & ->).
  apply bind_fulfilled in Hrun as (a & se & te & te' & [= <- <- <-] & Hrun & ->).
  simpl in Hrun.
  apply bind_fulfilled in Hrun as ([] & s2 & t2 & tf' & Hload & Hrun & ->).
  apply bind_fulfilled in Hrun as (a & sg & tg & t3 & [= <- <- <-] & Hinit & ->).
  destruct (import_services_silent E (obj_entries modules)
              {| this := with_moduleStructure modules (this s);
                 Patch := Patch s; clock := clock s |}) as [Hsame2 Hquiet2].
  rewrite Hload in Hsame2, Hquiet2. simpl in Hsame2, Hquiet2.
  destruct (init_services_keep_modules (obj_entries (services (this s2))) s2)
    as [Hsame3 _].
  rewrite Hinit in Hsame3. simpl in Hsame3.
  unfold same, the_modules in Hsame2, Hsame3. simpl in Hsame2.
  rewrite Hsame3, Hsame2.
  apply init_services_fulfilled in Hinit.
  apply import_services_fulfilled in Hload. simpl in Hload. rewrite Hempty in Hload.
  assert (well_keyed (obj_entries modules)) as [Hnodup Hproto].
  { destruct Hkeyed as [Hnd Hp]; [split; [constructor|apply not_elem_of_nil]|].
    unfold well_keyed. by rewrite (obj_entries_perm modules). }
  assert (services (this s2) = [] ++ omap (service_binding E) (obj_entries modules))
    as Hservices.
  { rewrite Hload. apply assign_fresh; simpl.
    - apply omap_keys_NoDup; [apply service_binding_key|done].
    - apply omap_keys_notin; [apply service_binding_key|done]. }
  simpl in Hservices. rewrite Hservices in Hinit.
  rewrite canonical_entries in Hinit
    by (apply canonical_omap;
        [apply service_binding_key|apply obj_entries_canonical]).
  simpl. rewrite !service_events_app, (no_service_events _ Hquiet1),
    (no_service_events _ Hquiet2), Hinit. simpl.
  apply service_bindings_files.
Qed.

#[local] Instance path_resolve_inj dir : Inj (=) (=) (path_resolve dir).
Proof.
  intros f f' Heq. unfold path_resolve in Heq.
  by do 2 apply (inj (String.app _)) in Heq.
Qed.

Lemma no_hooks t : Forall no_hook t → model_calls t = [] ∧ service_events t = [].
Proof.
  intros Hquiet. split.
  - apply no_model_calls. eapply Forall_impl; [exact Hquiet|]. by intros e [].
  - apply no_service_events. eapply Forall_impl; [exact Hquiet|]. by intros e [].
Qed.

(** C7. During an [init()] that passes the guard and completes, on an
    instance of the class whose models directory is well laid out:
    the hook of each discovered model is called exactly once; every model
    hook call comes before every service hook call; and the service hooks
    are called in the enumeration order of the module structure, each one
    completed before the next is called. *)
Theorem hooks_run_in_order E s s' t items :
  class_instance s →
  status (this s) = created →
  readdirSync E (models_dir s) = Fulfilled items →
  valid_models items →
  init E s = (Fulfilled tt, s', t) →
  model_calls t ≡ₚ path_resolve (models_dir s) <$> model_files items
  ∧ NoDup (model_calls t)
  ∧ (∃ t1 t2, t = t1 ++ t2 ∧ service_events t1 = [] ∧ model_calls t2 = [])
  ∧ service_events t
      = flat_map awaited_init (service_files (moduleStructure (this s'))).
Proof.
  intros (_ & _ & Hempty) Hcreated Hdir Hvalid Hrun.
  destruct (Hempty Hcreated) as [Hmodels Hservices].
  rewrite (init_launch _ _ (or_introl Hcreated)) in Hrun.
  apply bind_fulfilled in Hrun as ([] & sb & tb & tb' & Hboot & Hrun & ->).
  apply bind_fulfilled in Hrun as ([] & sp & tp & ta & Hpatch & Hact & ->).
  unfold bootstrap in Hboot.
  apply bind_fulfilled in Hboot as ([] & sc & tc & tc' & Hconf & Hboot & ->).
  apply bind_fulfilled in Hboot as ([] & sm & tm & tm' & Hmod & Hboot & ->).
  apply bind_fulfilled in Hboot as ([] & ss & ts & ts' & Hsrv & [= <- <-] & ->).
  (* the stages around the loaders *)
  destruct (configure_calls_no_hook E (launch s)) as [Hsame_c Hquiet_c].
  rewrite Hconf in Hsame_c, Hquiet_c. simpl in Hsame_c, Hquiet_c.
  unfold same, the_loaded in Hsame_c. simpl in Hsame_c.
  injection Hsame_c as Hmodels_c Hservices_c Hdir_c.
  destruct (loadModels_calls_no_service E sc) as [Hsame_m Hquiet_m].
  rewrite Hmod in Hsame_m, Hquiet_m. simpl in Hsame_m, Hquiet_m.
  unfold same in Hsame_m. injection Hsame_m as Hservices_m _.
  destruct (loadServices_calls_no_model E sm) as [_ Hquiet_s].
  rewrite Hsrv in Hquiet_s. simpl in Hquiet_s.
  destruct (patchData_calls_no_hook E ss) as [Hsame_p Hquiet_p].
  rewrite Hpatch in Hsame_p, Hquiet_p. simpl in Hsame_p, Hquiet_p.
  destruct (activate_calls_no_hook E sp) as [Hsame_a Hquiet_a].
  rewrite Hact in Hsame_a, Hquiet_a. simpl in Hsame_a, Hquiet_a.
  unfold same, the_modules in Hsame_p, Hsame_a.
  destruct (no_hooks _ Hquiet_c) as [Hc1 Hc2].
  destruct (no_hooks _ Hquiet_p) as [Hp1 Hp2].
  destruct (no_hooks _ Hquiet_a) as [Ha1 Ha2].
  (* the loaders *)
  assert (models_dir sc = models_dir s) as Hmd
    by (unfold models_dir; by rewrite Hdir_c).
  assert (model_calls tm ≡ₚ path_resolve (models_dir s) <$> model_files items)
    as Hcalls.
  { rewrite <- Hmd. eapply loadModels_fulfilled; [| |done|done].
    - by rewrite Hmodels_c.
    - by rewrite Hmd. }
  assert (service_events ts
          = flat_map awaited_init (service_files (moduleStructure (this s'))))
    as Hevents.
  { rewrite Hsame_a, Hsame_p. apply (loadServices_fulfilled E sm); [|done].
    by rewrite Hservices_m, Hservices_c. }
  assert (model_calls ((tc ++ tm ++ ts ++ [ProcessOn "SIGINT"]) ++ tp ++ ta)
          = model_calls tm) as Hall.
  { rewrite !model_calls_app, Hc1, Hp1, Ha1, (no_model_calls _ Hquiet_s). simpl.
    by rewrite !app_nil_r. }
  rewrite Hall. split; [done|]. split; [|split].
  - rewrite Hcalls. apply NoDup_fmap_2; [apply _|].
    destruct Hvalid as [Hnodup _]. by apply NoDup_fmap_1 in Hnodup.
  - exists (tc ++ tm), (ts ++ [ProcessOn "SIGINT"] ++ tp ++ ta).
    split; [by rewrite <- !app_assoc|]. split.
    + by rewrite service_events_app, Hc2, (no_service_events _ Hquiet_m).
    + by rewrite !model_calls_app, (no_model_calls _ Hquiet_s), Hp1, Ha1.
  - rewrite !service_events_app, Hc2, (no_service_events _ Hquiet_m), Hp2, Ha2,
      Hevents. simpl. by rewrite !app_nil_r.
Qed.

(** The test deployment in web mode: one model, three modules with a
    service each; module [7] comes first in the module structure. *)
Lemma hooks_run_in_order_witness :
  class_instance (Sample.fresh ∅)
  ∧ status (this (Sample.fresh ∅)) = created
  ∧ readdirSync (Sample.running "web" []) (models_dir (Sample.fresh ∅))
      = Fulfilled [Sample.file "Product.js"; Sample.file "README.md"]
  ∧ valid_models [Sample.file "Product.js"; Sample.file "README.md"]
  ∧ init (Sample.running "web" []) (Sample.fresh ∅)
      = (Fulfilled tt, Sample.started, Sample.start_trace)
  ∧ model_calls Sample.start_trace
      ≡ₚ path_resolve (models_dir (Sample.fresh ∅))
           <$> model_files [Sample.file "Product.js"; Sample.file "README.md"]
  ∧ NoDup (model_calls Sample.start_trace)
  ∧ (∃ t1 t2, Sample.start_trace = t1 ++ t2
              ∧ service_events t1 = [] ∧ model_calls t2 = [])
  ∧ service_events Sample.start_trace
      = flat_map awaited_init
          (service_files (moduleStructure (this Sample.started))).
Proof.
  assert (valid_models [Sample.file "Product.js"; Sample.file "README.md"])
    as Hvalid.
  { split; simpl.
    - apply NoDup_singleton.
    - by intros [?|[]%elem_of_nil]%elem_of_cons. }
  assert (class_instance (Sample.fresh ∅)) as Hclass by (by repeat split).
  split; [exact Hclass|]. split; [reflexivity|].
  split; [reflexivity|]. split; [exact Hvalid|].
  split; [vm_compute; reflexivity|].
  apply (hooks_run_in_order (Sample.running "web" []) (Sample.fresh ∅)
           Sample.started Sample.start_trace
           [Sample.file "Product.js"; Sample.file "README.md"]).
  - exact Hclass.
  - reflexivity.
  - reflexivity.
  - exact Hvalid.
  - vm_compute; reflexivity.
Defined.

(** What that start looks like: the model first, then the services of
    [7], [catalog] and [billing], one after the other. *)
Lemma hooks_of_the_test_deployment :
  model_calls Sample.start_trace = ["/app/api/models/Product.js"]
  ∧ service_events Sample.start_trace
      = [ServiceInit "/app/api/modules/7/service.js";
         ServiceReady "/app/api/modules/7/service.js";
         ServiceInit "/app/api/modules/catalog/service.js";
         ServiceReady "/app/api/modules/catalog/service.js";
         ServiceInit "/app/api/modules/billing/service.js";
         ServiceReady "/app/api/modules/billing/service.js"].
Proof. split; vm_compute; reflexivity. Qed.

(** ** Runs that differ in the password only *)

Lemma log_lines_app t1 t2 : log_lines (t1 ++ t2) = log_lines t1 ++ log_lines t2.
Proof. apply omap_app. Qed.

Lemma blind_inv s1 s2 :
  blind s1 = blind s2 →
  blind_app (this s1) = blind_app (this s2)
  ∧ Patch s1 = Patch s2 ∧ clock s1 = clock s2.
Proof.
  intros Hs. split; [exact (f_equal this Hs)|].
  split; [exact (f_equal Patch Hs)|exact (f_equal clock Hs)].
Qed.

Lemma twins_ret {A} (RA : A → A → Prop) a1 a2 : RA a1 a2 → twins RA (mret a1) (mret a2).
Proof. by intros Ha s1 s2 Hs. Qed.

Lemma twins_throw {A} (RA : A → A → Prop) e : twins RA (throw e) (throw e).
Proof. by intros s1 s2 Hs. Qed.

Lemma twins_await {A} (RA : A → A → Prop) r1 r2 :
  agree RA r1 r2 → twins RA (await r1) (await r2).
Proof. by intros Hr s1 s2 Hs. Qed.

Lemma twins_self : twins (λ a1 a2, blind_app a1 = blind_app a2) self self.
Proof. intros s1 s2 Hs. split; [by apply blind_inv|done]. Qed.

Lemma twins_collection_Patch : twins eq collection_Patch collection_Patch.
Proof. intros s1 s2 Hs. split; [|done]. by apply blind_inv. Qed.

Lemma twins_emit e1 e2 : log_lines [e1] = log_lines [e2] → twins eq (emit e1) (emit e2).
Proof. by intros He s1 s2 Hs. Qed.

Lemma twins_assign f1 f2 :
  (∀ a1 a2, blind_app a1 = blind_app a2 → blind_app (f1 a1) = blind_app (f2 a2)) →
  twins eq (assign f1) (assign f2).
Proof.
  intros Hf s1 s2 Hs. destruct (blind_inv _ _ Hs) as (Hthis & Hpatch & Hclock).
  split; [done|]. split; [|done]. simpl. unfold blind. simpl.
  by rewrite (Hf _ _ Hthis), Hpatch, Hclock.
Qed.

Lemma twins_new_Date : twins eq new_Date new_Date.
Proof.
  intros s1 s2 Hs. destruct (blind_inv _ _ Hs) as (Hthis & Hpatch & Hclock).
  simpl. split; [done|]. split; [|done]. unfold blind. simpl. congruence.
Qed.

Lemma twins_write_Patch f : twins eq (write_Patch f) (write_Patch f).
Proof.
  intros s1 s2 Hs. destruct (blind_inv _ _ Hs) as (Hthis & Hpatch & Hclock).
  simpl. split; [done|]. split; [|done]. unfold blind. simpl. congruence.
Qed.

Lemma twins_bind {A B} (RA : A → A → Prop) (RB : B → B → Prop) m1 m2 f1 f2 :
  twins RA m1 m2 → (∀ a1 a2, RA a1 a2 → twins RB (f1 a1) (f2 a2)) →
  twins RB (m1 ≫= f1) (m2 ≫= f2).
Proof.
  intros Hm Hf s1 s2 Hs. rewrite !bind_run. specialize (Hm s1 s2 Hs).
  destruct (m1 s1) as [[[a1|e1] s1'] t1], (m2 s2) as [[[a2|e2] s2'] t2];
    simpl in Hm; destruct Hm as (Hr & Hs' & Ht); try done.
  specialize (Hf a1 a2 Hr s1' s2' Hs').
  destruct (f1 a1 s1') as [[r1 s1''] t1'], (f2 a2 s2') as [[r2 s2''] t2'].
  simpl in *. destruct Hf as (? & ? & ?). rewrite !log_lines_app.
  split; [done|]. split; [done|]. by f_equal.
Qed.

Lemma twins_try_catch {A} (RA : A → A → Prop) m1 m2 h1 h2 :
  twins RA m1 m2 → (∀ e, twins RA (h1 e) (h2 e)) →
  twins RA (try_catch m1 h1) (try_catch m2 h2).
Proof.
  intros Hm Hh s1 s2 Hs. unfold try_catch. specialize (Hm s1 s2 Hs).
  destruct (m1 s1) as [[[a1|e1] s1'] t1], (m2 s2) as [[[a2|e2] s2'] t2];
    simpl in Hm; destruct Hm as (Hr & Hs' & Ht); try done.
  subst e2. specialize (Hh e1 s1' s2' Hs').
  destruct (h1 e1 s1') as [[r1 s1''] t1'], (h2 e1 s2') as [[r2 s2''] t2'].
  simpl in *. destruct Hh as (? & ? & ?). rewrite !log_lines_app.
  split; [done|]. split; [done|]. by f_equal.
Qed.

Lemma twins_for_of {A} (xs : list A) b1 b2 :
  (∀ x, twins eq (b1 x) (b2 x)) → twins eq (for_of xs b1) (for_of xs b2).
Proof.
  intros Hb. induction xs as [|x rest IH]; simpl.
  - by apply twins_ret.
  - apply (twins_bind eq); [apply Hb|]. intros flow ? <-.
    destruct flow; [done|by apply twins_ret].
Qed.

Lemma twins_scan_modules p E dir dirNames : ∀ modules,
  twins eq (scan_modules E dir dirNames modules)
    (scan_modules (rekeyed p E) dir dirNames modules).
Proof.
  induction dirNames as [|d rest IH]; intros modules; simpl.
  - by apply twins_ret.
  - apply (twins_bind eq); [|intros files ? <-; apply IH].
    unfold readdir. apply (twins_bind eq); [by apply twins_emit|].
    intros _ _ _. apply twins_await. simpl. by destruct (readdirSync E _).
Qed.

Lemma agree_refl {A} (r : Settled A) : agree eq r r.
Proof. by destruct r. Qed.

(** An assignment that treats the two instances alike keeps them alike. *)
Ltac alike_assign :=
  let a1 := fresh "a" in
  let a2 := fresh "a" in
  let Ha := fresh "Ha" in
  intros a1 a2 Ha; destruct a1, a2;
  unfold blind_app, blind_config, with_password in *; simpl in *;
  injection Ha; intros; subst; f_equal; congruence.

(** Brings the fields on which two alike instances agree to the same
    form. *)
Ltac expose Ha :=
  unfold blind_app, blind_config, with_password in Ha;
  injection Ha; clear Ha; intros;
  repeat match goal with
         | H : ?x = ?y |- context [?x] => rewrite H
         end.

Ltac twin_step :=
  lazymatch goal with
  | |- twins _ (mret _) (mret _) => by apply twins_ret
  | |- twins _ (throw _) (throw _) => apply twins_throw
  | |- twins _ (await _) (await _) => apply twins_await; simpl; apply agree_refl
  | |- twins _ collection_Patch collection_Patch => apply twins_collection_Patch
  | |- twins _ (emit _) (emit _) => by apply twins_emit
  | |- twins _ (assign _) (assign _) => apply twins_assign; alike_assign
  | |- twins _ new_Date new_Date => apply twins_new_Date
  | |- twins _ (write_Patch _) (write_Patch _) => apply twins_write_Patch
  | |- twins _ (self ≫= _) (self ≫= _) =>
      let Ha := fresh "Ha" in
      eapply twins_bind; [apply twins_self|intros ? ? Ha; expose Ha]
  | |- twins _ (_ ≫= _) (_ ≫= _) => apply (twins_bind eq); [|intros ? ? <-]
  | |- twins _ (try_catch _ _) (try_catch _ _) =>
      apply twins_try_catch; [|intros ?]
  | |- twins _ (for_of _ _) (for_of _ _) => apply twins_for_of; intros ?
  | |- twins _ (scan_modules _ _ _ _) (scan_modules _ _ _ _) =>
      apply twins_scan_modules
  | |- twins _ (match ?x with _ => _ end) (match ?x with _ => _ end) => destruct x
  | |- twins _ (match ?x with _ => _ end) (match ?y with _ => _ end) =>
      destruct x eqn:?, y eqn:?; simplify_eq/=
  | |- twins _ (?method _ _ _) (?method _ _ _) => unfold method
  | |- twins _ (?method _ _) (?method _ _) => unfold method
  | |- twins _ (?method _) (?method _) => unfold method
  | |- twins _ ?method ?method => unfold method
  end.

Ltac twin := repeat twin_step.

Section Rekeyed.
Context (p : JsVal) (E : Env).

Lemma twins_appLogger_call lvl line :
  twins eq (appLogger_call lvl line) (appLogger_call lvl line).
Proof. twin. Qed.

Lemma twins_loadModels : twins eq (loadModels E) (loadModels (rekeyed p E)).
Proof. twin. Qed.

Lemma twins_loadServices : twins eq (loadServices E) (loadServices (rekeyed p E)).
Proof. twin. Qed.

Lemma twins_destroy : twins eq (destroy E) (destroy (rekeyed p E)).
Proof. twin. Qed.

Lemma twins_patchData : twins eq (patchData E) (patchData (rekeyed p E)).
Proof. twin. Qed.

Lemma twins_activate : twins eq (activate E) (activate (rekeyed p E)).
Proof. twin. Qed.

(** The database answers the same whatever the URL it is reached by. *)
Hypothesis same_answer : ∀ url url', connect E url = connect E url'.

Lemma twins_initMongo : twins eq (initMongo E) (initMongo (rekeyed p E)).
Proof.
  unfold initMongo. eapply twins_bind; [apply twins_self|].
  intros a1 a2 Ha. expose Ha.
  destruct (mongo_section (config a1)) as [c1|] eqn:Hc1,
           (mongo_section (config a2)) as [c2|] eqn:Hc2;
    simplify_eq/=; [|apply twins_throw].
  apply (twins_bind eq); [apply twins_assign; alike_assign|intros ? ? <-].
  apply (twins_bind eq); [by apply twins_emit|intros ? ? <-].
  apply (twins_bind eq); [|intros ? ? <-].
  { apply twins_await. rewrite (same_answer _ (mongo_url c2)). apply agree_refl. }
  unfold mongo_url_logged.
  repeat match goal with
         | H : ?x = ?y |- context [?x] => rewrite H
         end.
  apply (twins_bind eq); [apply twins_assign; alike_assign|intros ? ? <-].
  apply twins_appLogger_call.
Qed.

Lemma twins_configure : twins eq (configure E) (configure (rekeyed p E)).
Proof.
  unfold configure. apply (twins_bind eq); [by apply twins_emit|intros ? ? <-].
  apply (twins_bind (λ c1 c2, blind_config c1 = blind_config c2)).
  { apply twins_await. simpl. destruct (config_init E) as [c|]; simpl; [|done].
    unfold blind_config, with_password. simpl. f_equal.
    by destruct (mongo_section c). }
  intros c1 c2 Hc. apply (twins_bind eq); [|intros ? ? <-].
  { apply twins_assign. intros this1 this2 Ha.
    change (with_config (blind_config c1) (blind_app this1)
            = with_config (blind_config c2) (blind_app this2)).
    by rewrite Ha, Hc. }
  apply (twins_bind eq); [twin|intros ? ? <-].
  eapply twins_bind; [apply twins_self|]. intros this1 this2 Ha. expose Ha.
  apply (twins_bind eq); [|intros ? ? <-; twin].
  destruct (mongo_section (config this1)) eqn:?,
           (mongo_section (config this2)) eqn:?;
    simplify_eq/=; [apply twins_initMongo|by apply twins_ret].
Qed.

Lemma twins_bootstrap : twins eq (bootstrap E) (bootstrap (rekeyed p E)).
Proof.
  unfold bootstrap.
  apply (twins_bind eq); [apply twins_configure|intros ? ? <-].
  apply (twins_bind eq); [apply twins_loadModels|intros ? ? <-].
  apply (twins_bind eq); [apply twins_loadServices|intros ? ? <-].
  by apply twins_emit.
Qed.

Lemma twins_init : twins eq (init E) (init (rekeyed p E)).
Proof.
  unfold init. eapply twins_bind; [apply twins_self|]. intros a1 a2 Ha. expose Ha.
  destruct (negb (status_eqb (status a2) created)
            && negb (status_eqb (status a2) stopped)).
  - apply twins_appLogger_call.
  - apply (twins_bind eq); [apply twins_assign; alike_assign|intros ? ? <-].
    apply (twins_bind eq); [apply twins_bootstrap|intros ? ? <-].
    apply (twins_bind eq); [apply twins_patchData|intros ? ? <-].
    apply twins_activate.
Qed.

End Rekeyed.

(** ** The database URL and the log *)

(** [#initMongo] on a configured instance whose database answers. *)
Lemma initMongo_fulfilled E s c l :
  mongo_section (config (this s)) = Some c →
  appLogger (this s) = Some l →
  connect E (mongo_url c) = Fulfilled tt →
  initMongo E s
    = (Fulfilled tt,
       {| this := with_mongo (Some (DbHandle (database c)))
                    (with_mongoClient (Some (Client (mongo_url c))) (this s));
          Patch := Patch s; clock := clock s |},
       [Connect (mongo_url c);
        Log always ("База данных подключена по адресу " +:+ mongo_url_logged c)]).
Proof.
  intros Hc Hl Hconnect. unfold initMongo, appLogger_call. run.
  rewrite Hc. run. rewrite Hconnect. run. by rewrite Hl.
Qed.




(** ** The instances the class can produce *)

Lemma init_keeps_db E : respects (same (λ s, db (this s))) (λ _, True) (init E).
Proof. frame. Qed.

Lemma destroy_keeps_db E : respects (same (λ s, db (this s))) (λ _, True) (destroy E).
Proof. frame. Qed.

(** An [init()] that completes past the guard leaves the instance
    [active]. *)
Lemma init_fulfilled_active E s s' t :
  status (this s) = created ∨ status (this s) = stopped →
  init E s = (Fulfilled tt, s', t) →
  status (this s') = active.
Proof.
  intros Hidle Hrun. rewrite (init_launch _ _ Hidle) in Hrun.
  apply bind_fulfilled in Hrun as ([] & sb & tb & tb' & _ & Hrun & _).
  apply bind_fulfilled in Hrun as ([] & sp & tp & tp' & _ & Hrun & _).
  unfold activate in Hrun.
  apply bind_fulfilled in Hrun as ([] & sd & td & td' & _ & Hrun & _).
  apply bind_fulfilled in Hrun as (a & sa & ta & ta' & _ & Hrun & _).
  apply bind_fulfilled in Hrun as ([] & sl & tl & tl' & _ & Hrun & _).
  by injection Hrun as <- _.
Qed.

Lemma class_instance_new dir pkg node_env records now :
  class_instance {| this := new dir pkg node_env; Patch := records; clock := now |}.
Proof. by repeat split. Qed.

Lemma class_instance_call c s :
  class_instance s → class_instance (run_call c s).1.2.
Proof.
  intros (Hdb & Hstopped & Hcreated). destruct c as [E|E]; simpl.
  - destruct (init_keeps_db E s) as [Hsame _]. unfold same in Hsame.
    destruct (decide (status (this s) = created)) as [Hidle|Hbusy].
    + destruct (init E s) as [[[[]|e] s'] t] eqn:Hrun; simpl in *.
      * pose proof (init_fulfilled_active _ _ _ _ (or_introl Hidle) Hrun) as Hs'.
        split; [congruence|]. rewrite Hs'. by split.
      * pose proof (init_rejected_launching _ _ _ _ _ (or_introl Hidle) Hrun) as Hs'.
        split; [congruence|]. rewrite Hs'. by split.
    + rewrite (init_guarded E s) by done.
      by destruct (appLogger (this s)).
  - destruct (destroy_keeps_db E s) as [Hsame _]. unfold same in Hsame.
    destruct (destroy_keeps_status E s) as [Hstatus _].
    unfold same, the_status in Hstatus.
    destruct (decide (status (this s) = created)) as [Hidle|Hbusy].
    + by rewrite (destroy_idle E s (or_introl Hidle)).
    + split; [congruence|]. rewrite Hstatus. by split.
Qed.

(** Every instance reached from [new Application(...)] by calls of its
    two public methods is such an instance: the hypotheses made on
    instances in this file hold of all of them. *)
Lemma class_instances calls : ∀ s,
  class_instance s → class_instance (run_calls calls s).1.
Proof.
  induction calls as [|c rest IH]; intros s Hs; [done|]. simpl.
  pose proof (class_instance_call c s Hs) as Hc.
  destruct (run_call c s) as [[r s1] t1]. simpl in Hc.
  specialize (IH s1 Hc). by destruct (run_calls rest s1).
Qed.

Import Observations.

(** ** What destroy() leaves behind *)

Lemma destroy_frame E : respects (same (λ s, s)) (λ _, True) (destroy E).
Proof. frame. Qed.

(** X1. [destroy()] assigns nothing: however it ends, every field of the
    instance (status, server, scheduler, database handles, dictionaries)
    and the [Patch] collection are as they were before the call. *)
Theorem destroy_leaves_the_instance_as_it_was E s :
  (destroy E s).1.2 = s.
Proof. by destruct (destroy_frame E s). Qed.

Lemma not_idle s :
  status (this s) ≠ created → status (this s) ≠ stopped →
  status_eqb (status (this s)) created || status_eqb (status (this s)) stopped = false.
Proof. by destruct (status (this s)). Qed.

(** X2. When [server.close()] rejects, [destroy()] rethrows at that
    point: [io.close()] and [mongoClient.close()] are never called, and
    nothing is logged. *)
Theorem failed_server_close_leaves_the_database_open E s e :
  status (this s) ≠ created → status (this s) ≠ stopped →
  server (this s) = Some (Server true) →
  server_close E = Rejected e →
  destroy E s = (Rejected e, s, cron_stop s ++ [SocketsDisconnect; ServerClose]).
Proof.
  intros Hc Hs Hserver Hclose. unfold destroy, cron_stop. run.
  rewrite (not_idle s Hc Hs). run. rewrite Hserver, Hclose.
  by destruct (cron (this s)); run; destruct s.
Qed.

Lemma failed_server_close_leaves_the_database_open_witness :
  destroy Scenario.closing_fails Sample.started
    = (Rejected (Thrown "close"), Sample.started,
       cron_stop Sample.started ++ [SocketsDisconnect; ServerClose]).
Proof.
  apply (failed_server_close_leaves_the_database_open Scenario.closing_fails
           Sample.started (Thrown "close")).
  - vm_compute. discriminate.
  - vm_compute. discriminate.
  - vm_compute. reflexivity.
  - reflexivity.
Defined.

(** X3. When one of the plugins that [#runWebServer] registers before the
    routers fails, the server is left on the instance without its [io]
    decoration; a [destroy()] of that instance then throws a [TypeError] on
    [this.server.io] before it closes anything, the database client
    included. *)
Theorem failed_plugin_registration_breaks_destroy E E' s plugin e :
  status (this s) ≠ created → status (this s) ≠ stopped →
  plugin ∈ plugins → register E plugin = Rejected e →
  ∃ e' t,
    runWebServer E s = (Rejected e', half_started s, t)
    ∧ destroy E' (half_started s)
        = (Rejected (TypeError "this.server.io"), half_started s,
           cron_stop s).
Proof.
  intros Hc Hs Hin Hfail.
  assert (destroy E' (half_started s)
          = (Rejected (TypeError "this.server.io"), half_started s, cron_stop s))
    as Hdestroy.
  { unfold destroy, cron_stop. run. rewrite (not_idle s Hc Hs). run.
    by destruct (cron (this s)); run. }
  unfold runWebServer, server_register. run. fold (half_started s).
  destruct (register E "cors") as [[]|e1] eqn:H1; run; [|by eexists _, _].
  destruct (register E "static") as [[]|e2] eqn:H2; run; [|by eexists _, _].
  destruct (register E "swagger") as [[]|e3] eqn:H3; run; [|by eexists _, _].
  destruct (register E "socketIoApi") as [[]|e4] eqn:H4; run; [|by eexists _, _].
  unfold plugins in Hin. rewrite !elem_of_cons, elem_of_nil in Hin.
  destruct Hin as [->|[->|[->|[->|[]]]]]; congruence.
Qed.

Lemma failed_plugin_registration_breaks_destroy_witness :
  ∃ e' t,
    runWebServer Scenario.swagger_fails Sample.booted
      = (Rejected e', half_started Sample.booted, t)
    ∧ destroy (Sample.running "web" []) (half_started Sample.booted)
        = (Rejected (TypeError "this.server.io"), half_started Sample.booted,
           cron_stop Sample.booted).
Proof.
  apply (failed_plugin_registration_breaks_destroy Scenario.swagger_fails
           (Sample.running "web" []) Sample.booted "swagger" (Thrown "swagger")).
  - vm_compute. discriminate.
  - vm_compute. discriminate.
  - unfold plugins. apply list_elem_of_In. simpl. tauto.
  - reflexivity.
Defined.

(** ** Starting twice *)

Lemma init_fulfilled_logger E s s' t :
  status (this s) = created ∨ status (this s) = stopped →
  init E s = (Fulfilled tt, s', t) →
  is_Some (appLogger (this s')).
Proof.
  intros Hidle Hrun. rewrite (init_launch _ _ Hidle) in Hrun.
  apply bind_fulfilled in Hrun as ([] & sb & tb & tb' & _ & Hrun & _).
  apply bind_fulfilled in Hrun as ([] & sp & tp & tp' & _ & Hrun & _).
  unfold activate in Hrun.
  apply bind_fulfilled in Hrun as ([] & sd & td & td' & _ & Hrun & _).
  apply bind_fulfilled in Hrun as (a & sa & ta & ta' & Hself & Hrun & _).
  apply bind_fulfilled in Hrun as ([] & sl & tl & tl' & Hlog & Hrun & _).
  injection Hrun as <- _. simpl.
  unfold appLogger_call in Hlog. rewrite bind_run in Hlog. simpl in Hlog.
  destruct (appLogger (this sa)) eqn:Hl; [|done].
  injection Hlog as <- _. by rewrite Hl.
Qed.

(** X4. An [init()] that completes past the guard leaves the instance
    [active]; a second [init()], whatever its surroundings, then only
    reports the double start to the application logger and leaves the
    instance as it is. *)
Theorem second_init_only_reports E E' s s' t :
  status (this s) = created ∨ status (this s) = stopped →
  init E s = (Fulfilled tt, s', t) →
  status (this s') = active
  ∧ init E' s' = (Fulfilled tt, s', [Log error already_running]).
Proof.
  intros Hidle Hrun.
  pose proof (init_fulfilled_active _ _ _ _ Hidle Hrun) as Hactive.
  pose proof (init_fulfilled_logger _ _ _ _ Hidle Hrun) as [l Hl].
  split; [done|]. rewrite init_guarded by (rewrite Hactive; done). by rewrite Hl.
Qed.

Lemma second_init_only_reports_witness :
  status (this Sample.started) = active
  ∧ init (Sample.running "cron" []) Sample.started
      = (Fulfilled tt, Sample.started, [Log error already_running]).
Proof.
  apply (second_init_only_reports (Sample.running "web" [])
           (Sample.running "cron" []) (Sample.fresh ∅) Sample.started
           Sample.start_trace).
  - by left.
  - vm_compute. reflexivity.
Defined.

(** X5. Whatever sequence of [init()] and [destroy()] calls an instance
    built by the constructor receives, and whatever its collaborators
    answer, its status is never [stopped] and it never has a [db]
    property. *)
Theorem no_instance_is_ever_stopped calls dir pkg node_env records now :
  let s := (run_calls calls
              {| this := new dir pkg node_env; Patch := records; clock := now |}).1 in
  status (this s) ≠ stopped ∧ db (this s) = None.
Proof.
  intros s.
  destruct (class_instances calls _ (class_instance_new dir pkg node_env records now))
    as (Hdb & Hstopped & _).
  by split.
Qed.

(** ** Run modes *)

Lemma runScheduledTasks_keeps_server E :
  respects (same the_server) (λ e, is_web_event e = false) (runScheduledTasks E).
Proof. frame. Qed.

Lemma runWebServer_keeps_cron E :
  respects (same the_cron) (λ e, is_cron_event e = false) (runWebServer E).
Proof. frame. Qed.

Lemma runScheduledTasks_sets_cron E s :
  cron (this (runScheduledTasks E s).1.2) = Some NodeCron.
Proof.
  unfold runScheduledTasks. rewrite bind_run.
  unfold assign at 1. cbv beta iota.
  match goal with |- context [(?m ≫= ?f) ?s0] =>
    assert (respects (same the_cron) (λ _, True) (m ≫= f)) as Hframe by frame;
    destruct (Hframe s0) as [Hsame _];
    destruct ((m ≫= f) s0) as [[r s2] t2]
  end.
  simpl in *. unfold same, the_cron in Hsame. by rewrite Hsame.
Qed.

(** X6. In mode [cron] the mode switch creates the scheduler and nothing
    of the web server: no plugin or router is registered, nothing listens,
    and [this.server] is left as it was. *)
Theorem cron_mode_starts_no_web_server E s :
  mode (config (this s)) = JStr "cron" →
  cron (this (dispatch E s).1.2) = Some NodeCron
  ∧ server (this (dispatch E s).1.2) = server (this s)
  ∧ Forall (λ e, is_web_event e = false) (dispatch E s).2.
Proof.
  intros Hmode.
  assert (dispatch E s = runScheduledTasks E s) as ->.
  { unfold dispatch. rewrite bind_run. simpl. rewrite Hmode. simpl.
    by destruct (runScheduledTasks E s) as [[r s'] t]; rewrite ?app_nil_l. }
  split; [apply runScheduledTasks_sets_cron|].
  by destruct (runScheduledTasks_keeps_server E s) as [Hsame Hevents].
Qed.

Lemma cron_mode_starts_no_web_server_witness :
  cron (this (dispatch (Sample.running "cron" []) (Scenario.before_switch "cron")).1.2)
    = Some NodeCron
  ∧ server (this (dispatch (Sample.running "cron" []) (Scenario.before_switch "cron")).1.2)
    = server (this (Scenario.before_switch "cron"))
  ∧ Forall (λ e, is_web_event e = false)
      (dispatch (Sample.running "cron" []) (Scenario.before_switch "cron")).2.
Proof.
  apply (cron_mode_starts_no_web_server (Sample.running "cron" [])
           (Scenario.before_switch "cron")).
  vm_compute. reflexivity.
Defined.

(** X7. Every mode other than [internal] and [cron] (a misspelt one, or
    none at all) starts the web server, and the web server never creates
    the scheduler nor starts a scheduled task. *)
Theorem any_other_mode_starts_the_web_server E s :
  mode (config (this s)) ≠ JStr "internal" →
  mode (config (this s)) ≠ JStr "cron" →
  dispatch E s = runWebServer E s
  ∧ cron (this (dispatch E s).1.2) = cron (this s)
  ∧ Forall (λ e, is_cron_event e = false) (dispatch E s).2.
Proof.
  intros Hinternal Hcron.
  assert (dispatch E s = runWebServer E s) as Hweb.
  { unfold dispatch. rewrite bind_run. simpl.
    destruct (mode (config (this s))) as [| |b|z|m|h];
      try (by destruct (runWebServer E s) as [[r s'] t]).
    destruct (String.eqb_spec m "internal") as [->|_]; [done|].
    destruct (String.eqb_spec m "cron") as [->|_]; [done|].
    by destruct (runWebServer E s) as [[r s'] t]. }
  split; [done|]. rewrite Hweb.
  by destruct (runWebServer_keeps_cron E s) as [Hsame Hevents].
Qed.

(** A misspelt mode. *)
Lemma any_other_mode_starts_the_web_server_witness :
  dispatch (Sample.running "crontab" []) (Scenario.before_switch "crontab")
    = runWebServer (Sample.running "crontab" []) (Scenario.before_switch "crontab")
  ∧ cron (this (dispatch (Sample.running "crontab" [])
                  (Scenario.before_switch "crontab")).1.2)
    = cron (this (Scenario.before_switch "crontab"))
  ∧ Forall (λ e, is_cron_event e = false)
      (dispatch (Sample.running "crontab" []) (Scenario.before_switch "crontab")).2.
Proof.
  apply (any_other_mode_starts_the_web_server (Sample.running "crontab" [])
           (Scenario.before_switch "crontab")).
  - vm_compute. discriminate.
  - vm_compute. discriminate.
Defined.

(** ** The configuration stage *)

Lemma after_configure_keeps_database E :
  respects (same the_database) (λ e, is_connect e = false)
    (loadModels E ≫= λ _, loadServices E ≫= λ _, emit (ProcessOn "SIGINT")).
Proof. frame. Qed.

Lemma patchData_keeps_database E :
  respects (same the_database) (λ e, is_connect e = false) (patchData E).
Proof. frame. Qed.

Lemma activate_keeps_database E :
  respects (same the_database) (λ e, is_connect e = false) (activate E).
Proof. frame. Qed.

(** X8. When the loaded configuration has no [log] section, [init()]
    throws a [TypeError] in [#initLogger], right after the configuration
    load: no database connection is attempted, no directory is read, and
    the instance is left [launching] without loggers. *)
Theorem missing_log_section_fails_init E s c :
  status (this s) = created ∨ status (this s) = stopped →
  config_init E = Fulfilled c →
  log c = None →
  init E s = (Rejected (TypeError "this.config.log.level"), configured c s, [ConfigInit]).
Proof.
  intros Hidle Hconfig Hlog. rewrite (init_launch _ _ Hidle).
  unfold bootstrap, configure, initLogger. run. rewrite Hconfig. run.
  by rewrite Hlog.
Qed.

Lemma missing_log_section_fails_init_witness :
  init (Sample.deployment (Fulfilled Scenario.without_log) [] Sample.well_behaved)
       (Sample.fresh ∅)
    = (Rejected (TypeError "this.config.log.level"),
       configured Scenario.without_log (Sample.fresh ∅), [ConfigInit]).
Proof.
  apply (missing_log_section_fails_init
           (Sample.deployment (Fulfilled Scenario.without_log) [] Sample.well_behaved)
           (Sample.fresh ∅) Scenario.without_log).
  - by left.
  - reflexivity.
  - reflexivity.
Defined.

(** A sequence whose first half is known on one state only. *)
Lemma bind_from {A B} (R : State → State → Prop) (Q : Event → Prop)
    `{!Transitive R} (m : M A) (f : A → M B) s :
  R s (m s).1.2 ∧ Forall Q (m s).2 →
  (∀ a, respects R Q (f a)) →
  R s ((m ≫= f) s).1.2 ∧ Forall Q ((m ≫= f) s).2.
Proof.
  intros [HR HQ] Hf. rewrite bind_run.
  destruct (m s) as [[[a|e] s1] t1]; simpl in *; [|done].
  specialize (Hf a s1). destruct (f a s1) as [[r s2] t2]; simpl in *.
  destruct Hf. split; [by etrans|]. by apply Forall_app.
Qed.

Lemma configure_without_database E c s :
  config_init E = Fulfilled c →
  mongo_section c = None →
  same the_database s (configure E s).1.2
  ∧ Forall (λ e, is_connect e = false) (configure E s).2.
Proof.
  intros Hconfig Hmongo. unfold configure, initLogger, initDependencies.
  run. rewrite Hconfig. run.
  destruct (log c) as [level|]; run; [|by repeat constructor].
  rewrite Hmongo. run. by repeat constructor.
Qed.

(** X9. When the loaded configuration has no [mongo] section, [init()]
    attempts no database connection and leaves [mongoClient] and [mongo]
    as they were, however the rest of the start-up goes. *)
Theorem no_database_section_no_connection E s c :
  status (this s) = created ∨ status (this s) = stopped →
  config_init E = Fulfilled c →
  mongo_section c = None →
  mongoClient (this (init E s).1.2) = mongoClient (this s)
  ∧ mongo (this (init E s).1.2) = mongo (this s)
  ∧ Forall (λ e, is_connect e = false) (init E s).2.
Proof.
  intros Hidle Hconfig Hmongo. rewrite (init_launch _ _ Hidle).
  assert (same the_database (launch s)
            ((bootstrap E ≫= λ _, patchData E ≫= λ _, activate E) (launch s)).1.2
          ∧ Forall (λ e, is_connect e = false)
              ((bootstrap E ≫= λ _, patchData E ≫= λ _, activate E) (launch s)).2)
    as [Hsame Hevents].
  { apply bind_from; [apply _| |intros _].
    - unfold bootstrap. apply bind_from; [apply _| |intros _].
      + by apply configure_without_database with c.
      + apply after_configure_keeps_database.
    - apply respects_bind; try apply _; [apply patchData_keeps_database|intros _].
      apply activate_keeps_database. }
  unfold same, the_database in Hsame. simpl in Hsame.
  by injection Hsame as -> ->.
Qed.

Lemma no_database_section_no_connection_witness :
  mongoClient (this (init (Sample.deployment (Fulfilled Scenario.without_database) []
                             Sample.well_behaved) (Sample.fresh ∅)).1.2)
    = mongoClient (this (Sample.fresh ∅))
  ∧ mongo (this (init (Sample.deployment (Fulfilled Scenario.without_database) []
                         Sample.well_behaved) (Sample.fresh ∅)).1.2)
    = mongo (this (Sample.fresh ∅))
  ∧ Forall (λ e, is_connect e = false)
      (init (Sample.deployment (Fulfilled Scenario.without_database) []
               Sample.well_behaved) (Sample.fresh ∅)).2.
Proof.
  apply (no_database_section_no_connection
           (Sample.deployment (Fulfilled Scenario.without_database) []
              Sample.well_behaved)
           (Sample.fresh ∅) Scenario.without_database).
  - by left.
  - reflexivity.
  - reflexivity.
Defined.

(** ** Hooks that fail *)

(** X10. The model loader does not await [model.init(this)]: as long as
    each hook returns to its caller, a promise it returned may be rejected
    and the loop still calls every hook, in order, and completes; the
    rejection is never handled. *)
Theorem rejected_model_hooks_are_dropped loaded s :
  Forall (λ x, hook_returns x = true) loaded →
  for_of loaded init_model s = (Fulfilled tt, s, ModelInit ∘ origin <$> loaded).
Proof.
  induction 1 as [|x rest Hx _ IH]; [done|].
  change (for_of (x :: rest) init_model)
    with (init_model x ≫= λ flow,
            match flow with
            | Next => for_of rest init_model
            | Return => mret tt
            end).
  assert (init_model x s = (Fulfilled Next, s, [ModelInit (origin x)])) as Hbody.
  { unfold hook_returns in Hx. unfold init_model, call.
    by destruct (export x) as [|[| |e]]; try done; run. }
  by rewrite bind_run, Hbody, IH.
Qed.

Lemma rejected_model_hooks_are_dropped_witness :
  for_of Scenario.two_models init_model (Sample.fresh ∅)
    = (Fulfilled tt, Sample.fresh ∅, ModelInit ∘ origin <$> Scenario.two_models).
Proof.
  apply (rejected_model_hooks_are_dropped Scenario.two_models (Sample.fresh ∅)).
  repeat constructor.
Defined.

(** X11. The service loader awaits [service.init(this)]: the first service
    whose hook fails makes the loop throw that error; the services before
    it were initialised and reported ready, the failing one was called but
    never reported, and no later service is initialised. *)
Theorem failing_service_stops_the_loader before name x after e s :
  Forall (λ entry, export entry.2 = Default Returns) before →
  is_Some (appLogger (this s)) →
  hook_fails e x →
  ∃ t,
    for_of (before ++ (name, x) :: after) init_service s = (Rejected (Thrown e), s, t)
    ∧ service_events t
        = (before ≫= λ entry, awaited_init (origin entry.2)) ++ [ServiceInit (origin x)].
Proof.
  intros Hbefore [l Hl] Hx.
  assert (init_service (name, x) s
          = (Rejected (Thrown e), s, [ServiceInit (origin x)])) as Hfail.
  { unfold init_service, call_await. cbn [snd].
    by destruct Hx as [-> | ->]; run. }
  induction Hbefore as [|entry rest Hentry _ IH].
  - change (for_of ([] ++ (name, x) :: after) init_service)
      with (init_service (name, x) ≫= λ flow,
              match flow with
              | Next => for_of after init_service
              | Return => mret tt
              end).
    rewrite bind_run, Hfail. by eexists.
  - destruct IH as (t & IH & Hevents).
    change (for_of ((entry :: rest) ++ (name, x) :: after) init_service)
      with (init_service entry ≫= λ flow,
              match flow with
              | Next => for_of (rest ++ (name, x) :: after) init_service
              | Return => mret tt
              end).
    assert (init_service entry s
            = (Fulfilled Next, s,
               awaited_init (origin entry.2)
                 ++ [Log debug ("Сервис " +:+ entry.1 +:+ " готов")])) as Hbody.
    { unfold init_service, call_await, appLogger_call. rewrite Hentry.
      run. rewrite Hl. by run. }
    rewrite bind_run, Hbody, IH. eexists. split; [done|].
    rewrite !service_events_app, Hevents. by rewrite <- app_assoc.
Qed.

Lemma failing_service_stops_the_loader_witness :
  ∃ t,
    for_of Scenario.three_services init_service Sample.booted
      = (Rejected (Thrown "no connection"), Sample.booted, t)
    ∧ service_events t
        = [ServiceInit "/app/api/modules/catalog/service.js";
           ServiceReady "/app/api/modules/catalog/service.js";
           ServiceInit "/app/api/modules/7/service.js"].
Proof.
  apply (failing_service_stops_the_loader
           [("catalog", {| origin := "/app/api/modules/catalog/service.js";
                           export := Default Returns |})]
           "7"
           {| origin := "/app/api/modules/7/service.js";
              export := Default (Rejects "no connection") |}
           [("billing", {| origin := "/app/api/modules/billing/service.js";
                           export := Default Returns |})]
           "no connection" Sample.booted).
  - by repeat constructor.
  - vm_compute. by eexists.
  - by right.
Defined.

(** ** The migration loop on any instance *)

Lemma patch_runs_app t1 t2 : patch_runs (t1 ++ t2) = patch_runs t1 ++ patch_runs t2.
Proof. apply omap_app. Qed.

Lemma patch_claims_app t1 t2 :
  patch_claims (t1 ++ t2) = patch_claims t1 ++ patch_claims t2.
Proof. apply omap_app. Qed.

Lemma no_patch_events t :
  Forall (λ e, is_patch_event e = false) t → patch_runs t = [] ∧ patch_claims t = [].
Proof.
  induction 1 as [|e rest He _ [IHr IHc]]; [done|].
  unfold patch_runs, patch_claims in *. by destruct e; simpl in *.
Qed.

Lemma destroy_no_patch_event E :
  respects (same (λ s, s)) (λ e, is_patch_event e = false) (destroy E).
Proof. frame. Qed.

#[local] Instance keeps_records_reflexive : Reflexive keeps_records.
Proof. by intros s n. Qed.

#[local] Instance keeps_records_transitive : Transitive keeps_records.
Proof. intros s1 s2 s3 H12 H23 n Hn. by apply H23, H12. Qed.

(** The greatest key is at least every key. *)
Lemma latest_id_greatest (c : gmap Z PatchRecord) m :
  is_Some (c !! m) → ∃ top, latest_id c = Some top ∧ (m ≤ top)%Z.
Proof.
  intros [r Hr]. unfold latest_id.
  assert (m ∈ (map_to_list c).*1) as Hin.
  { apply list_elem_of_fmap. exists (m, r). split; [done|]. by apply elem_of_map_to_list. }
  clear Hr. induction Hin as [m keys|m k keys _ IH]; simpl.
  - destruct (foldr _ None keys); eexists; (split; [done|]); lia.
  - destruct IH as (top & -> & Hle). eexists. split; [done|]. lia.
Qed.

Lemma patch_runs_cons e t :
  patch_runs (e :: t)
    = match e with PatchRun n => [n] | _ => [] end ++ patch_runs t.
Proof. by destruct e. Qed.

Lemma patch_claims_cons e t :
  patch_claims (e :: t)
    = match e with PatchInsert n => [n] | _ => [] end ++ patch_claims t.
Proof. by destruct e. Qed.

Lemma patch_runs_nil : patch_runs [] = [].
Proof. done. Qed.

Lemma patch_claims_nil : patch_claims [] = [].
Proof. done. Qed.

(** Closes one branch of the loop body: the four facts about the state
    and the trace the branch ends with. *)
Ltac patch_branch :=
  intros [= <- <- <-];
  rewrite ?app_nil_r, ?patch_runs_cons, ?patch_claims_cons, ?patch_runs_app,
    ?patch_claims_app, ?patch_runs_nil, ?patch_claims_nil;
  repeat match goal with
         | H : patch_runs _ = [] |- _ => rewrite H
         | H : patch_claims _ = [] |- _ => rewrite H
         end;
  cbn [app option_list];
  split; [first [done | by intros ? ? | by auto]|];
  split; [first [done | reflexivity | apply prefix_nil]|];
  split; [first [done | intros [=]]|];
  first
    [ by left
    | right;
      match goal with
      | |- ∃ k, Some ?n = Some k ∧ _ =>
          exists n; do 4 (split; [done|]); simpl; by auto
      end ].

Ltac patch_destroy E :=
  match goal with
  | Hdestroy : ∀ st, _ |- context [destroy E ?st] =>
      let H := fresh in
      pose proof (Hdestroy st) as H;
      destruct (destroy E st) as [[[[]|?] ?] ?]; simpl in H;
      destruct H as (-> & ? & ?)
  end.

(** One pass of the loop body. *)
Lemma apply_patch_step E script s r s' t :
  apply_patch E script s = (r, s', t) →
  keeps_records s s'
  ∧ patch_claims t `prefix_of` option_list (id script)
  ∧ (r = Fulfilled Next → patch_claims t = option_list (id script))
  ∧ (patch_runs t = []
     ∨ ∃ n, id script = Some n ∧ patch_runs t = [n] ∧ patch_claims t = [n]
            ∧ Patch s !! n = None ∧ is_Some (Patch s' !! n)).
Proof.
  unfold apply_patch. destruct (id script) as [n|] eqn:Hid; [|patch_branch].
  assert (∀ now (f : PatchRecord → PatchRecord) clock',
            keeps_records s
              {| this := this s;
                 Patch := alter f n (<[n:=now]> (Patch s)); clock := clock' |}) as Hgrow2.
  { intros now f clock' k [v Hk]. simpl.
    destruct (decide (k = n)) as [->|Hne].
    - rewrite lookup_alter_eq, lookup_insert_eq. by eexists.
    - rewrite lookup_alter_ne, lookup_insert_ne by done. by exists v. }
  assert (∀ now clock',
            keeps_records s
              {| this := this s; Patch := <[n:=now]> (Patch s); clock := clock' |}) as Hgrow1.
  { intros now clock' k [v Hk]. simpl.
    destruct (decide (k = n)) as [->|Hne].
    - rewrite lookup_insert_eq. by eexists.
    - rewrite lookup_insert_ne by done. by exists v. }
  assert (∀ (now : PatchRecord) (f : PatchRecord → PatchRecord),
            is_Some (alter f n (<[n:=now]> (Patch s)) !! n)) as Hsome2.
  { intros now f. rewrite lookup_alter_eq, lookup_insert_eq. by eexists. }
  assert (∀ (now : PatchRecord), is_Some (<[n:=now]> (Patch s) !! n)) as Hsome1.
  { intros now. rewrite lookup_insert_eq. by eexists. }
  assert (∀ st, let '(r2, s2, t2) := destroy E st in
                s2 = st ∧ patch_runs t2 = [] ∧ patch_claims t2 = []) as Hdestroy.
  { intros st. destruct (destroy_no_patch_event E st) as [Hsame Hev].
    destruct (destroy E st) as [[r2 s2] t2]. simpl in *.
    by destruct (no_patch_events _ Hev). }
  unfold import, insertOne, updateOne, db_collection, driver, patch_logger,
    call_await, appLogger_call.
  run.
  destruct (import_default E (path script)) as [x|e0]; run; [|patch_branch].
  destruct (db (this s)) as [d|] eqn:Hdb; run; [|patch_branch].
  destruct (store_fault E (OpInsert n)) as [e1|]; run; [patch_branch|].
  destruct (Patch s !! n) as [rec|] eqn:Hfree; run; [patch_branch|].
  destruct (logger (this s)) as [l|]; run.
  2:{ destruct (appLogger (this s)); run; [patch_destroy E|]; patch_branch. }
  destruct x as [|[| |]]; run;
    repeat first
      [ rewrite Hdb
      | progress run
      | match goal with
        | |- context [match appLogger (this s) with _ => _ end] =>
            destruct (appLogger (this s))
        | |- context [match store_fault E (OpUpdate n) with _ => _ end] =>
            destruct (store_fault E (OpUpdate n))
        end
      | patch_destroy E ].
  all: patch_branch.
Qed.

Lemma omap_id_cons (script : Script) rest :
  omap id (script :: rest) = option_list (id script) ++ omap id rest.
Proof. simpl. by destruct (id script). Qed.

(** The whole loop: records are only added; the claims follow the order
    of the scripts; a body is run only after its own claim, once, and only
    for an id that had no record. *)
Lemma for_of_patches E scripts : ∀ s r s' t,
  for_of scripts (apply_patch E) s = (r, s', t) →
  keeps_records s s'
  ∧ patch_claims t `prefix_of` omap id scripts
  ∧ patch_runs t `sublist_of` patch_claims t
  ∧ NoDup (patch_runs t)
  ∧ ∀ n, n ∈ patch_runs t → Patch s !! n = None ∧ is_Some (Patch s' !! n).
Proof.
  induction scripts as [|script rest IH]; intros s r s' t.
  { intros [= <- <- <-]. do 3 (split; [done|]). split; [constructor|].
    by intros n Hn%elem_of_nil. }
  change (for_of (script :: rest) (apply_patch E))
    with (apply_patch E script ≫= λ flow,
            match flow with
            | Next => for_of rest (apply_patch E)
            | Return => mret tt
            end).
  rewrite bind_run, omap_id_cons.
  destruct (apply_patch E script s) as [[[flow|e] s1] t1] eqn:Hbody;
    apply apply_patch_step in Hbody as (Hkeep & Hprefix & Hnext & Hruns).
  2:{ intros [= <- <- <-]. split; [done|].
      split; [by apply prefix_app_r|].
      destruct Hruns as [->|(n & _ & -> & -> & Hfree & Hsome)].
      - split; [apply sublist_nil_l|]. split; [constructor|].
        by intros n Hn%elem_of_nil.
      - split; [done|]. split; [apply NoDup_singleton|].
        by intros m ->%list_elem_of_singleton. }
  destruct flow.
  - destruct (for_of rest (apply_patch E) s1) as [[r2 s2] t2] eqn:Hrest.
    apply IH in Hrest as (Hkeep2 & Hprefix2 & Hsub2 & Hdup2 & Hruns2).
    intros [= <- <- <-]. rewrite patch_claims_app, patch_runs_app, Hnext by done.
    split; [by etrans|]. split; [by apply prefix_app|].
    destruct Hruns as [->|(n & Hid & -> & Hclaims & Hfree & Hsome)].
    + split; [by apply sublist_inserts_l|]. split; [done|].
      intros n Hn. destruct (Hruns2 n Hn) as [Hfree2 Hsome2]. split; [|done].
      destruct (Patch s !! n) as [rec|] eqn:Hrec; [|done].
      destruct (Hkeep n) as [rec1 Hrec1]; [by eexists|]. congruence.
    + rewrite Hid. simpl. split; [by apply sublist_skip|].
      split.
      { apply NoDup_cons. split; [|done]. intros Hin.
        destruct (Hruns2 n Hin) as [Hfree2 _]. destruct Hsome. congruence. }
      intros m [->|Hm]%elem_of_cons.
      * split; [done|]. by apply Hkeep2.
      * destruct (Hruns2 m Hm) as [Hfree2 Hsome2]. split; [|done].
        destruct (Patch s !! m) as [rec|] eqn:Hrec; [|done].
        destruct (Hkeep m) as [rec1 Hrec1]; [by eexists|]. congruence.
  - run. intros [= <- <- <-]. rewrite app_nil_r. split; [done|].
    split; [by apply prefix_app_r|].
    destruct Hruns as [->|(n & _ & -> & -> & Hfree & Hsome)].
    + split; [apply sublist_nil_l|]. split; [constructor|].
      by intros n Hn%elem_of_nil.
    + split; [done|]. split; [apply NoDup_singleton|].
      by intros m ->%list_elem_of_singleton.
Qed.

(** What [#patchData] does before its loop touches nothing and attempts
    no claim. *)
Lemma patchData_run E s :
  ∃ r s' t,
    patchData E s = (r, s', t)
    ∧ ((s' = s ∧ patch_runs t = [] ∧ patch_claims t = [])
       ∨ ∃ items t0 t1,
           readdirSync E (patches_dir s) = Fulfilled items
           ∧ t = t0 ++ t1 ∧ patch_runs t0 = [] ∧ patch_claims t0 = []
           ∧ for_of
               (List.filter
                  (fun script => num_gt (id script)
                     (match latest_id (Patch s) with Some n => n | None => 0%Z end))
                  (patch_script (patches_dir s) <$> js_files items))
               (apply_patch E) s = (r, s', t1)).
Proof.
  unfold patchData, readdir, find_latest, db_collection, driver. run.
  fold (patches_dir s).
  destruct (readdirSync E (patches_dir s)) as [items|e]; run;
    [|eexists _, _, _; split; [done|]; by left].
  rewrite Array_sort_by_version.
  match goal with |- context [(?k =? 0)%nat] => destruct (k =? 0)%nat end; run;
    [eexists _, _, _; split; [done|]; by left|].
  destruct (db (this s)); run; [|eexists _, _, _; split; [done|]; by left].
  destruct (store_fault E OpFind); run; [eexists _, _, _; split; [done|]; by left|].
  match goal with |- context [for_of ?l ?b s] =>
    destruct (for_of l b s) as [[r s'] t1] eqn:Hloop
  end.
  eexists _, _, _. split; [done|]. right.
  exists items, [Readdir (patches_dir s); PatchFind], t1. by repeat split.
Qed.

(** X12. Whatever the instance and its collaborators, one run of
    [#patchData] runs no patch body twice, and runs a body only for an id
    that is greater than every id recorded when it started (greater than 0
    when nothing was recorded), that had no record then and has one
    afterwards. *)
Theorem patch_bodies_run_at_most_once E s n :
  n ∈ patch_runs (patchData E s).2 →
  NoDup (patch_runs (patchData E s).2)
  ∧ Patch s !! n = None
  ∧ is_Some (Patch (patchData E s).1.2 !! n)
  ∧ (∀ m, is_Some (Patch s !! m) → (m < n)%Z)
  ∧ (Patch s = ∅ → (0 < n)%Z).
Proof.
  destruct (patchData_run E s) as (r & s' & t & -> & Hrun). simpl.
  destruct Hrun as [(-> & -> & _)|(items & t0 & t1 & _ & -> & Hr0 & _ & Hloop)].
  { by intros Hn%elem_of_nil. }
  apply for_of_patches in Hloop as (_ & Hprefix & Hsub & Hdup & Hruns).
  rewrite patch_runs_app, Hr0. simpl. intros Hn.
  destruct (Hruns n Hn) as [Hfree Hsome]. do 3 (split; [done|]).
  assert (n ∈ omap id
            (List.filter
               (fun script => num_gt (id script)
                  (match latest_id (Patch s) with Some n => n | None => 0%Z end))
               (patch_script (patches_dir s) <$> js_files items))) as Hdue.
  { eapply elem_of_prefix; [|done]. by eapply elem_of_sublist. }
  apply list_elem_of_omap in Hdue as (script & Hscript & Hid).
  apply list_elem_of_In, List.filter_In in Hscript as [_ Hgt].
  rewrite Hid in Hgt. simpl in Hgt. apply Z.ltb_lt in Hgt.
  split.
  - intros m Hm. destruct (latest_id_greatest _ _ Hm) as (top & Htop & Hle).
    rewrite Htop in Hgt. lia.
  - intros Hempty. rewrite Hempty in Hgt. by vm_compute in Hgt.
Qed.

Lemma patch_bodies_run_at_most_once_witness :
  NoDup (patch_runs
           (patchData (Sample.running "internal" ["10.js"; "9.js"]) Scenario.migrating).2)
  ∧ Patch Scenario.migrating !! 10%Z = None
  ∧ is_Some (Patch (patchData (Sample.running "internal" ["10.js"; "9.js"])
                      Scenario.migrating).1.2 !! 10%Z)
  ∧ (∀ m, is_Some (Patch Scenario.migrating !! m) → (m < 10)%Z)
  ∧ (Patch Scenario.migrating = ∅ → (0 < 10)%Z).
Proof.
  apply (patch_bodies_run_at_most_once
           (Sample.running "internal" ["10.js"; "9.js"]) Scenario.migrating 10%Z).
  apply list_elem_of_In. vm_compute. by left.
Defined.

(** X13. [#patchData] attempts its claims in the order of the directory
    listing, not in the order of the ids: the ids it tries to insert are
    an initial part of the ids the filter keeps, in listing order; and
    every body it runs is one whose claim it attempted. *)
Theorem patches_are_claimed_in_listing_order E s items :
  readdirSync E (patches_dir s) = Fulfilled items →
  patch_claims (patchData E s).2 `prefix_of` due_ids (Patch s) (patches_dir s) items
  ∧ patch_runs (patchData E s).2 `sublist_of` patch_claims (patchData E s).2.
Proof.
  intros Hdir. destruct (patchData_run E s) as (r & s' & t & -> & Hrun). simpl.
  destruct Hrun as [(-> & -> & ->)|(items' & t0 & t1 & Hdir' & -> & Hr0 & Hc0 & Hloop)].
  { split; [apply prefix_nil|done]. }
  rewrite Hdir in Hdir'. injection Hdir' as <-.
  apply for_of_patches in Hloop as (_ & Hprefix & Hsub & _).
  by rewrite patch_runs_app, patch_claims_app, Hr0, Hc0.
Qed.

(** Scripts [10.js] and [9.js], listed in that order, are claimed and run
    in that order. *)
Lemma patches_are_claimed_in_listing_order_witness :
  readdirSync (Sample.running "internal" ["10.js"; "9.js"])
              (patches_dir Scenario.migrating)
    = Fulfilled [Sample.file "10.js"; Sample.file "9.js"]
  ∧ due_ids (Patch Scenario.migrating) (patches_dir Scenario.migrating)
      [Sample.file "10.js"; Sample.file "9.js"] = [10%Z; 9%Z]
  ∧ patch_claims (patchData (Sample.running "internal" ["10.js"; "9.js"])
                    Scenario.migrating).2
      `prefix_of` due_ids (Patch Scenario.migrating) (patches_dir Scenario.migrating)
                    [Sample.file "10.js"; Sample.file "9.js"]
  ∧ patch_runs (patchData (Sample.running "internal" ["10.js"; "9.js"])
                  Scenario.migrating).2
      `sublist_of` patch_claims (patchData (Sample.running "internal" ["10.js"; "9.js"])
                                   Scenario.migrating).2.
Proof.
  split; [vm_compute; reflexivity|]. split; [vm_compute; reflexivity|].
  apply (patches_are_claimed_in_listing_order
           (Sample.running "internal" ["10.js"; "9.js"]) Scenario.migrating
           [Sample.file "10.js"; Sample.file "9.js"]).
  vm_compute. reflexivity.
Defined.

(** ** A database that cannot be reached *)

Section Unreachable.
#[local] Arguments mongo_url : simpl never.

(** X14. When the connection to the database fails, [init()] throws that
    error with the client already stored on the instance and no database
    handle; nothing was loaded.  A [destroy()] of that instance is not
    idle: it closes the client that never connected and logs the stop. *)
Theorem failed_connection_is_closed_by_destroy E E' s c m level e :
  status (this s) = created ∨ status (this s) = stopped →
  config_init E = Fulfilled c →
  mongo_section c = Some m →
  log c = Some level →
  connect E (mongo_url m) = Rejected e →
  server (this s) = None → cron (this s) = None →
  mongo_close E' = Fulfilled tt →
  init E s = (Rejected e, unconnected c level (mongo_url m) s,
              [ConfigInit; Connect (mongo_url m)])
  ∧ destroy E' (unconnected c level (mongo_url m) s)
      = (Fulfilled tt, unconnected c level (mongo_url m) s,
         [MongoClose; Log always "Приложение остановлено"]).
Proof.
  intros Hidle Hconfig Hmongo Hlog Hconnect Hserver Hcron Hclose. split.
  - rewrite (init_launch _ _ Hidle).
    unfold bootstrap, configure, initLogger, initMongo. run.
    rewrite Hconfig. run. rewrite Hlog. run. repeat (rewrite Hmongo; run).
    by rewrite Hconnect.
  - unfold destroy, destroyDependencies, appLogger_call. run.
    rewrite Hcron, Hserver, Hclose. by run.
Qed.

Lemma failed_connection_is_closed_by_destroy_witness :
  init Scenario.database_down (Sample.fresh ∅)
    = (Rejected (Thrown "ECONNREFUSED"),
       unconnected (Sample.settings "web" "test") "error"
         (mongo_url (Sample.mongo_as "test")) (Sample.fresh ∅),
       [ConfigInit; Connect (mongo_url (Sample.mongo_as "test"))])
  ∧ destroy (Sample.running "web" [])
      (unconnected (Sample.settings "web" "test") "error"
         (mongo_url (Sample.mongo_as "test")) (Sample.fresh ∅))
    = (Fulfilled tt,
       unconnected (Sample.settings "web" "test") "error"
         (mongo_url (Sample.mongo_as "test")) (Sample.fresh ∅),
       [MongoClose; Log always "Приложение остановлено"]).
Proof.
  apply (failed_connection_is_closed_by_destroy Scenario.database_down
           (Sample.running "web" []) (Sample.fresh ∅) (Sample.settings "web" "test")
           (Sample.mongo_as "test") "error" (Thrown "ECONNREFUSED")).
  - by left.
  - reflexivity.
  - reflexivity.
  - reflexivity.
  - reflexivity.
  - reflexivity.
  - reflexivity.
  - reflexivity.
Defined.

End Unreachable.

(** ** The order of a start-up *)

Lemma bootstrap_loads_only E :
  respects (same (λ _, ()))
    (λ e, is_patch_event e = false ∧ is_web_event e = false ∧ is_cron_event e = false)
    (bootstrap E).
Proof. frame. Qed.

Lemma patchData_migrates_only E :
  respects (same (λ _, ()))
    (λ e, is_model_event e = false ∧ is_service_event e = false
          ∧ is_web_event e = false ∧ is_cron_event e = false)
    (patchData E).
Proof. frame. Qed.

Lemma activate_starts_only E :
  respects (same (λ _, ()))
    (λ e, is_model_event e = false ∧ is_service_event e = false
          ∧ is_patch_event e = false)
    (activate E).
Proof. frame. Qed.

(** X25. [init()] works in three phases: in the order of its calls,
    first the loading stages, which touch neither the [Patch] collection
    nor the web server nor the scheduler; then the migration step, which
    calls no model or service hook and starts nothing; then the mode
    switch, which calls no hook and touches no patch.  So every hook has
    been called before the first patch is claimed, and every patch has
    been dealt with before a plugin is registered, the server listens or a
    task is scheduled. *)
Theorem init_works_in_phases E s :
  ∃ loading migration starting,
    (init E s).2 = loading ++ migration ++ starting
    ∧ Forall loads_only loading
    ∧ Forall migrates_only migration
    ∧ Forall starts_only starting.
Proof.
  destruct (decide (status (this s) = created ∨ status (this s) = stopped))
    as [Hidle|Hbusy].
  - rewrite (init_launch _ _ Hidle), bind_run.
    destruct (bootstrap_loads_only E (launch s)) as [_ H1].
    destruct (bootstrap E (launch s)) as [[[[]|e1] s1] t1]; simpl in H1.
    2:{ exists t1, [], []. by rewrite !app_nil_r. }
    rewrite bind_run.
    destruct (patchData_migrates_only E s1) as [_ H2].
    destruct (patchData E s1) as [[[[]|e2] s2] t2]; simpl in H2.
    2:{ exists t1, t2, []. by rewrite !app_nil_r. }
    destruct (activate_starts_only E s2) as [_ H3].
    destruct (activate E s2) as [[r3 s3] t3]; simpl in *.
    by exists t1, t2, t3.
  - rewrite init_guarded by tauto.
    destruct (appLogger (this s)); simpl.
    + exists [Log error already_running], [], []. by repeat constructor.
    + exists [], [], []. by repeat constructor.
Qed.

Lemma phase_bind {A B} (Q1 Q2 : Event → Prop) (m : M A) (f : A → M B) :
  respects (same (λ _, ())) Q1 m →
  (∀ a s, in_two_phases Q1 Q2 (f a s).2) →
  ∀ s, in_two_phases Q1 Q2 ((m ≫= f) s).2.
Proof.
  intros Hm Hf s. rewrite bind_run. destruct (Hm s) as [_ H1].
  destruct (m s) as [[[a|e] s1] t1]; simpl in H1.
  2:{ exists t1, []. by rewrite app_nil_r. }
  destruct (Hf a s1) as (t2 & t3 & Ht & H2 & H3).
  destruct (f a s1) as [[r s2] t]. simpl in *. subst t.
  exists (t1 ++ t2), t3. rewrite app_assoc. split; [done|].
  split; [by apply Forall_app|done].
Qed.

Lemma phase_last {A} (Q1 Q2 : Event → Prop) (m : M A) :
  respects (same (λ _, ())) Q2 m → ∀ s, in_two_phases Q1 Q2 (m s).2.
Proof. intros Hm s. destruct (Hm s) as [_ H2]. by exists [], (m s).2. Qed.

(** X26. [#runWebServer] listens last: whatever its collaborators answer,
    every plugin registration, every import, call and registration of a
    router and the wait for [server.ready()] come before
    [server.listen()]; once the server listens, nothing more is
    registered. *)
Theorem the_server_listens_last E s :
  in_two_phases (λ e, is_listen e = false) (λ e, is_setup e = false)
    (runWebServer E s).2.
Proof.
  revert s. unfold runWebServer, server_register.
  do 10 (apply phase_bind; [frame|intros ?]).
  apply phase_last. frame.
Qed.

(** ** The migration step on the instances of the class *)

Lemma activate_keeps_store E :
  respects (same the_store) (λ e, is_patch_event e = false) (activate E).
Proof. frame. Qed.

Lemma destroy_keeps_store E :
  respects (same the_store) (λ e, is_patch_event e = false) (destroy E).
Proof. frame. Qed.

Lemma patchData_no_db E s :
  db (this s) = None →
  (patchData E s).1.2 = s ∧ Forall (λ e, is_patch_event e = false) (patchData E s).2.
Proof.
  intros Hdb. destruct (readdirSync E (patches_dir s)) as [items|e] eqn:Hdir.
  - rewrite (patchData_without_db E s items Hdb Hdir).
    by destruct (js_files items); simpl; repeat constructor.
  - unfold patchData, readdir. run. fold (patches_dir s). rewrite Hdir. simpl.
    split; [by destruct s|]. by repeat constructor.
Qed.

Lemma init_no_db E s :
  db (this s) = None →
  db (this (init E s).1.2) = None
  ∧ Patch (init E s).1.2 = Patch s
  ∧ Forall (λ e, is_patch_event e = false) (init E s).2.
Proof.
  intros Hdb.
  destruct (decide (status (this s) = created ∨ status (this s) = stopped))
    as [Hidle|Hbusy].
  2:{ rewrite init_guarded by tauto.
      destruct (appLogger (this s)); simpl; by repeat constructor. }
  rewrite (init_launch _ _ Hidle), bind_run.
  destruct (bootstrap_keeps_store E (launch s)) as [H1 Q1].
  destruct (bootstrap E (launch s)) as [[[[]|e1] s1] t1]; simpl in H1, Q1;
    unfold same, the_store in H1; simpl in H1; injection H1 as Hdb1 _ Hpatch1;
    [|simpl; by rewrite Hdb1, Hpatch1].
  rewrite bind_run.
  destruct (patchData_no_db E s1) as [H2 Q2]; [congruence|].
  destruct (patchData E s1) as [[[[]|e2] s2] t2]; simpl in H2, Q2; subst s2;
    [|simpl; rewrite Hdb1, Hpatch1; by rewrite Forall_app].
  destruct (activate_keeps_store E s1) as [H3 Q3].
  destruct (activate E s1) as [[r3 s3] t3]; simpl in *.
  unfold same, the_store in H3. injection H3 as Hdb3 _ Hpatch3.
  rewrite Hdb3, Hpatch3, Hdb1, Hpatch1. by rewrite !Forall_app.
Qed.

(** X27. On an instance built by the constructor the migration
    coordinator never reaches the database: whatever sequence of [init()]
    and [destroy()] calls the instance receives and whatever its
    collaborators answer, no [Patch] record is read, inserted or updated,
    no patch body is run, and the collection is left as it was. *)
Theorem the_class_never_migrates calls dirPath pkg node_env records now :
  Patch (run_calls calls
           {| this := new dirPath pkg node_env; Patch := records; clock := now |}).1
    = records
  ∧ Forall (λ e, is_patch_event e = false)
      (run_calls calls
         {| this := new dirPath pkg node_env; Patch := records; clock := now |}).2.
Proof.
  assert (∀ s, db (this s) = None →
            Patch (run_calls calls s).1 = Patch s
            ∧ Forall (λ e, is_patch_event e = false) (run_calls calls s).2) as Hall.
  { induction calls as [|c rest IH]; intros s Hdb; [by split|]. simpl.
    assert (db (this (run_call c s).1.2) = None
            ∧ Patch (run_call c s).1.2 = Patch s
            ∧ Forall (λ e, is_patch_event e = false) (run_call c s).2)
      as (Hdb1 & Hpatch1 & Q1).
    { destruct c as [E|E]; simpl; [by apply init_no_db|].
      destruct (destroy_keeps_store E s) as [H1 Q1].
      unfold same, the_store in H1. injection H1 as Hdb1 _ Hpatch1.
      by rewrite Hdb1, Hpatch1. }
    destruct (run_call c s) as [[r s1] t1]. simpl in *.
    destruct (IH s1 Hdb1) as [Hpatch2 Q2].
    destruct (run_calls rest s1) as [s2 t2]. simpl in *.
    split; [congruence|]. by apply Forall_app. }
  by apply Hall.
Qed.

(** ** Documents and instances *)

Section Instances.
Import SimpleMongoModel Documents.

Lemma Object_assign_keeps source : ∀ (this : Instance) k,
  is_Some (this !! k) → is_Some (Object_assign this source !! k).
Proof.
  intros this k [v Hk]. rewrite Object_assign_lookup, Hk.
  destruct (last_write k source); by eexists.
Qed.

Lemma last_write_slot changes : last_write "_id" changes = None.
Proof.
  induction changes as [|[k v] rest IH]; [done|]. simpl. rewrite IH.
  unfold slot. by destruct (String.eqb_spec k "_id") as [->|Hne];
    [|destruct (String.eqb_spec k "_id")].
Qed.

(** X15. [reload()] only adds and overwrites: every property the instance
    had is still there afterwards, with its old value unless the document
    carries it, so a field that was removed from the stored document stays
    on the instance; the document's [_id] goes to [id] and never becomes a
    property of its own; and when the document is gone the instance is left
    as it is, without an error. *)
Theorem reload_never_removes_a_property (cls : Class) (this : Instance)
    (reply : Settled (option Doc)) :
  (∀ k, is_Some (this !! k) → is_Some ((reload cls this reply).1 !! k))
  ∧ (∀ k doc, reply = Fulfilled (Some doc) → last_write k doc = None →
       (reload cls this reply).1 !! k = this !! k)
  ∧ (reload cls this reply).1 !! "_id" = this !! "_id"
  ∧ (is_Some (collection cls) → reply = Fulfilled None →
       reload cls this reply = (this, Fulfilled tt)).
Proof.
  unfold reload. destruct (collection cls) as [coll|].
  2:{ repeat split; first [done | by intros []]. }
  destruct reply as [[doc|]|e]; simpl.
  - split; [intros k; apply Object_assign_keeps|]. split.
    + intros k doc' [= <-] Hk. by rewrite Object_assign_lookup, Hk.
    + split; [|done]. by rewrite Object_assign_lookup, last_write_slot.
  - by repeat split.
  - by repeat split.
Qed.

(** X16. The instances [Product.from(docs)] builds carry, as [id], what
    each document has as [_id] (or as [id], whichever comes last), so
    [toIds] of them gives the ids of the documents in order; none of them
    has a property [_id], and each has the three declared fields. *)
Theorem ids_of_documents (docs : list Doc) :
  toIds (from docs) = id_of <$> docs
  ∧ Forall (λ entity : Instance,
              entity !! "_id" = None
              ∧ is_Some (entity !! "id") ∧ is_Some (entity !! "title")
              ∧ is_Some (entity !! "price"))
      (from docs).
Proof.
  unfold toIds, from. split.
  - rewrite <- list_fmap_compose. apply list_fmap_ext. intros _ doc _. simpl.
    unfold get_id, id_of, Product. simpl. rewrite Object_assign_lookup.
    by destruct (last_write "id" doc).
  - apply Forall_fmap, Forall_true. intros doc. simpl. unfold Product. simpl.
    split; [by rewrite Object_assign_lookup, last_write_slot|].
    by repeat split; apply Object_assign_keeps.
Qed.

End Instances.

(** ** Configuration: deepMerge *)

Section DeepMerge.
Import Config.

Lemma obj_get_put_ne {V} (o : Obj V) k k' (v : V) :
  k' ≠ k → obj_get k' (obj_put k v o) = obj_get k' o.
Proof.
  intros Hne. induction o as [|[k0 v0] rest IH]; simpl.
  - by destruct (String.eqb_spec k' k).
  - destruct (String.eqb_spec k k0) as [->|Hk]; simpl.
    + by destruct (String.eqb_spec k' k0).
    + destruct (String.eqb_spec k' k0); [done|apply IH].
Qed.

Lemma obj_get_put {V} (o : Obj V) k (v : V) : obj_get k (obj_put k v o) = Some v.
Proof.
  induction o as [|[k0 v0] rest IH]; simpl.
  - by rewrite String.eqb_refl.
  - destruct (String.eqb_spec k k0) as [->|Hk]; simpl.
    + by rewrite String.eqb_refl.
    + by destruct (String.eqb_spec k k0).
Qed.

Lemma obj_get_set_ne {V} (o : Obj V) k k' (v : V) :
  k' ≠ k → obj_get k' (obj_set k v o) = obj_get k' o.
Proof.
  intros Hne. unfold obj_set. destruct (String.eqb k "__proto__"); [done|].
  by apply obj_get_put_ne.
Qed.

Lemma obj_get_set {V} (o : Obj V) k (v : V) :
  k ≠ "__proto__" → obj_get k (obj_set k v o) = Some v.
Proof.
  intros Hk. unfold obj_set. destruct (String.eqb_spec k "__proto__"); [done|].
  apply obj_get_put.
Qed.

Lemma obj_get_None {V} (o : Obj V) k : obj_get k o = None ↔ k ∉ o.*1.
Proof.
  induction o as [|[k0 v0] rest IH]; simpl.
  - split; [intros _; apply not_elem_of_nil|done].
  - rewrite not_elem_of_cons. destruct (String.eqb_spec k k0) as [->|Hk].
    + split; [done|]. by intros [? _].
    + rewrite IH. tauto.
Qed.

Lemma inherited_proto key : inherited key = false → key ≠ "__proto__".
Proof. intros Hkey ->. by vm_compute in Hkey. Qed.

(** A visit leaves the other keys alone. *)
Lemma merge_key_others rec b a key a' k :
  merge_key rec b a key = Done a' → k ≠ key → obj_get k a' = obj_get k a.
Proof.
  unfold merge_key. intros Hrun Hne.
  destruct (inherited key); [done|].
  destruct (obj_get key a) as [aProp|].
  2:{ injection Hrun as <-. by apply obj_get_set_ne. }
  destruct (obj_get key b) as [bProp|]; [|by injection Hrun as <-].
  destruct (nullish aProp || nullish bProp).
  { injection Hrun as <-. by apply obj_get_set_ne. }
  destruct (isArray aProp && isArray bProp); [by injection Hrun as <-|].
  destruct aProp as [[]| |], bProp as [[]| |]; try done;
    try (injection Hrun as <-; by apply obj_get_set_ne);
    (destruct (rec _ _); [|done..]; injection Hrun as <-; by apply obj_get_set_ne).
Qed.

(** The loop over the keys, from a state [acc]. *)
Lemma visit_failed rec b keys (acc : Outcome (Obj Value)) :
  (∀ a, acc ≠ Done a) →
  foldl (λ acc key, cur ← acc; merge_key rec b cur key) acc keys = acc.
Proof.
  revert acc. induction keys as [|key rest IH]; intros acc Hacc; [done|]. simpl.
  assert ((acc ≫= λ cur, merge_key rec b cur key) = acc) as ->
    by (destruct acc; [by destruct (Hacc a)|done..]).
  by apply IH.
Qed.

Lemma visit_cons rec b key rest a a' :
  foldl (λ acc key, cur ← acc; merge_key rec b cur key) (Done a) (key :: rest) = Done a' →
  ∃ cur, merge_key rec b a key = Done cur
         ∧ foldl (λ acc key, cur ← acc; merge_key rec b cur key) (Done cur) rest = Done a'.
Proof.
  simpl. change (Done a ≫= λ cur, merge_key rec b cur key) with (merge_key rec b a key).
  destruct (merge_key rec b a key) as [cur| | |] eqn:Hkey; [by exists cur|..];
    by rewrite visit_failed.
Qed.

Lemma visit_others rec b keys : ∀ a a' k,
  foldl (λ acc key, cur ← acc; merge_key rec b cur key) (Done a) keys = Done a' →
  k ∉ keys → obj_get k a' = obj_get k a.
Proof.
  induction keys as [|key rest IH]; intros a a' k Hrun Hk.
  - by injection Hrun as <-.
  - apply not_elem_of_cons in Hk as [Hne Hk].
    apply visit_cons in Hrun as (cur & Hkey & Hrest).
    rewrite (IH _ _ _ Hrest Hk). by eapply merge_key_others.
Qed.

(** The visit that decides a key. *)
Lemma visit_of rec b keys : ∀ a a' key,
  foldl (λ acc key, cur ← acc; merge_key rec b cur key) (Done a) keys = Done a' →
  NoDup keys → key ∈ keys →
  ∃ cur cur',
    obj_get key cur = obj_get key a
    ∧ merge_key rec b cur key = Done cur'
    ∧ obj_get key a' = obj_get key cur'.
Proof.
  induction keys as [|k rest IH]; intros a a' key Hrun Hdup Hin.
  - by apply elem_of_nil in Hin.
  - apply NoDup_cons in Hdup as [Hk Hdup].
    apply visit_cons in Hrun as (cur & Hkey & Hrest).
    apply elem_of_cons in Hin as [->|Hin].
    + exists a, cur. split; [done|]. split; [done|]. by eapply visit_others.
    + destruct (IH _ _ _ Hrest Hdup Hin) as (c & c' & Hc & Hvisit & Hfinal).
      exists c, c'. split; [|done]. rewrite Hc.
      eapply merge_key_others; [done|]. by intros ->.
Qed.

Lemma Set_of_spec keys : ∀ seen,
  NoDup (Set_of seen keys)
  ∧ ∀ k, k ∈ Set_of seen keys ↔ k ∈ keys ∧ k ∉ seen.
Proof.
  induction keys as [|key rest IH]; intros seen; simpl.
  - split; [constructor|]. intros k. rewrite elem_of_nil. tauto.
  - destruct (bool_decide_reflect (key ∈ seen)) as [Hseen|Hseen].
    + destruct (IH seen) as [Hdup Hin]. split; [done|]. intros k.
      rewrite Hin, elem_of_cons. split; [tauto|]. intros [[->|Hk] Hn]; [done|tauto].
    + destruct (IH (key :: seen)) as [Hdup Hin]. split.
      * apply NoDup_cons. split; [|done]. rewrite Hin, not_elem_of_cons. tauto.
      * intros k. rewrite !elem_of_cons, Hin, not_elem_of_cons.
        split; [intros [->|(Hk & Hne & Hn)]; tauto|].
        intros [[->|Hk] Hn]; [by left|].
        destruct (decide (k = key)) as [->|Hne]; [by left|right; tauto].
Qed.

Lemma Object_keys_elem o k : k ∈ Object_keys o ↔ k ∈ o.*1.
Proof. unfold Object_keys. by rewrite (obj_entries_perm o). Qed.

Lemma visited_keys pa pb k :
  k ∈ Set_of [] (Object_keys pa ++ Object_keys pb) ↔ k ∈ pa.*1 ∨ k ∈ pb.*1.
Proof.
  destruct (Set_of_spec (Object_keys pa ++ Object_keys pb) []) as [_ Hin].
  rewrite Hin, elem_of_app, !Object_keys_elem. rewrite elem_of_nil. tauto.
Qed.


Lemma height_prop pa k v :
  obj_get k pa = Some v → (height v < height (Object pa))%nat.
Proof.
  simpl. induction pa as [|[k0 v0] rest IH]; [done|]. simpl.
  destruct (String.eqb k k0).
  - intros [= ->]. lia.
  - intros Hv. specialize (IH Hv). lia.
Qed.

Lemma height_positive v : (0 < height v)%nat.
Proof. destruct v; simpl; lia. Qed.

(** Two functions that agree on the properties of [pa] visit its keys
    alike. *)
Lemma visit_ext rec1 rec2 pa pb keys : ∀ a,
  NoDup keys →
  (∀ k, k ∈ keys → obj_get k a = obj_get k pa) →
  (∀ k aProp bProp, obj_get k pa = Some aProp →
     rec1 aProp bProp = rec2 aProp bProp ∧ rec2 aProp bProp ≠ OutOfFuel) →
  foldl (λ acc key, cur ← acc; merge_key rec1 pb cur key) (Done a) keys
    = foldl (λ acc key, cur ← acc; merge_key rec2 pb cur key) (Done a) keys
  ∧ foldl (λ acc key, cur ← acc; merge_key rec2 pb cur key) (Done a) keys ≠ OutOfFuel.
Proof.
  induction keys as [|key rest IH]; intros a Hdup Hsame Hrec; [done|].
  apply NoDup_cons in Hdup as [Hkey Hdup]. simpl.
  change (Done a ≫= λ cur, merge_key rec1 pb cur key) with (merge_key rec1 pb a key).
  change (Done a ≫= λ cur, merge_key rec2 pb cur key) with (merge_key rec2 pb a key).
  assert (merge_key rec1 pb a key = merge_key rec2 pb a key
          ∧ merge_key rec2 pb a key ≠ OutOfFuel) as [-> Hfuel].
  { unfold merge_key. destruct (inherited key); [done|].
    pose proof (Hsame key (list_elem_of_here _ _)) as Ha.
    destruct (obj_get key a) as [aProp|]; [|done].
    destruct (obj_get key pb) as [bProp|]; [|done].
    destruct (nullish aProp || nullish bProp); [done|].
    destruct (isArray aProp && isArray bProp); [done|].
    destruct (Hrec key aProp bProp) as [-> Hne]; [done|].
    destruct aProp as [[]| |], bProp as [[]| |]; try done;
      by destruct (rec2 _ _). }
  destruct (merge_key rec2 pb a key) as [cur| | |] eqn:Hvisit;
    [|by rewrite !visit_failed..].
  apply IH; [done| |done].
  intros k Hk. rewrite <- Hsame by by right.
  eapply merge_key_others; [done|]. by intros ->.
Qed.

(** [deepMerge] terminates: fuel up to the height of [a] is enough, and
    more fuel changes nothing. *)
Lemma deepMerge_fuel n : ∀ a b m,
  (height a ≤ n)%nat → (n ≤ m)%nat →
  deepMerge m a b = deepMerge n a b ∧ deepMerge n a b ≠ OutOfFuel.
Proof.
  induction n as [|n IH]; intros a b m Ha Hm.
  { pose proof (height_positive a). lia. }
  destruct m as [|m]; [lia|]. simpl.
  destruct (nullish a); [done|]. destruct (nullish b); [done|].
  destruct a as [va|xs|pa]; [done..|]. destruct b as [vb|ys|pb]; [done..|].
  destruct (Set_of_spec (Object_keys pa ++ Object_keys pb) []) as [Hdup _].
  destruct (visit_ext (deepMerge m) (deepMerge n) pa pb
              (Set_of [] (Object_keys pa ++ Object_keys pb)) pa Hdup)
    as [-> Hfuel]; [done| |].
  { intros k aProp bProp Hk. apply height_prop in Hk. apply IH; lia. }
  split; [done|].
  by destruct (foldl _ _ _).
Qed.

End DeepMerge.

Section DeepMergeResults.
Import Config.

(** What [deepMerge] leaves at each key of [a]. *)
Lemma deepMerge_lookup n pa pb pa' key :
  deepMerge (S n) (Object pa) (Object pb) = Done (Object pa') →
  obj_get key pa' =
    match obj_get key pa, obj_get key pb with
    | held, None => held
    | None, Some bProp => Some bProp
    | Some aProp, Some bProp => both_sides (deepMerge n) aProp bProp
    end
  ∧ (is_Some (obj_get key pa') ∨ (obj_get key pa = None ∧ obj_get key pb = None)).
Proof.
  simpl.
  destruct (foldl _ _ _) as [props| | |] eqn:Hrun; try done.
  intros [= <-].
  destruct (Set_of_spec (Object_keys pa ++ Object_keys pb) []) as [Hdup _].
  destruct (decide (key ∈ Set_of [] (Object_keys pa ++ Object_keys pb))) as [Hin|Hout].
  - destruct (visit_of _ _ _ _ _ key Hrun Hdup Hin) as (cur & cur' & Hcur & Hvisit & ->).
    rewrite <- Hcur. revert Hvisit. unfold merge_key, both_sides.
    destruct (inherited key) eqn:Hkey; [done|].
    apply inherited_proto in Hkey.
    destruct (obj_get key cur) as [aProp|] eqn:Ha.
    2:{ intros [= <-]. rewrite obj_get_set by done.
        split; [|left; by eexists].
        apply visited_keys in Hin as [Hin|Hin].
        - apply obj_get_None in Hin; [done|]. by rewrite <- Hcur.
        - destruct (obj_get key pb) eqn:Hb; [done|]. by apply obj_get_None in Hb. }
    destruct (obj_get key pb) as [bProp|];
      [|intros [= <-]; rewrite Ha; split; [done|left; by eexists]].
    destruct (nullish aProp || nullish bProp).
    { intros [= <-]. rewrite obj_get_set by done. split; [done|left; by eexists]. }
    destruct (isArray aProp && isArray bProp) eqn:Harr.
    { intros [= <-]. rewrite Ha. split; [|left; by eexists].
      by destruct aProp, bProp. }
    destruct aProp as [[]| |], bProp as [[]| |]; try done;
      try (intros [= <-]; rewrite obj_get_set by done;
           split; [done|left; by eexists]);
      (destruct (deepMerge n _ _); [|done..]; intros [= <-];
       rewrite obj_get_set by done; split; [done|left; by eexists]).
  - rewrite (visit_others _ _ _ _ _ key Hrun Hout).
    rewrite visited_keys in Hout.
    assert (obj_get key pa = None) as -> by (apply obj_get_None; tauto).
    assert (obj_get key pb = None) as -> by (apply obj_get_None; tauto).
    split; [done|by right].
Qed.

Lemma deepMerge_leaf fuel pa pb pa' key v :
  deepMerge fuel (Object pa) (Object pb) = Done (Object pa') →
  obj_get key pb = Some (Leaf v) → obj_get key pa' = Some (Leaf v).
Proof.
  destruct fuel as [|n]; [done|]. intros Hrun Hb.
  destruct (deepMerge_lookup _ _ _ _ key Hrun) as [-> _]. rewrite Hb.
  unfold both_sides.
  destruct (obj_get key pa) as [aProp|]; [|done].
  destruct (nullish aProp || nullish (Leaf v)); [done|].
  by destruct aProp as [[]| |], v.
Qed.

(** X17. [deepMerge] terminates on every pair of values: with a recursion
    bound of at least the height of [a] it never stops for lack of fuel,
    and its result does not depend on the bound. *)
Theorem deepMerge_terminates (a b : Value) (fuel : nat) :
  (height a ≤ fuel)%nat →
  deepMerge fuel a b = deepMerge (height a) a b
  ∧ deepMerge fuel a b ≠ OutOfFuel.
Proof.
  intros Hfuel.
  destruct (deepMerge_fuel (height a) a b fuel) as [Heq Hne]; [done..|].
  split; [done|]. by rewrite Heq.
Qed.

Lemma deepMerge_terminates_witness :
  deepMerge 10 (Object base_settings) (Object env_settings)
    = deepMerge (height (Object base_settings)) (Object base_settings)
        (Object env_settings)
  ∧ deepMerge 10 (Object base_settings) (Object env_settings) ≠ OutOfFuel.
Proof.
  apply (deepMerge_terminates (Object base_settings) (Object env_settings) 10).
  vm_compute. lia.
Defined.

(** X18. [deepMerge] never concatenates arrays: where both [a] and [b]
    hold an array under a key, [a] keeps its own array and the elements of
    [b] are dropped (the result of [concat] is discarded). *)
Theorem arrays_are_never_concatenated fuel pa pb pa' key xs ys :
  deepMerge fuel (Object pa) (Object pb) = Done (Object pa') →
  obj_get key pa = Some (Array xs) →
  obj_get key pb = Some (Array ys) →
  obj_get key pa' = Some (Array xs).
Proof.
  destruct fuel as [|n]; [done|]. intros Hrun Ha Hb.
  destruct (deepMerge_lookup _ _ _ _ key Hrun) as [-> _]. by rewrite Ha, Hb.
Qed.

Lemma arrays_are_never_concatenated_witness :
  deepMerge 3 (Object base_settings) (Object env_settings) = Done (Object merged_settings)
  ∧ obj_get "cors" merged_settings
      = Some (Object [("origins", Array [Leaf (JStr "http://localhost")])])
  ∧ obj_get "origins" [("origins", Array [Leaf (JStr "http://localhost")])]
      = Some (Array [Leaf (JStr "http://localhost")]).
Proof.
  split; [vm_compute; reflexivity|]. split; [reflexivity|].
  apply (arrays_are_never_concatenated 2
           [("origins", Array [Leaf (JStr "http://localhost")])]
           [("origins", Array [Leaf (JStr "https://example.org")])]
           [("origins", Array [Leaf (JStr "http://localhost")])]
           "origins" [Leaf (JStr "http://localhost")] [Leaf (JStr "https://example.org")]).
  - vm_compute. reflexivity.
  - reflexivity.
  - reflexivity.
Defined.

(** X19. Key by key, the second argument of [deepMerge] has the last
    word on everything that is not an object on both sides: a primitive,
    and [null] too, replaces whatever [a] held under that key; a key that
    [b] lacks keeps the value [a] had; a key that only [b] has is added. *)
Theorem the_later_source_overrides fuel pa pb pa' key :
  deepMerge fuel (Object pa) (Object pb) = Done (Object pa') →
  (∀ v, obj_get key pb = Some (Leaf v) → obj_get key pa' = Some (Leaf v))
  ∧ (obj_get key pb = None → obj_get key pa' = obj_get key pa)
  ∧ (∀ bProp, obj_get key pa = None → obj_get key pb = Some bProp →
       obj_get key pa' = Some bProp).
Proof.
  destruct fuel as [|n]; [done|]. intros Hrun.
  destruct (deepMerge_lookup _ _ _ _ key Hrun) as [Hkey _].
  split; [|split].
  - intros v Hb. by eapply deepMerge_leaf.
  - intros Hb. rewrite Hkey, Hb. by destruct (obj_get key pa).
  - intros bProp Ha Hb. by rewrite Hkey, Ha, Hb.
Qed.

Lemma the_later_source_overrides_witness :
  (∀ v, obj_get "port" env_settings = Some (Leaf v) →
        obj_get "port" merged_settings = Some (Leaf v))
  ∧ (obj_get "port" env_settings = None →
     obj_get "port" merged_settings = obj_get "port" base_settings)
  ∧ (∀ bProp, obj_get "port" base_settings = None →
       obj_get "port" env_settings = Some bProp →
       obj_get "port" merged_settings = Some bProp).
Proof.
  apply (the_later_source_overrides 3 base_settings env_settings merged_settings "port").
  vm_compute. reflexivity.
Defined.

(** X20. Objects are merged in depth: where both [a] and [b] hold a plain
    object under a key, [a] holds their merge afterwards, so a nested
    setting that only [a] has survives, and a nested primitive of [b]
    replaces that of [a]. *)
Theorem nested_objects_are_merged fuel pa pb pa' key xs ys :
  deepMerge fuel (Object pa) (Object pb) = Done (Object pa') →
  obj_get key pa = Some (Object xs) →
  obj_get key pb = Some (Object ys) →
  ∃ zs,
    obj_get key pa' = Some (Object zs)
    ∧ ∀ k, (obj_get k ys = None → obj_get k zs = obj_get k xs)
           ∧ (∀ v, obj_get k ys = Some (Leaf v) → obj_get k zs = Some (Leaf v)).
Proof.
  destruct fuel as [|n]; [done|]. intros Hrun Ha Hb.
  destruct (deepMerge_lookup _ _ _ _ key Hrun) as [Hkey Hsome].
  rewrite Ha, Hb in Hkey. unfold both_sides in Hkey. simpl in Hkey.
  destruct (deepMerge n (Object xs) (Object ys)) as [merged| | |] eqn:Hnested;
    try (rewrite Hkey in Hsome; destruct Hsome as [[? [=]]|[_ Hnone]]; congruence).
  destruct n as [|n]; [done|].
  assert (∃ zs, merged = Object zs) as [zs ->].
  { revert Hnested. simpl. destruct (foldl _ _ _); try done. intros [= <-]. by eexists. }
  exists zs. split; [done|]. intros k.
  destruct (deepMerge_lookup _ _ _ _ k Hnested) as [Hk _].
  split.
  - intros Hy. rewrite Hk, Hy. by destruct (obj_get k xs).
  - intros v Hy. rewrite Hk, Hy. unfold both_sides.
    destruct (obj_get k xs) as [aProp|]; [|done].
    destruct (nullish aProp || nullish (Leaf v)); [done|].
    by destruct aProp as [[]| |], v.
Qed.

(** The [log] section of the test configuration: the environment file
    changes the level and the file name survives. *)
Lemma nested_objects_are_merged_witness :
  ∃ zs,
    obj_get "log" merged_settings = Some (Object zs)
    ∧ ∀ k, (obj_get k [("level", Leaf (JStr "error"))] = None →
            obj_get k zs
              = obj_get k [("level", Leaf (JStr "info")); ("file", Leaf (JStr "app.log"))])
           ∧ (∀ v, obj_get k [("level", Leaf (JStr "error"))] = Some (Leaf v) →
                   obj_get k zs = Some (Leaf v)).
Proof.
  apply (nested_objects_are_merged 3 base_settings env_settings merged_settings "log"
           [("level", Leaf (JStr "info")); ("file", Leaf (JStr "app.log"))]
           [("level", Leaf (JStr "error"))]).
  - vm_compute. reflexivity.
  - reflexivity.
  - reflexivity.
Defined.

End DeepMergeResults.

(** ** Configuration: the sources and their priority *)

Section Sources.
Import Config.

Lemma bind_done {A B} (m : Outcome A) (f : A → Outcome B) b :
  m ≫= f = Done b → ∃ a, m = Done a ∧ f a = Done b.
Proof. destruct m as [a| | |]; try done. intros Hf. by exists a. Qed.

Lemma merge_into_leaf this b this' key v :
  merge_into this (Object b) = Done this' →
  obj_get key b = Some (Leaf v) → obj_get key this' = Some (Leaf v).
Proof.
  unfold merge_into. intros (merged & Hrun & Hmerged)%bind_done Hb.
  destruct merged as [|?|props]; try done. injection Hmerged as ->.
  by eapply deepMerge_leaf.
Qed.

Lemma addSpecialEnvVars_others F this key :
  key ≠ "host" → key ≠ "port" →
  obj_get key (addSpecialEnvVars F this) = obj_get key this.
Proof.
  intros Hhost Hport. unfold addSpecialEnvVars.
  destruct (HOST F), (PORT F); by rewrite ?obj_get_set_ne.
Qed.



Lemma obj_get_elem {V} (o : Obj V) k (v : V) : obj_get k o = Some v → (k, v) ∈ o.
Proof.
  induction o as [|[k0 v0] rest IH]; simpl; [done|].
  destruct (String.eqb_spec k k0) as [->|Hne].
  - intros [= ->]. by left.
  - intros Hk. right. by apply IH.
Qed.

Lemma elem_obj_get {V} (o : Obj V) k (v : V) :
  NoDup o.*1 → (k, v) ∈ o → obj_get k o = Some v.
Proof.
  induction o as [|[k0 v0] rest IH]; simpl; intros Hdup Hin.
  - by apply elem_of_nil in Hin.
  - apply NoDup_cons in Hdup as [Hk0 Hdup].
    apply elem_of_cons in Hin as [[= -> ->]|Hin].
    + by rewrite String.eqb_refl.
    + destruct (String.eqb_spec k k0) as [->|Hne]; [|by apply IH].
      destruct Hk0. apply list_elem_of_fmap. by exists (k0, v).
Qed.

Lemma filter_keys {V} (f : string * V → bool) (o : Obj V) :
  NoDup o.*1 → NoDup (List.filter f o).*1.
Proof.
  induction o as [|e rest IH]; simpl; [done|]. intros [He Hdup]%NoDup_cons.
  destruct (f e); [|by apply IH]. simpl. apply NoDup_cons. split; [|by apply IH].
  intros (x & Hx & Hin)%list_elem_of_fmap. apply He, list_elem_of_fmap.
  exists x. split; [done|]. by apply list_elem_of_In, List.filter_In in Hin as [Hin%list_elem_of_In _].
Qed.

Lemma options_keys entries : ∀ o : Obj Value,
  NoDup o.*1 → NoDup (foldl (λ o e, obj_put e.1 e.2 o) o entries).*1.
Proof.
  induction entries as [|[k v] rest IH]; intros o Hdup; [done|]. simpl.
  apply IH. rewrite obj_put_keys. destruct (decide (k ∈ o.*1)); [done|].
  apply NoDup_app. split; [done|]. split; [|apply NoDup_singleton].
  by intros x Hx ->%list_elem_of_singleton.
Qed.

Lemma options_keep entries key (held : Value) : ∀ o : Obj Value,
  key ∉ entries.*1 → obj_get key o = Some held →
  obj_get key (foldl (λ o e, obj_put e.1 e.2 o) o entries) = Some held.
Proof.
  induction entries as [|[k v] rest IH]; intros o Hkey Ho; [done|]. simpl.
  simpl in Hkey. apply not_elem_of_cons in Hkey as [Hne Hkey].
  apply IH; [done|]. by rewrite obj_get_put_ne.
Qed.

(** The mode that reaches [Configuration] when the caller gave none. *)
Lemma default_mode appName (given : Obj Value) :
  obj_get "mode" given = None →
  obj_get "mode" (rest_of (options appName given)) = Some (Leaf (JStr "web")).
Proof.
  intros Hmode. unfold rest_of, options.
  set (start := [("appName", Leaf (JStr appName)); ("mode", Leaf (JStr "web"))]).
  assert (NoDup start.*1) as Hstart.
  { simpl. apply NoDup_cons. split; [|apply NoDup_singleton].
    by intros [=]%list_elem_of_singleton. }
  pose proof (options_keys (obj_entries given) start Hstart) as Hdup.
  assert (obj_get "mode" (foldl (λ o e, obj_put e.1 e.2 o) start (obj_entries given))
          = Some (Leaf (JStr "web"))) as Hheld.
  { apply options_keep; [|done]. rewrite (obj_entries_perm given).
    by apply obj_get_None. }
  set (opts := foldl (λ o e, obj_put e.1 e.2 o) start (obj_entries given)) in *.
  apply elem_obj_get.
  - apply filter_keys. by rewrite (obj_entries_perm opts).
  - apply list_elem_of_In, List.filter_In. split; [|done].
    apply list_elem_of_In. rewrite (obj_entries_perm opts). by apply obj_get_elem.
Qed.

(** X22. The constructor of [Application] passes [mode: 'web'] ahead of
    the caller's object, and that object is the source of highest
    priority: unless the caller names a mode, the loaded configuration
    has mode [web], whatever the configuration files, the environment
    files, [.apprc], the environment and the command line say. *)
Theorem mode_is_web_unless_given_to_the_constructor F dirPath appName given this this' :
  obj_get "mode" given = None →
  init F dirPath (Object (rest_of (options appName given))) this = Done this' →
  obj_get "mode" this' = Some (Leaf (JStr "web")).
Proof.
  intros Hmode. unfold init.
  intros (this1 & _ & (this2 & _ & (this3 & _ & (this4 & Hruntime & [= <-])
            %bind_done)%bind_done)%bind_done)%bind_done.
  rewrite addSpecialEnvVars_others by done.
  eapply merge_into_leaf; [done|]. by apply default_mode.
Qed.

(** The test application: the environment file asks for [cron], [rc] for
    [internal], and the mode is [web]. *)
Lemma mode_is_web_unless_given_to_the_constructor_witness :
  obj_get "mode" test_loaded = Some (Leaf (JStr "web")).
Proof.
  apply (mode_is_web_unless_given_to_the_constructor (test_config []) "/app/config"
           "test" [] (new "development") test_loaded).
  - reflexivity.
  - vm_compute. reflexivity.
Defined.

Lemma load_failed F dirPath names (acc : Outcome (Obj Value)) :
  (∀ this, acc ≠ Done this) →
  foldl (λ acc fileName, this ← acc; assign_file F dirPath this fileName) acc names
    = acc.
Proof.
  revert acc. induction names as [|name rest IH]; intros acc Hacc; [done|].
  cbn [foldl].
  assert ((acc ≫= λ this, assign_file F dirPath this name) = acc) as ->
    by (destruct acc as [this| | |]; [by destruct (Hacc this)|done..]).
  by apply IH.
Qed.

Lemma load_stray F dirPath name names :
  name ∈ names →
  endsWith (path_resolve dirPath name) ".json" = false →
  endsWith (path_resolve dirPath name) ".js" = false →
  ∀ acc this',
    foldl (λ acc fileName, this ← acc; assign_file F dirPath this fileName) acc names
      ≠ Done this'.
Proof.
  intros Hname Hjson Hjs.
  induction names as [|n rest IH]; intros acc this'; [by apply elem_of_nil in Hname|].
  apply elem_of_cons in Hname as [<-|Hname]; [|by apply IH].
  cbn [foldl]. rewrite load_failed; destruct acc as [cur| | |]; try done;
    unfold assign_file, importFile; rewrite Hjson, Hjs; done.
Qed.

(** X23. The loader imports every file of the configuration directory,
    and [importFile] knows [.json] and [.js] only: a single file of any
    other kind there (a README, an editor backup) makes [init()] fail,
    whatever else the directory holds. *)
Theorem a_stray_file_fails_the_load F dirPath runtime this items item :
  config_dir F = Fulfilled items →
  item ∈ items → isFile item = true →
  endsWith (path_resolve dirPath (entry_name item)) ".json" = false →
  endsWith (path_resolve dirPath (entry_name item)) ".js" = false →
  completes (init F dirPath runtime this) = false.
Proof.
  intros Hdir Hitem Hfile Hjson Hjs.
  destruct (init F dirPath runtime this) as [this'| | |] eqn:Hinit; try done.
  exfalso. revert Hinit. unfold init.
  intros (this1 & Hmodule & _)%bind_done. revert Hmodule.
  unfold addModuleConfig. rewrite Hdir.
  change (settle (Fulfilled items) ≫= ?f) with (f items). cbv beta zeta.
  apply load_stray with (entry_name item); [|done..].
  apply list_elem_of_fmap. exists item. split; [done|].
  by apply list_elem_of_In, List.filter_In; split; [apply list_elem_of_In|].
Qed.

(** The test configuration with a README beside its files. *)
Lemma a_stray_file_fails_the_load_witness :
  completes (init (test_config [Sample.file "README.md"]) "/app/config"
               (Object test_runtime) (new "development")) = false.
Proof.
  apply (a_stray_file_fails_the_load (test_config [Sample.file "README.md"])
           "/app/config" (Object test_runtime) (new "development")
           ([Sample.file "README.md"] ++ [Sample.folder "env"; Sample.file "email.json";
                                          Sample.file "log.json"])
           (Sample.file "README.md")).
  - reflexivity.
  - by left.
  - reflexivity.
  - reflexivity.
  - reflexivity.
Defined.

End Sources.

(** ** The serializer cache of emitToRoom *)

Section SerializerCache.
Import SocketIoApi.

Lemma compilations_app t1 t2 :
  compilations (t1 ++ t2) = compilations t1 ++ compilations t2.
Proof. apply omap_app. Qed.

(** One call compiles at most the schema it was given, only if it is
    not cached, and caches it when the compiler returned. *)
Lemma emitToRoom_step hasCompiler cache c r cache' t :
  compiled c = Fulfilled tt →
  emitToRoom hasCompiler cache c = (r, cache', t) →
  (compilations t = [] ∧ cache' = cache)
  ∨ ∃ key, compilations t = [key] ∧ (key ∉ cache) ∧ cache' = key :: cache.
Proof.
  intros Hcompiled. unfold emitToRoom. rewrite Hcompiled.
  destruct (schema c) as [key|], hasCompiler;
    try (destruct (serialized c); intros [= <- <- <-]; by left).
  destruct (bool_decide_reflect (key ∈ cache)) as [Hin|Hout].
  - destruct (serialized c); intros [= <- <- <-]; by left.
  - destruct (serialized c); intros [= <- <- <-]; right; by exists key.
Qed.

(** X24. The serializer cache works: over any sequence of [emitToRoom]
    calls on one server, as long as the compiler returns a serializer
    when it is called, no schema is compiled twice, and none that was
    already cached is compiled at all. *)
Theorem each_schema_is_compiled_once hasCompiler cache cs :
  Forall (λ c, compiled c = Fulfilled tt) cs →
  NoDup cache →
  NoDup (compilations (calls hasCompiler cache cs).2)
  ∧ ∀ key, key ∈ compilations (calls hasCompiler cache cs).2 → key ∉ cache.
Proof.
  intros Hcs. revert cache.
  induction Hcs as [|c rest Hc _ IH]; intros cache Hcache; simpl.
  { split; [constructor|]. by intros key Hkey%elem_of_nil. }
  destruct (emitToRoom hasCompiler cache c) as [[r cache'] t1] eqn:Hcall.
  apply (emitToRoom_step _ _ _ _ _ _ Hc) in Hcall.
  specialize (IH cache').
  destruct (calls hasCompiler cache' rest) as [final t2]. simpl in *.
  rewrite compilations_app.
  destruct Hcall as [[-> ->]|(key & -> & Hout & ->)]; simpl.
  - by apply IH.
  - destruct IH as [Hdup Hnew]; [by apply NoDup_cons|]. split.
    + apply NoDup_cons. split; [|done]. intros Hin. apply (Hnew key Hin). by left.
    + intros k [->|Hk]%elem_of_cons; [done|].
      intros Hin. apply (Hnew k Hk). by right.
Qed.

Lemma each_schema_is_compiled_once_witness :
  compilations (calls true [] three_messages).2 = [1]
  ∧ NoDup (compilations (calls true [] three_messages).2)
  ∧ ∀ key, key ∈ compilations (calls true [] three_messages).2 → key ∉ [].
Proof.
  split; [reflexivity|].
  apply (each_schema_is_compiled_once true [] three_messages).
  - repeat constructor.
  - constructor.
Defined.

End SerializerCache.
